(** * AethricCrawler: the crawl engine of [Crawler.py] and its address filter

    A shallow embedding of [src/Crawler.py]:

    - [Str]: the [str] operations the code relies on;
    - [urllib] and [pathlib]: the functions of Python's standard library that
      [UrlFilterer.filter_url] calls ([urljoin], [urldefrag], [urlparse],
      [PurePath.suffix]), transcribed from CPython 3.11 for POSIX paths;
    - [UrlFilterer], [UrlParser]: the filter and the anchor collector;
    - [SpellParser]: the handlers that pick the name and the description of
      a spell from the calls of [HTMLParser];
    - [Queue]: [asyncio.Queue] without a size bound, with the log of the
      operations performed on it;
    - [Crawler], [SpellReader]: the admission path, the visit, the workers and
      [run], as a transition system whose steps are the code between two
      suspension points of the event loop;
    - [main], [get_spells], [save_spell_urls]: the crawler and the reader
      they build, the selection of [spell_urls], and the text saved.

    Python [str] values are modelled by [string], the strings over the code
    points below 256; integers by [Z]; [set] values by [gset string]. What
    [urlsplit] leaves to [ipaddress] and to [unicodedata], the verdict on a
    bracketed host and the verdict on a netloc outside ASCII, are parameters
    of the model. [HTMLParser] is modelled by the calls it makes on the
    handlers and by whether it gives the text up. *)

From Stdlib Require Import ZArith Ascii String List Lia.
From stdpp Require Import base tactics option list sets gmap strings sorting.

Local Open Scope Z_scope.
#[local] Arguments String.append !_ _ / : simpl nomatch.
#[local] Set Warnings "-clear-no-such-hyp".

(** ** Exceptions *)

Inductive exn : Type :=
  | ValueError
      (** raised by [urlsplit] *)
  | TypeError
      (** a filter that is [None] is called, or [pathlib.Path] is given
          [bytes] *)
  | AssertionError
      (** raised by [HTMLParser] on markup it gives up *)
  | FetchError
      (** whatever else a visit raises: [asyncio.sleep], [client.get], the
          reading of the response, the parse of a page by a reader *).

Inductive result (A : Type) : Type :=
  | Ok (a : A)
  | Raise (e : exn).
Arguments Ok {A} a.
Arguments Raise {A} e.

Global Instance result_ret : MRet result := λ A a, Ok a.
Global Instance result_bind : MBind result := λ A B k m,
  match m with
  | Ok a => k a
  | Raise e => Raise e
  end.

Definition raises {A} (m : result A) : bool :=
  match m with Ok _ => false | Raise _ => true end.

(** ** Strings *)

Module Str.

Definition is_empty (s : string) : bool :=
  match s with EmptyString => true | String _ _ => false end.

(** [p in s] *)
Fixpoint contains (p s : string) : bool :=
  String.prefix p s
  || match s with
     | EmptyString => false
     | String _ s' => contains p s'
     end.

(** [c in s] for a single character *)
Fixpoint has_char (c : ascii) (s : string) : bool :=
  match s with
  | EmptyString => false
  | String d s' => Ascii.eqb c d || has_char c s'
  end.

(** [s.partition(c)]: [None] when [c] does not occur, otherwise the text
    before and after its first occurrence. *)
Fixpoint split_once (c : ascii) (s : string) : option (string * string) :=
  match s with
  | EmptyString => None
  | String d s' =>
      if Ascii.eqb c d then Some (EmptyString, s')
      else match split_once c s' with
           | Some (a, b) => Some (String d a, b)
           | None => None
           end
  end.

(** [s.rpartition(c)], same convention, last occurrence. *)
Fixpoint rsplit_once (c : ascii) (s : string) : option (string * string) :=
  match s with
  | EmptyString => None
  | String d s' =>
      match rsplit_once c s' with
      | Some (a, b) => Some (String d a, b)
      | None => if Ascii.eqb c d then Some (EmptyString, s') else None
      end
  end.

(** [s.split(c)]: never the empty list. *)
Fixpoint split (c : ascii) (s : string) : list string :=
  match s with
  | EmptyString => [EmptyString]
  | String d s' =>
      if Ascii.eqb c d then EmptyString :: split c s'
      else match split c s' with
           | x :: r => String d x :: r
           | [] => [String d EmptyString]
           end
  end.

(** [sep.join(l)] *)
Fixpoint join (sep : string) (l : list string) : string :=
  match l with
  | [] => EmptyString
  | [x] => x
  | x :: r => x +:+ sep +:+ join sep r
  end.

(** [s.lstrip(chars)] for a set of characters given as a predicate *)
Fixpoint lstrip (f : ascii → bool) (s : string) : string :=
  match s with
  | EmptyString => EmptyString
  | String c s' => if f c then lstrip f s' else s
  end.

(** [s.rstrip(chars)] *)
Fixpoint rstrip (f : ascii → bool) (s : string) : string :=
  match s with
  | EmptyString => EmptyString
  | String c s' =>
      let r := rstrip f s' in
      if is_empty r && f c then EmptyString else String c r
  end.

(** the characters of [s] that satisfy [f], in order *)
Fixpoint keep (f : ascii → bool) (s : string) : string :=
  match s with
  | EmptyString => EmptyString
  | String c s' => if f c then String c (keep f s') else keep f s'
  end.

Fixpoint all (f : ascii → bool) (s : string) : bool :=
  match s with
  | EmptyString => true
  | String c s' => f c && all f s'
  end.

(** the longest prefix whose characters satisfy [f], and the rest *)
Fixpoint span (f : ascii → bool) (s : string) : string * string :=
  match s with
  | EmptyString => (EmptyString, EmptyString)
  | String c s' =>
      if f c then let '(a, b) := span f s' in (String c a, b)
      else (EmptyString, s)
  end.

Definition between (lo hi : nat) (c : ascii) : bool :=
  (lo <=? nat_of_ascii c)%nat && (nat_of_ascii c <=? hi)%nat.

Definition is_upper : ascii → bool := between 65 90.
Definition is_lower : ascii → bool := between 97 122.
Definition is_digit : ascii → bool := between 48 57.
(** [c.isascii() and c.isalpha()] *)
Definition is_ascii_alpha (c : ascii) : bool := is_upper c || is_lower c.

Definition lower_char (c : ascii) : ascii :=
  if is_upper c then ascii_of_nat (nat_of_ascii c + 32) else c.

Fixpoint lower (s : string) : string :=
  match s with
  | EmptyString => EmptyString
  | String c s' => String (lower_char c) (lower s')
  end.

(** [s[:n]] and [s[n:]] *)
Fixpoint take (n : nat) (s : string) : string :=
  match n, s with
  | S n', String c s' => String c (take n' s')
  | _, _ => EmptyString
  end.

Fixpoint drop (n : nat) (s : string) : string :=
  match n, s with
  | S n', String _ s' => drop n' s'
  | _, _ => s
  end.

(** [c.isspace()], for a code point below 256 *)
Definition is_space (c : ascii) : bool :=
  between 9 13 c || between 28 32 c
  || (nat_of_ascii c =? 133)%nat || (nat_of_ascii c =? 160)%nat.

(** [s.strip()] *)
Definition strip (s : string) : string := rstrip is_space (lstrip is_space s).

(** the line feed, ['\n'] *)
Definition newline : string := String "010" EmptyString.

(** [c.isascii()] *)
Definition is_ascii (c : ascii) : bool := (nat_of_ascii c <? 128)%nat.

(** [a <= b]: Python compares two [str] values code point by code point. *)
Definition le : relation string := λ a b, String.leb a b = true.

End Str.

(** ** [urllib.parse] (CPython 3.11, [str] arguments) *)

Module urllib.

Definition uses_relative : list string :=
  [""; "ftp"; "http"; "gopher"; "nntp"; "imap"; "wais"; "file"; "https";
   "shttp"; "mms"; "prospero"; "rtsp"; "rtspu"; "sftp"; "svn"; "svn+ssh";
   "ws"; "wss"].

Definition uses_netloc : list string :=
  [""; "ftp"; "http"; "gopher"; "nntp"; "telnet"; "imap"; "wais"; "file";
   "mms"; "https"; "shttp"; "snews"; "prospero"; "rtsp"; "rtspu"; "rsync";
   "svn"; "svn+ssh"; "sftp"; "nfs"; "git"; "git+ssh"; "ws"; "wss"].

Definition uses_params : list string :=
  [""; "ftp"; "hdl"; "prospero"; "http"; "imap"; "https"; "shttp"; "rtsp";
   "rtspu"; "sip"; "sips"; "mms"; "sftp"; "tel"].

Definition mem (s : string) (l : list string) : bool :=
  existsb (String.eqb s) l.

(** [c in scheme_chars] *)
Definition scheme_char (c : ascii) : bool :=
  Str.is_lower c || Str.is_upper c || Str.is_digit c
  || Ascii.eqb c "+" || Ascii.eqb c "-" || Ascii.eqb c ".".

(** [_WHATWG_C0_CONTROL_OR_SPACE]: code points 0 to 32 *)
Definition c0_or_space (c : ascii) : bool := (nat_of_ascii c <=? 32)%nat.

(** not in [_UNSAFE_URL_BYTES_TO_REMOVE]: tab, carriage return, newline *)
Definition safe_byte (c : ascii) : bool :=
  negb ((nat_of_ascii c =? 9)%nat || (nat_of_ascii c =? 13)%nat
        || (nat_of_ascii c =? 10)%nat).

Record SplitResult := mkSplit {
  s_scheme : string; s_netloc : string; s_path : string;
  s_query : string; s_fragment : string }.

Record ParseResult := mkParse {
  scheme : string; netloc : string; path : string;
  params : string; query : string; fragment : string }.

(** [_splitnetloc(url, 2)] *)
Definition splitnetloc (url : string) : string * string :=
  Str.span (λ c, negb (Ascii.eqb c "/" || Ascii.eqb c "?" || Ascii.eqb c "#"))
           (Str.drop 2 url).

Section Parsing.

(** [_check_bracketed_host] hands a bracketed host to [re] and
    [ipaddress]; its verdict ([true]: no exception) is a parameter. *)
Variable bracketed_host_ok : string → bool.

Definition check_bracketed_netloc (netloc : string) : result unit :=
  let hostname_and_port :=
    match Str.rsplit_once "@" netloc with
    | Some (_, h) => h
    | None => netloc
    end in
  match Str.split_once "[" hostname_and_port with
  | Some (before_bracket, bracketed) =>
      if negb (Str.is_empty before_bracket) then Raise ValueError
      else
        let '(hostname, port) :=
          match Str.split_once "]" bracketed with
          | Some (h, p) => (h, p)
          | None => (bracketed, EmptyString)
          end in
        if negb (Str.is_empty port) && negb (String.prefix ":" port)
        then Raise ValueError
        else if bracketed_host_ok hostname then Ok () else Raise ValueError
  | None =>
      let hostname :=
        match Str.split_once ":" hostname_and_port with
        | Some (h, _) => h
        | None => hostname_and_port
        end in
      if bracketed_host_ok hostname then Ok () else Raise ValueError
  end.

(** [_checknetloc] returns at once on a netloc that is empty or ASCII. Any
    other netloc it hands to [unicodedata]: it raises [ValueError] when the
    NFKC form of the netloc, its [@ : # ?] left aside, differs from it and
    holds one of [/ ? # @ :], as the form of U+2100 does. Whether it does
    not raise ([true]) is a parameter. *)
Variable nfkc_ok : string → bool.

Definition checknetloc (netloc : string) : result unit :=
  if Str.is_empty netloc || Str.all Str.is_ascii netloc then Ok ()
  else if nfkc_ok netloc then Ok () else Raise ValueError.

(** [urlsplit(url, scheme)] *)
Definition urlsplit (url0 scheme0 : string) : result SplitResult :=
  let url := Str.keep safe_byte (Str.lstrip c0_or_space url0) in
  let scheme :=
    Str.keep safe_byte
      (Str.rstrip c0_or_space (Str.lstrip c0_or_space scheme0)) in
  let '(scheme, url) :=
    match Str.split_once ":" url with
    | Some (String c pre as p, rest) =>
        if Str.is_ascii_alpha c && Str.all scheme_char p
        then (Str.lower p, rest) else (scheme, url)
    | _ => (scheme, url)
    end in
  '(netloc, url) ←
    (if String.prefix "//" url then
       let '(netloc, rest) := splitnetloc url in
       let lb := Str.has_char "[" netloc in
       let rb := Str.has_char "]" netloc in
       if (lb && negb rb) || (rb && negb lb) then Raise ValueError
       else if lb && rb then
         _ ← check_bracketed_netloc netloc; Ok (netloc, rest)
       else Ok (netloc, rest)
     else Ok (EmptyString, url));
  let '(url, fragment) :=
    match Str.split_once "#" url with
    | Some (u, f) => (u, f)
    | None => (url, EmptyString)
    end in
  let '(url, query) :=
    match Str.split_once "?" url with
    | Some (u, q) => (u, q)
    | None => (url, EmptyString)
    end in
  _ ← checknetloc netloc;
  Ok (mkSplit scheme netloc url query fragment).

(** [_splitparams(url)], called when [';' in url] *)
Definition splitparams (url : string) : string * string :=
  match Str.rsplit_once "/" url with
  | Some (dir, last) =>
      match Str.split_once ";" last with
      | Some (a, b) => (dir +:+ "/" +:+ a, b)
      | None => (url, EmptyString)
      end
  | None =>
      match Str.split_once ";" url with
      | Some (a, b) => (a, b)
      | None => (url, EmptyString)
      end
  end.

Definition urlparse (url scheme0 : string) : result ParseResult :=
  r ← urlsplit url scheme0;
  let '(url, params) :=
    if mem (s_scheme r) uses_params && Str.has_char ";" (s_path r)
    then splitparams (s_path r)
    else (s_path r, EmptyString) in
  Ok (mkParse (s_scheme r) (s_netloc r) url params (s_query r)
              (s_fragment r)).

Definition urlunsplit (scheme netloc url query fragment : string) : string :=
  let url :=
    if negb (Str.is_empty netloc)
       || (negb (Str.is_empty scheme) && mem scheme uses_netloc
           && negb (String.eqb (Str.take 2 url) "//"))
    then
      let url :=
        if negb (Str.is_empty url) && negb (String.eqb (Str.take 1 url) "/")
        then "/" +:+ url else url in
      "//" +:+ netloc +:+ url
    else url in
  let url := if negb (Str.is_empty scheme) then scheme +:+ ":" +:+ url else url in
  let url := if negb (Str.is_empty query) then url +:+ "?" +:+ query else url in
  if negb (Str.is_empty fragment) then url +:+ "#" +:+ fragment else url.

Definition urlunparse (scheme netloc url params query fragment : string)
  : string :=
  let url :=
    if negb (Str.is_empty params) then url +:+ ";" +:+ params else url in
  urlunsplit scheme netloc url query fragment.

(** [segments[1:-1] = filter(None, segments[1:-1])] *)
Definition drop_empty_middle (segments : list string) : list string :=
  match segments with
  | x :: (_ :: _) as r =>
      x :: filter (λ s, Str.is_empty s = false) (removelast r)
        ++ [List.last r EmptyString]
  | _ => segments
  end.

(** the loop of [urljoin] over the segments *)
Definition resolve (segments : list string) : list string :=
  foldl (λ resolved_path seg,
           if String.eqb seg ".." then removelast resolved_path
           else if String.eqb seg "." then resolved_path
           else resolved_path ++ [seg])
        [] segments.

Definition urljoin (base url : string) : result string :=
  if Str.is_empty base then Ok url
  else if Str.is_empty url then Ok base
  else
    b ← urlparse base "";
    u ← urlparse url (scheme b);
    if negb (String.eqb (scheme u) (scheme b))
       || negb (mem (scheme u) uses_relative)
    then Ok url
    else if mem (scheme u) uses_netloc && negb (Str.is_empty (netloc u))
    then Ok (urlunparse (scheme u) (netloc u) (path u) (params u)
                        (query u) (fragment u))
    else
      let netloc :=
        if mem (scheme u) uses_netloc then netloc b else netloc u in
      if Str.is_empty (path u) && Str.is_empty (params u) then
        let query := if Str.is_empty (query u) then query b else query u in
        Ok (urlunparse (scheme u) netloc (path b) (params b) query
                       (fragment u))
      else
        let base_parts := Str.split "/" (path b) in
        let base_parts :=
          if negb (Str.is_empty (List.last base_parts EmptyString))
          then removelast base_parts else base_parts in
        let segments :=
          if String.eqb (Str.take 1 (path u)) "/"
          then Str.split "/" (path u)
          else drop_empty_middle (base_parts ++ Str.split "/" (path u)) in
        let resolved_path := resolve segments in
        let last_seg := List.last segments EmptyString in
        let resolved_path :=
          if String.eqb last_seg "." || String.eqb last_seg ".."
          then resolved_path ++ [EmptyString] else resolved_path in
        let joined := Str.join "/" resolved_path in
        Ok (urlunparse (scheme u) netloc
              (if Str.is_empty joined then "/" else joined)
              (params u) (query u) (fragment u)).

Definition urldefrag (url : string) : result (string * string) :=
  if Str.has_char "#" url then
    p ← urlparse url "";
    Ok (urlunparse (scheme p) (netloc p) (path p) (params p) (query p) "",
        fragment p)
  else Ok (url, EmptyString).

End Parsing.

End urllib.

(** ** [pathlib] (POSIX flavour) *)

Module pathlib.

(** [PurePosixPath(p).name]: the last component of [p] once empty and
    ["."] components are dropped, or the empty string. *)
Definition name (p : string) : string :=
  List.last
    (filter (λ x, Str.is_empty x = false ∧ x ≠ ".") (Str.split "/" p))
    EmptyString.

(** [PurePosixPath(p).suffix]:
    [i = name.rfind('.'); name[i:] if 0 < i < len(name) - 1 else ''] *)
Definition suffix (p : string) : string :=
  match Str.rsplit_once "." (name p) with
  | Some (stem, ext) =>
      if negb (Str.is_empty stem) && negb (Str.is_empty ext)
      then "." +:+ ext else EmptyString
  | None => EmptyString
  end.

End pathlib.

(** ** [UrlFilterer] *)

Module UrlFilterer.

Record t := mk {
  allowed_domains : option (gset string);
  allowed_schemes : option (gset string);
  allowed_filetypes : option (gset string);
  blocked_phrases : option (gset string) }.

(** [field is not None and x not in field] *)
Definition rejects (field : option (gset string)) (x : string) : bool :=
  match field with
  | Some allowed => bool_decide (x ∉ allowed)
  | None => false
  end.

(** [field is not None and any([p in url for p in field])] *)
Definition blocked (field : option (gset string)) (url : string) : bool :=
  match field with
  | Some phrases => existsb (λ p, Str.contains p url) (elements phrases)
  | None => false
  end.

Section Filter.

Variable bracketed_host_ok nfkc_ok : string → bool.

Definition filter_url (self : t) (base url : string)
  : result (option string) :=
  url ← urllib.urljoin bracketed_host_ok nfkc_ok base url;
  '(url, _frag) ← urllib.urldefrag bracketed_host_ok nfkc_ok url;
  parsed ← urllib.urlparse bracketed_host_ok nfkc_ok url "";
  if rejects (allowed_schemes self) (urllib.scheme parsed) then Ok None
  else if rejects (allowed_domains self) (urllib.netloc parsed) then Ok None
  else
    let ext := pathlib.suffix (urllib.path parsed) in
    if rejects (allowed_filetypes self) ext then Ok None
    else if blocked (blocked_phrases self) url then Ok None
    else Ok (Some url).

End Filter.

End UrlFilterer.

(** ** [UrlParser] *)

(** The filter a crawler is built with: [Callable[[str, str], str | None]].
    [HTMLParser] reports an attribute without a value as [None], so the second
    argument is optional. *)
Definition callable : Type := string → option string → result (option string).

(** One start tag as [HTMLParser.feed] reports it: the tag and its attributes. *)
Definition starttag : Type := string * list (string * option string).

(** What [HTMLParser.feed] makes of a text: the start tags it reports, in
    the order of the text, and whether it then stops with an
    [AssertionError] of its own, as it does on a marked section with an
    unknown keyword ([<![foo bar]>]). The tags are those reported before
    that point. *)
Record markup := mkMarkup {
  start_tags : list starttag;
  gives_up : bool }.

Module UrlParser.

Definition handle_starttag (filter_url : option callable) (base : string)
    (found_links : gset string) (t : starttag) : result (gset string) :=
  let '(tag, attrs) := t in
  if negb (String.eqb tag "a") then Ok found_links
  else
    foldl (λ acc '(attr, url),
             found_links ← acc;
             if negb (String.eqb attr "href") then Ok found_links
             else match filter_url with
                  | None => Raise TypeError
                  | Some f =>
                      r ← f base url;
                      match r with
                      | Some url => Ok (found_links ∪ {[url]})
                      | None => Ok found_links
                      end
                  end)
          (Ok found_links) attrs.

(** [parser.feed(text)]: the handler runs on each start tag in turn; the
    first exception ends the parse, that of a handler or, past the last tag
    reported, that of [HTMLParser] itself. *)
Definition feed (filter_url : option callable) (base : string)
    (text : markup) : result (gset string) :=
  found_links ←
    foldl (λ acc t,
             found_links ← acc; handle_starttag filter_url base found_links t)
          (Ok ∅) (start_tags text);
  if gives_up text then Raise AssertionError else Ok found_links.

End UrlParser.

(** [filterer.filter_url], the bound method that [main] hands to [Crawler],
    on the arguments [UrlParser] calls it with. For an attribute without a
    value, [url] is [None]. [urljoin] then returns [base] when [base] is not
    empty. From an empty [base] it returns [None] itself: [urldefrag] and
    [urlparse] go on with empty [bytes], which no set of [str] holds, and
    [pathlib.Path] raises [TypeError] on them. *)
Definition UrlFilterer_bound (bracketed_host_ok nfkc_ok : string → bool)
    (self : UrlFilterer.t) : callable :=
  λ base url,
    match url with
    | Some url => UrlFilterer.filter_url bracketed_host_ok nfkc_ok self base url
    | None =>
        if Str.is_empty base then
          match UrlFilterer.allowed_schemes self,
                UrlFilterer.allowed_domains self with
          | None, None => Raise TypeError
          | _, _ => Ok None
          end
        else UrlFilterer.filter_url bracketed_host_ok nfkc_ok self base
               EmptyString
    end.

(** ** [SpellParser] *)

Module SpellParser.

Record t := mk {
  name : string;
  description : string;
  capture_desc : bool;
  capture_name : bool }.

(** [SpellParser.__init__] *)
Definition init : t := mk EmptyString EmptyString false false.

(** [tag in ('div', 'h1')] *)
Definition tracked (tag : string) : bool :=
  String.eqb tag "div" || String.eqb tag "h1".

Definition handle_endtag (tag : string) (self : t) : t :=
  if negb (tracked tag) then self
  else mk (name self) (description self) false false.

Definition handle_data (data : string) (self : t) : t :=
  if capture_name self
  then mk (Str.strip data) (description self) (capture_desc self)
          (capture_name self)
  else if capture_desc self
  then mk (name self) (Str.strip data) (capture_desc self) (capture_name self)
  else self.

Definition handle_starttag (tag : string) (attrs : list (string * option string))
    (self : t) : t :=
  if negb (tracked tag) then self
  else if bool_decide (("class", Some "codex-page-description") ∈ attrs)
  then mk (name self) (description self) true (capture_name self)
  else if bool_decide (("class", Some "herotext") ∈ attrs)
  then mk (name self) (description self) (capture_desc self) true
  else self.

(** The calls that [HTMLParser.feed] makes on the handlers the class
    overrides; a tag written [<t/>] gives a start and an end. The text of
    one element comes in several calls when tags or comments stand inside
    it. *)
Inductive event : Type :=
  | StartTag (tag : string) (attrs : list (string * option string))
  | EndTag (tag : string)
  | Data (data : string).

Definition handle (self : t) (e : event) : t :=
  match e with
  | StartTag tag attrs => handle_starttag tag attrs self
  | EndTag tag => handle_endtag tag self
  | Data data => handle_data data self
  end.

(** [parser.feed(text)], on the calls that [HTMLParser] makes for a [text]
    it reads to its end *)
Definition feed (events : list event) (self : t) : t :=
  foldl handle self events.

End SpellParser.

(** ** [asyncio.Queue], unbounded *)

Module Queue.

(** The operations performed on a queue, kept as a log that no operation
    reads. *)
Inductive op : Type :=
  | Put (x : string)
  | Get (x : string)
  | TaskDone.

Record t := mk {
  items : list string;
  unfinished_tasks : nat;
  history : list op }.

Definition new : t := mk [] 0 [].

(** [put_nowait]; [put] never suspends on a queue without a bound. *)
Definition put (x : string) (q : t) : t :=
  mk (items q ++ [x]) (S (unfinished_tasks q)) (history q ++ [Put x]).

(** [get_nowait]; [None] on the empty queue, where [get] suspends. *)
Definition get (q : t) : option (string * t) :=
  match items q with
  | [] => None
  | x :: rest => Some (x, mk rest (unfinished_tasks q) (history q ++ [Get x]))
  end.

(** [task_done] raises [ValueError] when nothing is unfinished. *)
Definition task_done (q : t) : result t :=
  match unfinished_tasks q with
  | O => Raise ValueError
  | S n => Ok (mk (items q) n (history q ++ [TaskDone]))
  end.

Definition puts (h : list op) : list string :=
  omap (λ o, match o with Put x => Some x | _ => None end) h.

Definition gets (h : list op) : list string :=
  omap (λ o, match o with Get x => Some x | _ => None end) h.

End Queue.

(** ** [Crawler] and [SpellReader] *)

Inductive class : Type := CrawlerClass | SpellReaderClass.

(** One record of [SpellReader.entries]: a [DataFrame] of one row, as the
    list of its columns in order, each with its label and its value. *)
Definition entry : Type := list (string * string).

(** [df[label] = value]: a new column goes last, a column that exists is
    overwritten where it stands. *)
Fixpoint assign (label value : string) (df : entry) : entry :=
  match df with
  | [] => [(label, value)]
  | (k, v) :: r =>
      if String.eqb k label then (k, value) :: r
      else (k, v) :: assign label value r
  end.

Record Crawler := mkCrawler {
  cls : class;
  start_urls : gset string;
  todo : Queue.t;
  seen : gset string;
  done : gset string;
  filter_url : option callable;
  num_workers : Z;
  limit : Z;
  total : Z;
  langs : list string;
  entries : list entry }.

Definition set_todo (q : Queue.t) (c : Crawler) : Crawler :=
  mkCrawler (cls c) (start_urls c) q (seen c) (done c) (filter_url c)
            (num_workers c) (limit c) (total c) (langs c) (entries c).
Definition set_seen (x : gset string) (c : Crawler) : Crawler :=
  mkCrawler (cls c) (start_urls c) (todo c) x (done c) (filter_url c)
            (num_workers c) (limit c) (total c) (langs c) (entries c).
Definition set_done (x : gset string) (c : Crawler) : Crawler :=
  mkCrawler (cls c) (start_urls c) (todo c) (seen c) x (filter_url c)
            (num_workers c) (limit c) (total c) (langs c) (entries c).
Definition set_total (n : Z) (c : Crawler) : Crawler :=
  mkCrawler (cls c) (start_urls c) (todo c) (seen c) (done c) (filter_url c)
            (num_workers c) (limit c) n (langs c) (entries c).
Definition set_entries (l : list entry) (c : Crawler) : Crawler :=
  mkCrawler (cls c) (start_urls c) (todo c) (seen c) (done c) (filter_url c)
            (num_workers c) (limit c) (total c) (langs c) l.

(** [Crawler.__init__] *)
Definition Crawler_init (urls : list string) (filter_url : option callable)
    (workers limit : Z) : Crawler :=
  mkCrawler CrawlerClass (list_to_set urls) Queue.new ∅ ∅ filter_url
            workers limit 0 [] [].

(** [SpellReader.__init__]:
    [super().__init__(client, urls, None, workers, limit=len(urls))] *)
Definition SpellReader_init (urls langs : list string) (workers : Z) : Crawler :=
  mkCrawler SpellReaderClass (list_to_set urls) Queue.new ∅ ∅ None
            workers (Z.of_nat (length urls)) 0 langs [].

(** [Crawler.put_todo] *)
Definition Crawler_put_todo (url : string) (self : Crawler) : Crawler :=
  if limit self <=? total self then self
  else if negb (Str.contains "?p=" url) then self
  else set_todo (Queue.put url (todo self)) (set_total (total self + 1) self).

(** [SpellReader.put_todo] *)
Definition SpellReader_put_todo (url : string) (self : Crawler) : Crawler :=
  if limit self <=? total self then self
  else set_todo (Queue.put url (todo self)) (set_total (total self + 1) self).

(** [self.put_todo(url)], resolved on the class of [self] *)
Definition put_todo (url : string) (self : Crawler) : Crawler :=
  match cls self with
  | CrawlerClass => Crawler_put_todo url self
  | SpellReaderClass => SpellReader_put_todo url self
  end.

(** The order in which [for url in new] meets the elements of a set is not
    fixed by the language. Each step takes it from its environment as a list
    of preferences: the elements of [X] named in [order] come first, in that
    order, then the others. Every enumeration of [X] arises this way. *)
Definition iterate (order : list string) (X : gset string) : list string :=
  filter (λ x, x ∈ X) (remove_dups order) ++ elements (X ∖ list_to_set order).

(** [Crawler.on_found_links] *)
Definition on_found_links (order : list string) (urls : gset string)
    (self : Crawler) : Crawler :=
  let new := urls ∖ seen self in
  let self := set_seen (seen self ∪ new) self in
  foldl (λ self url, put_todo url self) self (iterate order new).

(** [Crawler.parse_links] *)
Definition parse_links (self : Crawler) (base : string) (text : markup)
  : result (gset string) :=
  UrlParser.feed (filter_url self) base text.

(** What the network hands to one visit. *)
Inductive response : Type :=
  | Failed
      (** [asyncio.sleep], [client.get] or the reading of the response
          raised, before the visit recorded anything *)
  | Page (url : string) (text : markup)
      (** [response.url] and [response.text] *)
  | SpellPages (fields : list (string * string))
      (** for the languages in turn, the name and the description that
          [parse_spell_info] returned for the page fetched; shorter than
          the languages when a fetch or a parse raised *).

(** [Crawler.crawl] *)
Definition Crawler_crawl (r : response) (order : list string) (url : string)
    (self : Crawler) : result Crawler :=
  match r with
  | Page base text =>
      found_links ← parse_links self base text;
      let self := on_found_links order found_links self in
      Ok (set_done (done self ∪ {[url]}) self)
  | _ => Raise FetchError
  end.

(** [SpellReader.crawl] *)
Definition SpellReader_crawl (r : response) (url : string) (self : Crawler)
  : result Crawler :=
  match r with
  | SpellPages fields =>
      if (length fields =? length (langs self))%nat
      then
        let df := assign "url" url [] in
        let df :=
          foldl (λ df '(lang, (name, desc)),
                   assign ("desc_" +:+ lang) desc
                     (assign ("name_" +:+ lang) name df))
                df (zip (langs self) fields) in
        Ok (set_entries (entries self ++ [df]) self)
      else Raise FetchError
  | _ => Raise FetchError
  end.

(** [SpellReader.parse_spell_info], on the calls that [HTMLParser] makes
    for a text it reads to its end *)
Definition SpellReader_parse_spell_info (text : list SpellParser.event)
  : string * string :=
  let parser := SpellParser.feed text SpellParser.init in
  (SpellParser.name parser, SpellParser.description parser).

(** [self.crawl(url)], resolved on the class of [self] *)
Definition crawl (r : response) (order : list string) (url : string)
    (self : Crawler) : result Crawler :=
  match cls self with
  | CrawlerClass => Crawler_crawl r order url self
  | SpellReaderClass => SpellReader_crawl r url self
  end.

(** ** The event loop: [run], [worker], [process_one]

    The tasks of a crawl are [run] and the workers it creates. A task runs
    until it suspends; the code between two suspension points is one step.
    [todo.put] never suspends, so [on_found_links] runs within one step. *)

(** Where a worker is suspended. *)
Inductive place : Type :=
  | Idle
      (** created and not yet run, or inside [todo.get()] *)
  | Visiting (url : string)
      (** inside [crawl(url)], in [asyncio.sleep] or [client.get] *)
  | Exited
      (** returned from [worker] on [CancelledError] *)
  | Crashed
      (** ended by another exception *).

Record task := mkTask {
  at_place : place;
  must_cancel : bool  (** [Task.cancel()] was called on it *) }.

(** Where [run] is. *)
Inductive progress : Type :=
  | NotStarted
  | Joining   (** suspended in [todo.join()] *)
  | Returned.

Record sys := mkSys {
  self : Crawler;
  main : progress;
  workers : list task }.

(** What the event loop does next. *)
Inductive action : Type :=
  | Run (order : list string)
      (** [run()] from its start to [todo.join()] and, when nothing is
          unfinished, on to its end *)
  | Joined
      (** [todo.join()] returns; [run()] to its end *)
  | Dequeue (w : nat)
      (** worker [w]: [todo.get()] returns, [crawl] starts and suspends *)
  | Visit (w : nat) (r : response) (order : list string)
      (** worker [w]: the fetch ends with [r]; the rest of [crawl], the
          handler and [task_done()] *)
  | Cancel (w : nat)
      (** the loop throws [CancelledError] into worker [w] *).

(** [for worker in workers: worker.cancel()] *)
Definition cancel_all (ws : list task) : list task :=
  map (λ t, match at_place t with
            | Exited | Crashed => t
            | _ => mkTask (at_place t) true
            end) ws.

(** [run] from its first line to the first suspension. [todo.join()] returns
    at once when no task is unfinished. *)
Definition run_start (order : list string) (s : sys) : option sys :=
  match main s with
  | NotStarted =>
      let c := on_found_links order (start_urls (self s)) (self s) in
      let ws := replicate (Z.to_nat (num_workers c)) (mkTask Idle false) in
      match Queue.unfinished_tasks (todo c) with
      | O => Some (mkSys c Returned (cancel_all ws))
      | S _ => Some (mkSys c Joining ws)
      end
  | _ => None
  end.

(** [run] from [todo.join()] to its end. *)
Definition run_finish (s : sys) : option sys :=
  match main s, Queue.unfinished_tasks (todo (self s)) with
  | Joining, O => Some (mkSys (self s) Returned (cancel_all (workers s)))
  | _, _ => None
  end.

(** [process_one] up to the first suspension inside [crawl]. *)
Definition process_one_get (w : nat) (s : sys) : option sys :=
  match workers s !! w with
  | Some (mkTask Idle false) =>
      match Queue.get (todo (self s)) with
      | Some (url, q) =>
          Some (mkSys (set_todo q (self s)) (main s)
                      (<[w := mkTask (Visiting url) false]> (workers s)))
      | None => None
      end
  | _ => None
  end.

(** The [finally] clause of [process_one]: after [task_done()] the worker is
    at [next]; a [ValueError] from [task_done()] ends the worker. *)
Definition acknowledge (w : nat) (next : place) (flag : bool) (c : Crawler)
    (s : sys) : sys :=
  match Queue.task_done (todo c) with
  | Ok q => mkSys (set_todo q c) (main s) (<[w := mkTask next flag]> (workers s))
  | Raise _ => mkSys c (main s) (<[w := mkTask Crashed flag]> (workers s))
  end.

(** [process_one] from the end of the fetch on: [crawl] completes or raises
    an [Exception], which the handler drops; then [task_done()], and the
    worker is back at [todo.get()]. *)
Definition process_one_visit (w : nat) (r : response) (order : list string)
    (s : sys) : option sys :=
  match workers s !! w with
  | Some (mkTask (Visiting url) false) =>
      match crawl r order url (self s) with
      | Ok c => Some (acknowledge w Idle false c s)
      | Raise _ => Some (acknowledge w Idle false (self s) s)
      end
  | _ => None
  end.

(** [CancelledError] reaches a worker at its suspension point. In
    [todo.get()] it leaves [process_one] and [worker] returns. Inside [crawl]
    it is no [Exception]: the handler lets it pass, [task_done()] runs, and
    [worker] returns. *)
Definition worker_cancelled (w : nat) (s : sys) : option sys :=
  match workers s !! w with
  | Some (mkTask Idle true) =>
      Some (mkSys (self s) (main s) (<[w := mkTask Exited true]> (workers s)))
  | Some (mkTask (Visiting _) true) =>
      Some (acknowledge w Exited true (self s) s)
  | _ => None
  end.

(** One step; [None] when the action is not enabled. *)
Definition exec (a : action) (s : sys) : option sys :=
  match a with
  | Run order => run_start order s
  | Joined => run_finish s
  | Dequeue w => process_one_get w s
  | Visit w r order => process_one_visit w r order s
  | Cancel w => worker_cancelled w s
  end.

(** A schedule, from the left; an action that is not enabled is skipped. *)
Definition execs (acts : list action) (s : sys) : sys :=
  foldl (λ s a, default s (exec a s)) s acts.


(** A crawler as constructed, before [run()] is called. *)
Inductive construction : Type :=
  | NewCrawler (urls : list string) (filter_url : option callable)
               (workers limit : Z)
  | NewSpellReader (urls langs : list string) (workers : Z).

Definition construct (k : construction) : Crawler :=
  match k with
  | NewCrawler urls f workers limit => Crawler_init urls f workers limit
  | NewSpellReader urls langs workers => SpellReader_init urls langs workers
  end.

Definition boot (k : construction) : sys := mkSys (construct k) NotStarted [].

(** The addresses the workers are visiting. *)
Definition visiting (ws : list task) : list string :=
  omap (λ t, match at_place t with Visiting u => Some u | _ => None end) ws.

(** ** Definitions used by the statements and the proofs *)

(** The file extension as section 4.1 of the specification words it: the
    substring after the last dot in the final path segment, or the empty
    string if there is none. [filter_url] tests [pathlib.suffix] instead;
    [spec_extension] is there to be compared with it. *)
Definition spec_extension (path : string) : string :=
  match Str.rsplit_once "." (List.last (Str.split "/" path) EmptyString) with
  | Some (_, ext) => ext
  | None => EmptyString
  end.

(** The configuration of [main]. *)
Definition main_filterer : UrlFilterer.t :=
  UrlFilterer.mk (Some {["playorna.com"]}) (Some {["http"; "https"]})
                 (Some {[".html"; ".php"; ""]}) (Some {["lang"; "releases/"]}).

(** [clean c s]: the character [c] does not occur in [s]. *)
Abbreviation clean c s := (Str.has_char c s = false).

(** [s.isascii()] *)
Definition ascii_only (s : string) : Prop := Str.all Str.is_ascii s = true.

(** A character that is no letter and none of the delimiters that
    [urlunsplit] writes between the components. *)
Definition plain (c : ascii) : Prop :=
  Str.is_upper c = false ∧ Str.is_lower c = false
  ∧ Ascii.eqb c "/" = false ∧ Ascii.eqb c ":" = false
  ∧ Ascii.eqb c "?" = false ∧ Ascii.eqb c ";" = false.

Record clean_split (c : ascii) (r : urllib.SplitResult) : Prop := {
  cs_scheme : clean c (urllib.s_scheme r);
  cs_netloc : clean c (urllib.s_netloc r);
  cs_path : clean c (urllib.s_path r);
  cs_query : clean c (urllib.s_query r) }.

Record clean_parse (c : ascii) (r : urllib.ParseResult) : Prop := {
  cp_scheme : clean c (urllib.scheme r);
  cp_netloc : clean c (urllib.netloc r);
  cp_path : clean c (urllib.path r);
  cp_params : clean c (urllib.params r);
  cp_query : clean c (urllib.query r) }.

(** The scheme step of [urlsplit]. *)
Definition scheme_step (scheme url : string) : string * string :=
  match Str.split_once ":" url with
  | Some (String c pre as p, rest) =>
      if Str.is_ascii_alpha c && Str.all urllib.scheme_char p
      then (Str.lower p, rest) else (scheme, url)
  | _ => (scheme, url)
  end.

(** The netloc step of [urlsplit]. *)
Definition netloc_step (host_ok : string → bool) (url : string)
  : result (string * string) :=
  if String.prefix "//" url then
    let '(netloc, rest) := urllib.splitnetloc url in
    let lb := Str.has_char "[" netloc in
    let rb := Str.has_char "]" netloc in
    if (lb && negb rb) || (rb && negb lb) then Raise ValueError
    else if lb && rb then
      _ ← urllib.check_bracketed_netloc host_ok netloc; Ok (netloc, rest)
    else Ok (netloc, rest)
  else Ok (EmptyString, url).

(** The fragment and query steps of [urlsplit]. *)
Definition tail_step (url : string) : string * string * string :=
  let '(url, fragment) :=
    match Str.split_once "#" url with
    | Some (u, f) => (u, f)
    | None => (url, EmptyString)
    end in
  let '(url, query) :=
    match Str.split_once "?" url with
    | Some (u, q) => (u, q)
    | None => (url, EmptyString)
    end in
  (url, query, fragment).

(** What [urljoin] hands to [urlunparse], from the parsed base [b] and the
    parsed reference [u]; [None] when it returns the reference as it is. *)
Definition joined (b u : urllib.ParseResult)
  : option (string * string * string * string * string) :=
  if negb (String.eqb (urllib.scheme u) (urllib.scheme b))
     || negb (urllib.mem (urllib.scheme u) urllib.uses_relative)
  then None
  else if urllib.mem (urllib.scheme u) urllib.uses_netloc
          && negb (Str.is_empty (urllib.netloc u))
  then Some (urllib.scheme u, urllib.netloc u, urllib.path u,
             urllib.params u, urllib.query u)
  else
    let netloc :=
      if urllib.mem (urllib.scheme u) urllib.uses_netloc
      then urllib.netloc b else urllib.netloc u in
    if Str.is_empty (urllib.path u) && Str.is_empty (urllib.params u) then
      Some (urllib.scheme u, netloc, urllib.path b, urllib.params b,
            if Str.is_empty (urllib.query u)
            then urllib.query b else urllib.query u)
    else
      let base_parts := Str.split "/" (urllib.path b) in
      let base_parts :=
        if negb (Str.is_empty (List.last base_parts EmptyString))
        then removelast base_parts else base_parts in
      let segments :=
        if String.eqb (Str.take 1 (urllib.path u)) "/"
        then Str.split "/" (urllib.path u)
        else urllib.drop_empty_middle
               (base_parts ++ Str.split "/" (urllib.path u)) in
      let resolved_path := urllib.resolve segments in
      let last_seg := List.last segments EmptyString in
      let resolved_path :=
        if String.eqb last_seg "." || String.eqb last_seg ".."
        then resolved_path ++ [EmptyString] else resolved_path in
      let j := Str.join "/" resolved_path in
      Some (urllib.scheme u, netloc, (if Str.is_empty j then "/" else j),
            urllib.params u, urllib.query u).

(** The rules, on the address [urldefrag] returned. *)
Definition verdict (host_ok nfkc_ok : string → bool) (self : UrlFilterer.t)
    (url : string) : result (option string) :=
  parsed ← urllib.urlparse host_ok nfkc_ok url "";
  if UrlFilterer.rejects (UrlFilterer.allowed_schemes self) (urllib.scheme parsed)
  then Ok None
  else if UrlFilterer.rejects (UrlFilterer.allowed_domains self)
            (urllib.netloc parsed)
  then Ok None
  else if UrlFilterer.rejects (UrlFilterer.allowed_filetypes self)
            (pathlib.suffix (urllib.path parsed))
  then Ok None
  else if UrlFilterer.blocked (UrlFilterer.blocked_phrases self) url
  then Ok None
  else Ok (Some url).

(** Name the pair a [let '(x, y) := e in _] of the goal takes apart. *)
Ltac destruct_let x y E :=
  match goal with
  | |- context [let '(_, _) := ?e in _] => destruct e as [x y] eqn:E
  end.

(** [push_all added c]: [c] after [added] went through [todo.put], the
    counter incremented once for each. *)
Definition push_all (added : list string) (c : Crawler) : Crawler :=
  set_todo (Queue.mk (Queue.items (todo c) ++ added)
                     (Queue.unfinished_tasks (todo c) + length added)
                     (Queue.history (todo c) ++ map Queue.Put added))
           (set_total (total c + Z.of_nat (length added)) c).

(** [admits c c' added urls]: from [c] to [c'] the addresses [urls] were
    recorded as seen and [added] were put on the queue, nothing was taken
    from it. *)
Record admits (c c' : Crawler) (added : list string) (urls : gset string)
  : Prop := {
  adm_items : Queue.items (todo c') = Queue.items (todo c) ++ added;
  adm_puts :
    Queue.puts (Queue.history (todo c'))
    = Queue.puts (Queue.history (todo c)) ++ added;
  adm_gets :
    Queue.gets (Queue.history (todo c')) = Queue.gets (Queue.history (todo c));
  adm_total : total c' = total c + Z.of_nat (length added);
  adm_seen : seen c' = seen c ∪ urls;
  adm_limit : limit c' = limit c;
  adm_cls : cls c' = cls c;
  adm_start : start_urls c' = start_urls c;
  adm_workers : num_workers c' = num_workers c;
  adm_nodup : NoDup added;
  adm_new : ∀ x, x ∈ added → x ∈ urls ∧ x ∉ seen c;
  adm_marker :
    cls c = CrawlerClass → Forall (λ u, Str.contains "?p=" u = true) added;
  adm_cap : added ≠ [] → total c + Z.of_nat (length added) ≤ limit c }.

Definition vis (t : task) : list string :=
  match at_place t with Visiting u => [u] | _ => [] end.

Record invariant (s : sys) : Prop := {
  inv_fifo :
    Queue.gets (Queue.history (todo (self s))) ++ Queue.items (todo (self s))
    = Queue.puts (Queue.history (todo (self s)));
  inv_nodup : NoDup (Queue.puts (Queue.history (todo (self s))));
  inv_seen :
    ∀ x, x ∈ Queue.puts (Queue.history (todo (self s))) → x ∈ seen (self s);
  inv_total :
    total (self s)
    = Z.of_nat (length (Queue.puts (Queue.history (todo (self s)))));
  inv_cap : total (self s) ≤ Z.max 0 (limit (self s));
  inv_unfinished :
    Queue.unfinished_tasks (todo (self s))
    = (length (Queue.items (todo (self s))) + length (visiting (workers s)))%nat;
  inv_visiting : NoDup (visiting (workers s));
  inv_visited :
    ∀ u, u ∈ visiting (workers s) →
         u ∈ Queue.gets (Queue.history (todo (self s))) ∧ u ∉ done (self s);
  inv_done :
    ∀ u, u ∈ done (self s) → u ∈ Queue.gets (Queue.history (todo (self s)));
  inv_alive : Forall (λ t, at_place t ≠ Crashed) (workers s);
  inv_main :
    match main s with
    | NotStarted =>
        workers s = [] ∧ todo (self s) = Queue.new ∧ seen (self s) = ∅
        ∧ done (self s) = ∅ ∧ total (self s) = 0
    | Joining =>
        Forall (λ t, must_cancel t = false ∧ at_place t ≠ Exited) (workers s)
    | Returned =>
        Queue.unfinished_tasks (todo (self s)) = O
        ∧ Forall (λ t, must_cancel t = true) (workers s)
    end }.

Record step_facts (a : action) (s s' : sys) (added : list string)
    (urls : gset string) : Prop := {
  sf_puts :
    Queue.puts (Queue.history (todo (self s')))
    = Queue.puts (Queue.history (todo (self s))) ++ added;
  sf_gets :
    ∀ x, x ∈ Queue.gets (Queue.history (todo (self s))) →
         x ∈ Queue.gets (Queue.history (todo (self s')));
  sf_seen : seen (self s') = seen (self s) ∪ urls;
  sf_new : ∀ x, x ∈ added → x ∈ urls ∧ x ∉ seen (self s);
  sf_marker :
    cls (self s) = CrawlerClass →
    Forall (λ u, Str.contains "?p=" u = true) added;
  sf_cls : cls (self s') = cls (self s);
  sf_limit : limit (self s') = limit (self s);
  sf_start : start_urls (self s') = start_urls (self s);
  sf_workers : num_workers (self s') = num_workers (self s);
  sf_started : main s' ≠ NotStarted;
  sf_seed : main s = NotStarted → urls = start_urls (self s);
  sf_visiting :
    ∀ v, v ∈ visiting (workers s') →
         v ∈ visiting (workers s) ∨ v ∈ Queue.items (todo (self s));
  sf_done :
    done (self s') = done (self s)
    ∨ ∃ w u r order c',
        a = Visit w r order
        ∧ workers s !! w = Some (mkTask (Visiting u) false)
        ∧ crawl r order u (self s) = Ok c'
        ∧ done (self s') = done (self s) ∪ {[u]} }.

(** A pool whose workers all have a cancellation requested, and are either
    suspended in [todo.get()] or have left their loop. *)
Definition cancelling (ws : list task) : Prop :=
  Forall (λ t, must_cancel t = true
               ∧ (at_place t = Idle ∨ at_place t = Exited)) ws.

(** ** [main], [get_spells], [save_spell_urls] *)

(** [a <= b] is decided by [String.leb]. *)
Global Instance str_le_dec : RelDecision Str.le := λ a b,
  decide (String.leb a b = true).

(** [sorted(l)], [l.sort()] *)
Definition sorted (l : list string) : list string := merge_sort Str.le l.

(** [main]: the crawler it builds. *)
Definition main_crawler (bracketed_host_ok nfkc_ok : string → bool)
  : construction :=
  NewCrawler ["https://playorna.com/codex/spells/"]
             (Some (UrlFilterer_bound bracketed_host_ok nfkc_ok main_filterer))
             5 250.

(** [main] after the crawl: [seen = sorted(crawler.seen)], of which
    [spell_urls] keeps the addresses with ['spells'] and without ['lang'],
    and is sorted once more. [order] is the order in which the set is
    iterated. *)
Definition main_spell_urls (order : list string) (seen : gset string)
  : list string :=
  let seen := sorted (iterate order seen) in
  let spell_urls :=
    filter (λ s, Str.contains "spells" s = true ∧ Str.contains "lang" s = false)
           seen in
  sorted spell_urls.

(** [get_spells]: the reader it builds. *)
Definition get_spells (spell_urls langs : list string) : construction :=
  NewSpellReader spell_urls langs 5.

(** [save_spell_urls]: the text written to [spell_urls.txt], which mode
    ['w'] empties first (as a [str]: how the platform encodes a line end is
    left aside). *)
Definition save_spell_urls (spells : list string) : string :=
  foldl (λ fp url, fp +:+ url +:+ Str.newline) EmptyString spells.

(** ** Definitions used by the further properties *)

(** The values of the [href] attributes of the [a] tags, in the order of the
    text. *)
Definition hrefs (tags : list starttag) : list (option string) :=
  tags ≫= λ '(tag, attrs),
    if String.eqb tag "a"
    then (filter (λ p, p.1 = "href") attrs).*2
    else [].

(** The handler's work on one [href] value. *)
Definition collect (filter_url : option callable) (base : string)
    (acc : result (gset string)) (url : option string) : result (gset string) :=
  found_links ← acc;
  match filter_url with
  | None => Raise TypeError
  | Some f =>
      r ← f base url;
      match r with
      | Some url => Ok (found_links ∪ {[url]})
      | None => Ok found_links
      end
  end.

(** What [filter_url] returns passed its rules. *)
Definition passes (host_ok nfkc_ok : string → bool) (self : UrlFilterer.t)
    (x : string) : Prop :=
  Str.has_char "#" x = false
  ∧ ∃ parsed,
      urllib.urlparse host_ok nfkc_ok x "" = Ok parsed
      ∧ UrlFilterer.rejects (UrlFilterer.allowed_schemes self)
          (urllib.scheme parsed) = false
      ∧ UrlFilterer.rejects (UrlFilterer.allowed_domains self)
          (urllib.netloc parsed) = false
      ∧ UrlFilterer.rejects (UrlFilterer.allowed_filetypes self)
          (pathlib.suffix (urllib.path parsed)) = false
      ∧ UrlFilterer.blocked (UrlFilterer.blocked_phrases self) x = false.

(** The addresses that [put_todo] lets through, the cap apart. *)
Definition eligible (c : class) (l : list string) : list string :=
  match c with
  | CrawlerClass => filter (λ u, Str.contains "?p=" u = true) l
  | SpellReaderClass => l
  end.




(** The start tag carries the attribute [class] with exactly the value [c]. *)
Definition has_class (c : string) (e : SpellParser.event) : bool :=
  match e with
  | SpellParser.StartTag _ attrs => bool_decide (("class", Some c) ∈ attrs)
  | _ => false
  end.

(** The calls that [SpellParser] does not ignore. *)
Definition heeded (e : SpellParser.event) : bool :=
  match e with
  | SpellParser.StartTag tag _ | SpellParser.EndTag tag => SpellParser.tracked tag
  | SpellParser.Data _ => true
  end.

(** The call reports the end of a [div] or of an [h1]. *)
Definition closes (e : SpellParser.event) : bool :=
  match e with
  | SpellParser.EndTag tag => SpellParser.tracked tag
  | _ => false
  end.

(** The call reports text. *)
Definition is_data (e : SpellParser.event) : bool :=
  match e with SpellParser.Data _ => true | _ => false end.

(** [s] has no white space at either end. *)
Definition stripped (s : string) : Prop := Str.strip s = s.

(** An address without square brackets. *)
Definition bracket_free (s : string) : Prop :=
  Str.has_char "[" s = false ∧ Str.has_char "]" s = false.

(** An ASCII address without square brackets. *)
Definition tame (s : string) : Prop := ascii_only s ∧ bracket_free s.


(** The loop of [SpellReader.crawl] on a frame, over the languages paired
    with what was read for each. *)
Definition fill (df : entry) (l : list (string * (string * string))) : entry :=
  foldl (λ df '(lang, (name, desc)),
           assign ("desc_" +:+ lang) desc (assign ("name_" +:+ lang) name df))
        df l.

(** The frame that [SpellReader.crawl] builds for an address. *)
Definition frame (url : string) (l : list (string * (string * string)))
  : entry :=
  fill (assign "url" url []) l.



(** ** Strings: occurrences of a character *)

Lemma app_nil_r_s (s : string) : s +:+ "" = s.
Proof. induction s as [|c s IH]; simpl; [done|by rewrite IH]. Qed.

Lemma app_assoc_s (a b c : string) : (a +:+ b) +:+ c = a +:+ b +:+ c.
Proof. induction a as [|d a IH]; simpl; [done|by rewrite IH]. Qed.

Lemma has_char_app c a b :
  Str.has_char c (a +:+ b) = Str.has_char c a || Str.has_char c b.
Proof. induction a as [|d a IH]; simpl; [done|]. rewrite IH. by destruct (Ascii.eqb c d). Qed.

Lemma clean_app c a b : clean c (a +:+ b) ↔ clean c a ∧ clean c b.
Proof. rewrite has_char_app. apply orb_false_iff. Qed.

Lemma clean_cons c d s : clean c (String d s) ↔ Ascii.eqb c d = false ∧ clean c s.
Proof. simpl. apply orb_false_iff. Qed.

Lemma split_once_Some c s a b :
  Str.split_once c s = Some (a, b) → s = a +:+ String c b ∧ clean c a.
Proof.
  revert a. induction s as [|d s IH]; intros a; simpl; [done|].
  destruct (Ascii.eqb c d) eqn:E.
  - apply Ascii.eqb_eq in E as ->. by intros [= <- <-].
  - destruct (Str.split_once c s) as [[a' b']|]; [|done].
    intros [= <- <-]. destruct (IH a' eq_refl) as [-> ?]. simpl. by rewrite E.
Qed.

Lemma split_once_None c s : Str.split_once c s = None ↔ clean c s.
Proof.
  induction s as [|d s IH]; simpl; [done|].
  destruct (Ascii.eqb c d); simpl; [done|].
  destruct (Str.split_once c s) as [[a b]|]; [|tauto].
  split; [done|]. intros H. apply IH in H. done.
Qed.

Lemma split_once_app c a b :
  clean c a → Str.split_once c (a +:+ String c b) = Some (a, b).
Proof.
  induction a as [|d a IH]; simpl.
  - by rewrite Ascii.eqb_refl.
  - intros [E H]%orb_false_iff. rewrite E, (IH H). done.
Qed.

Lemma split_once_app_l c s a b t :
  Str.split_once c s = Some (a, b) → Str.split_once c (s +:+ t) = Some (a, b +:+ t).
Proof.
  intros [-> H]%split_once_Some. rewrite app_assoc_s. simpl.
  by apply split_once_app.
Qed.

Lemma rsplit_once_Some c s a b :
  Str.rsplit_once c s = Some (a, b) → s = a +:+ String c b ∧ clean c b.
Proof.
  revert a. induction s as [|d s IH]; intros a; simpl; [done|].
  destruct (Str.rsplit_once c s) as [[a' b']|] eqn:E.
  - intros [= <- <-]. destruct (IH a' eq_refl) as [-> ?]. done.
  - destruct (Ascii.eqb c d) eqn:E'; [|done].
    apply Ascii.eqb_eq in E' as ->. intros [= <- <-]. split; [done|].
    clear IH. revert E. induction s as [|e s IH]; simpl; [done|].
    destruct (Str.rsplit_once d s) as [[]|]; [done|].
    destruct (Ascii.eqb d e); [done|]. simpl. auto.
Qed.

Lemma lstrip_suffix f s : ∃ pre, s = pre +:+ Str.lstrip f s.
Proof.
  induction s as [|c s [pre IH]]; simpl; [by exists ""|].
  destruct (f c); [|by exists ""]. exists (String c pre). simpl. by f_equal.
Qed.

Lemma lstrip_app f a d b :
  f d = false → Str.lstrip f (a +:+ String d b) = Str.lstrip f a +:+ String d b.
Proof.
  intros Hd. induction a as [|c a IH]; simpl; [by rewrite Hd|].
  destruct (f c); done.
Qed.

Lemma keep_app f a b : Str.keep f (a +:+ b) = Str.keep f a +:+ Str.keep f b.
Proof. induction a as [|c a IH]; simpl; [done|]. destruct (f c); simpl; by rewrite IH. Qed.

Lemma clean_keep c f s : clean c s → clean c (Str.keep f s).
Proof.
  induction s as [|d s IH]; simpl; [done|].
  intros [E H]%orb_false_iff. destruct (f d); simpl; rewrite ?E; auto.
Qed.

Lemma clean_lstrip c f s : clean c s → clean c (Str.lstrip f s).
Proof.
  intros H. destruct (lstrip_suffix f s) as [pre E]. rewrite E in H.
  by apply clean_app in H as [_ ?].
Qed.

Lemma clean_rstrip c f s : clean c s → clean c (Str.rstrip f s).
Proof.
  induction s as [|d s IH]; simpl; [done|].
  intros [E H]%orb_false_iff.
  destruct (Str.is_empty (Str.rstrip f s) && f d); simpl; rewrite ?E; auto.
Qed.

Lemma span_app_eq f s : s = (Str.span f s).1 +:+ (Str.span f s).2.
Proof.
  induction s as [|c s IH]; simpl; [done|].
  destruct (f c); [|done]. destruct (Str.span f s). simpl in *. by f_equal.
Qed.

Lemma span_all f s : Str.all f (Str.span f s).1 = true.
Proof.
  induction s as [|c s IH]; simpl; [done|].
  destruct (f c) eqn:E; [|done]. destruct (Str.span f s). simpl in *. by rewrite E.
Qed.

Lemma span_app f a d b :
  f d = false →
  Str.span f (a +:+ String d b)
  = ((Str.span f a).1, (Str.span f a).2 +:+ String d b).
Proof.
  intros Hd. induction a as [|c a IH]; simpl; [by rewrite Hd|].
  destruct (f c); [|done]. rewrite IH. by destruct (Str.span f a).
Qed.

Lemma all_clean f c s : f c = false → Str.all f s = true → clean c s.
Proof.
  intros Hc. induction s as [|d s IH]; simpl; [done|].
  intros [Hd Hs]%andb_true_iff. rewrite (IH Hs), orb_false_r.
  destruct (Ascii.eqb c d) eqn:E; [|done]. apply Ascii.eqb_eq in E. congruence.
Qed.

(** A string is ASCII when no other character occurs in it. *)
Lemma ascii_only_clean s :
  ascii_only s ↔ ∀ c, Str.is_ascii c = false → clean c s.
Proof.
  unfold ascii_only. induction s as [|d s IH]; simpl; [done|].
  rewrite andb_true_iff, IH. split.
  - intros [Hd Hs] c Hc. rewrite (Hs c Hc), orb_false_r.
    destruct (Ascii.eqb_spec c d) as [->|]; congruence.
  - intros H. split.
    + destruct (Str.is_ascii d) eqn:E; [done|].
      specialize (H d E). by rewrite Ascii.eqb_refl in H.
    + intros c Hc. pose proof (H c Hc) as H'.
      by apply orb_false_elim in H' as [_ ?].
Qed.

Lemma nonascii_plain c : Str.is_ascii c = false → plain c.
Proof.
  destruct c as [[] [] [] [] [] [] [] []]; vm_compute; intros H;
    first [discriminate H | by repeat split].
Qed.

Lemma nonascii_not_hash c : Str.is_ascii c = false → Ascii.eqb c "#" = false.
Proof.
  destruct c as [[] [] [] [] [] [] [] []]; vm_compute; intros H;
    first [discriminate H | done].
Qed.

Lemma clean_take c n s : clean c s → clean c (Str.take n s).
Proof.
  revert n. induction s as [|d s IH]; intros [|n]; simpl; try done.
  intros [E H]%orb_false_iff. rewrite E. by apply IH.
Qed.

Lemma clean_drop c n s : clean c s → clean c (Str.drop n s).
Proof.
  revert n. induction s as [|d s IH]; intros [|n]; simpl; try done.
  intros [E H]%orb_false_iff. by apply IH.
Qed.

Lemma prefix_drop p s : String.prefix p s = true → s = p +:+ Str.drop (String.length p) s.
Proof.
  revert s. induction p as [|c p IH]; intros [|d s]; simpl; try done.
  destruct (ascii_dec c d) as [->|]; [|done].
  intros H. f_equal. by apply IH.
Qed.

(** A character that is no letter survives [lower] as it is. *)
Lemma clean_lower c s :
  Str.is_upper c = false → Str.is_lower c = false →
  clean c s → clean c (Str.lower s).
Proof.
  intros Hu Hl. induction s as [|d s IH]; simpl; [done|].
  intros [E H]%orb_false_iff. rewrite (IH H), orb_false_r.
  unfold Str.lower_char. destruct (Str.is_upper d) eqn:Ed; [|done].
  destruct (Ascii.eqb c (ascii_of_nat (nat_of_ascii d + 32))) eqn:E'; [|done].
  apply Ascii.eqb_eq in E'. subst c.
  exfalso. revert Ed Hl. unfold Str.is_upper, Str.is_lower, Str.between.
  rewrite !andb_true_iff, andb_false_iff, !Nat.leb_le, !Nat.leb_gt.
  intros [? ?]. rewrite nat_ascii_embedding by lia. lia.
Qed.

(** ** Lists of segments *)

Lemma clean_segments c d s : clean c s → Forall (λ x, clean c x) (Str.split d s).
Proof.
  induction s as [|e s IH]; simpl; [by repeat constructor|].
  intros [E H]%orb_false_iff. specialize (IH H).
  destruct (Ascii.eqb d e).
  - by constructor.
  - destruct (Str.split d s) as [|x r]; [by repeat constructor; simpl; rewrite E|].
    apply Forall_cons in IH as [? ?]. constructor; [|done]. simpl. by rewrite E.
Qed.

Lemma clean_join c sep l :
  clean c sep → Forall (λ x, clean c x) l → clean c (Str.join sep l).
Proof.
  intros Hs. induction l as [|x [|y l] IH]; intros H; simpl; [done| |].
  - by apply Forall_inv in H.
  - apply Forall_cons in H as [Hx H].
    apply clean_app; split; [done|]. apply clean_app; split; [done|]. by apply IH.
Qed.

Lemma Forall_removelast {A} (P : A → Prop) l : Forall P l → Forall P (removelast l).
Proof.
  induction l as [|x [|y l] IH]; intros H; simpl; [done|constructor|].
  apply Forall_cons in H as [? ?]. constructor; auto.
Qed.

Lemma Forall_last {A} (P : A → Prop) l d : Forall P l → P d → P (List.last l d).
Proof.
  induction l as [|x [|y l] IH]; intros H Hd; simpl; [done| |].
  - by apply Forall_inv in H.
  - apply Forall_cons in H as [? ?]. by apply IH.
Qed.

Lemma clean_drop_empty_middle c l :
  Forall (λ x, clean c x) l → Forall (λ x, clean c x) (urllib.drop_empty_middle l).
Proof.
  intros H. unfold urllib.drop_empty_middle.
  destruct l as [|x [|y r]]; [done|done|].
  apply Forall_cons in H as [Hx H]. constructor; [done|].
  apply Forall_app. split.
  - apply Forall_forall. intros z [_ Hz]%list_elem_of_filter. revert z Hz.
    apply Forall_forall. by apply Forall_removelast.
  - constructor; [|done]. by apply Forall_last.
Qed.

Lemma clean_resolve c l :
  Forall (λ x, clean c x) l → Forall (λ x, clean c x) (urllib.resolve l).
Proof.
  unfold urllib.resolve.
  assert (∀ acc, Forall (λ x, clean c x) acc → Forall (λ x, clean c x) l →
    Forall (λ x, clean c x)
      (foldl (λ resolved_path seg,
                if String.eqb seg ".." then removelast resolved_path
                else if String.eqb seg "." then resolved_path
                else resolved_path ++ [seg]) acc l)) as Hacc.
  { induction l as [|x l IH]; intros acc Hacc H; simpl; [done|].
    apply Forall_cons in H as [Hx H]. apply IH; [|done].
    destruct (String.eqb x ".."); [by apply Forall_removelast|].
    destruct (String.eqb x "."); [done|]. apply Forall_app. by split; [|constructor]. }
  by apply Hacc.
Qed.

(** ** [urllib]: what parsing and joining do to a character *)

Lemma plain_hash : plain "#".
Proof. by repeat split. Qed.
Lemma plain_lbracket : plain "[".
Proof. by repeat split. Qed.
Lemma plain_rbracket : plain "]".
Proof. by repeat split. Qed.

Section Parsing.

Variable host_ok nfkc_ok : string → bool.

Lemma urlsplit_steps url0 scheme0 :
  urllib.urlsplit host_ok nfkc_ok url0 scheme0
  = let url := Str.keep urllib.safe_byte (Str.lstrip urllib.c0_or_space url0) in
    let scheme :=
      Str.keep urllib.safe_byte
        (Str.rstrip urllib.c0_or_space (Str.lstrip urllib.c0_or_space scheme0)) in
    let '(scheme, url) := scheme_step scheme url in
    '(netloc, url) ← netloc_step host_ok url;
    let '(path, query, fragment) := tail_step url in
    _ ← urllib.checknetloc nfkc_ok netloc;
    Ok (urllib.mkSplit scheme netloc path query fragment).
Proof.
  unfold urllib.urlsplit, scheme_step, netloc_step, tail_step. cbv zeta.
  destruct (Str.split_once ":" _) as [[[|c pre] rest]|];
    try destruct (_ && _);
    (destruct (String.prefix "//" _); [|simpl];
     [destruct (urllib.splitnetloc _) as [netloc rest'];
      destruct (_ || _); [done|];
      destruct (_ && _);
      [destruct (urllib.check_bracketed_netloc host_ok netloc); [|done]|]; simpl|];
     destruct (Str.split_once "#" _) as [[]|];
     destruct (Str.split_once "?" _) as [[]|]; done).
Qed.

Lemma scheme_step_clean c scheme url s u :
  Str.is_upper c = false → Str.is_lower c = false →
  clean c scheme → clean c url →
  scheme_step scheme url = (s, u) → clean c s ∧ clean c u.
Proof.
  intros Hu Hl Hs Hc. unfold scheme_step.
  destruct (Str.split_once ":" url) as [[p rest]|] eqn:E;
    [|intros [= <- <-]; by split].
  apply split_once_Some in E as [-> _].
  pose proof Hc as Hc0.
  apply clean_app in Hc as [Hp Hr]. apply clean_cons in Hr as [_ Hr].
  destruct p as [|d pre]; [intros [= <- <-]; by split|].
  destruct (_ && _); intros [= <- <-].
  - split; [by apply (clean_lower c (String d pre))|done].
  - by split.
Qed.

Lemma scheme_step_url c scheme url s u :
  clean c url → scheme_step scheme url = (s, u) → clean c u.
Proof.
  intros Hc. unfold scheme_step.
  destruct (Str.split_once ":" url) as [[p rest]|] eqn:E; [|by intros [= <- <-]].
  apply split_once_Some in E as [-> _]. pose proof Hc as Hc0.
  apply clean_app in Hc as [_ Hr]. apply clean_cons in Hr as [_ Hr].
  destruct p as [|d pre]; [by intros [= <- <-]|].
  destruct (_ && _); by intros [= <- <-].
Qed.

Lemma scheme_step_hash scheme url s u :
  clean "#" scheme → scheme_step scheme url = (s, u) → clean "#" s.
Proof.
  intros Hs. unfold scheme_step.
  destruct (Str.split_once ":" url) as [[[|d pre] rest]|]; try by intros [= <- <-].
  destruct (Str.is_ascii_alpha d && Str.all urllib.scheme_char (String d pre)) eqn:E;
    intros [= <- <-]; [|done].
  apply andb_true_iff in E as [_ E].
  apply (clean_lower "#" (String d pre)); [done|done|].
  eapply all_clean; [|done]. done.
Qed.

Lemma splitnetloc_eq url :
  String.prefix "//" url = true →
  url = String "/" (String "/"
          ((urllib.splitnetloc url).1 +:+ (urllib.splitnetloc url).2))
  ∧ clean "#" (urllib.splitnetloc url).1.
Proof.
  intros H. unfold urllib.splitnetloc. split.
  - rewrite <- span_app_eq. by apply prefix_drop in H.
  - eapply all_clean; [|apply span_all]. done.
Qed.

Lemma netloc_step_clean c url n u :
  clean c url → netloc_step host_ok url = Ok (n, u) → clean c n ∧ clean c u.
Proof.
  intros Hc. unfold netloc_step.
  destruct (String.prefix "//" url) eqn:E; [|by intros [= <- <-]].
  apply splitnetloc_eq in E as [E _]. rewrite E in Hc.
  destruct (urllib.splitnetloc url) as [netloc rest].
  apply clean_cons in Hc as [_ Hc]. apply clean_cons in Hc as [_ Hc].
  apply clean_app in Hc. simpl in Hc.
  destruct (_ || _); [done|]. destruct (_ && _).
  - destruct (urllib.check_bracketed_netloc host_ok netloc); simpl; [|done].
    by intros [= <- <-].
  - by intros [= <- <-].
Qed.

Lemma netloc_step_hash url n u : netloc_step host_ok url = Ok (n, u) → clean "#" n.
Proof.
  unfold netloc_step.
  destruct (String.prefix "//" url) eqn:E; [|by intros [= <- <-]].
  apply splitnetloc_eq in E as [_ E].
  destruct (urllib.splitnetloc url) as [netloc rest]. simpl in *.
  destruct (_ || _); [done|]. destruct (_ && _).
  - destruct (urllib.check_bracketed_netloc host_ok netloc); simpl; [|done].
    by intros [= <- <-].
  - by intros [= <- <-].
Qed.

Lemma netloc_step_Ok url :
  clean "[" url → clean "]" url → ∃ r, netloc_step host_ok url = Ok r.
Proof.
  intros Hl Hr. unfold netloc_step.
  destruct (String.prefix "//" url) eqn:E; [|by eexists].
  apply splitnetloc_eq in E as [E _]. rewrite E in Hl, Hr.
  destruct (urllib.splitnetloc url) as [netloc rest].
  apply clean_cons in Hl as [_ Hl], Hr as [_ Hr].
  apply clean_cons in Hl as [_ Hl], Hr as [_ Hr].
  apply clean_app in Hl as [Hl _], Hr as [Hr _]. simpl in Hl, Hr.
  rewrite Hl, Hr. simpl. by eexists.
Qed.

Lemma tail_step_clean c url p q f :
  clean c url → tail_step url = (p, q, f) → clean c p ∧ clean c q ∧ clean c f.
Proof.
  intros Hc. unfold tail_step.
  assert (∀ d s a b,
    clean c s →
    match Str.split_once d s with Some (u, f) => (u, f) | None => (s, "") end
    = (a, b) → clean c a ∧ clean c b) as Hsp.
  { intros d s a b Hs. destruct (Str.split_once d s) as [[x y]|] eqn:E.
    - apply split_once_Some in E as [-> _]. intros [= <- <-].
      apply clean_app in Hs as [? Hs]. by apply clean_cons in Hs as [_ ?].
    - by intros [= <- <-]. }
  destruct (match Str.split_once "#" url with
            | Some (u, f) => (u, f) | None => (url, "") end) as [u fr] eqn:E1.
  apply (Hsp _ _ _ _ Hc) in E1 as [Hu Hf].
  destruct (match Str.split_once "?" u with
            | Some (u, f) => (u, f) | None => (u, "") end) as [u' qu] eqn:E2.
  apply (Hsp _ _ _ _ Hu) in E2 as [? ?]. by intros [= <- <- <-].
Qed.

Lemma tail_step_hash url p q f : tail_step url = (p, q, f) → clean "#" p ∧ clean "#" q.
Proof.
  unfold tail_step.
  destruct (Str.split_once "#" url) as [[u fr]|] eqn:E.
  - apply split_once_Some in E as [_ Hu].
    destruct (Str.split_once "?" u) as [[u' qu]|] eqn:E2.
    + apply split_once_Some in E2 as [-> _]. intros [= <- <- <-].
      apply clean_app in Hu as [? Hu]. by apply clean_cons in Hu as [_ ?].
    + by intros [= <- <- <-].
  - apply split_once_None in E.
    destruct (Str.split_once "?" url) as [[u' qu]|] eqn:E2.
    + apply split_once_Some in E2 as [-> _]. intros [= <- <- <-].
      apply clean_app in E as [? Hu]. by apply clean_cons in Hu as [_ ?].
    + by intros [= <- <- <-].
Qed.

(** A character absent from the address and the default scheme is absent
    from every component. *)
Lemma urlsplit_clean c url scheme r :
  Str.is_upper c = false → Str.is_lower c = false →
  clean c url → clean c scheme →
  urllib.urlsplit host_ok nfkc_ok url scheme = Ok r →
  clean_split c r ∧ clean c (urllib.s_fragment r).
Proof.
  intros Hu Hl Hc Hs. rewrite urlsplit_steps. cbv zeta.
  destruct (scheme_step _ _) as [s u] eqn:E1.
  apply (scheme_step_clean c) in E1 as [Hs1 Hu1];
    auto using clean_keep, clean_lstrip, clean_rstrip.
  destruct (netloc_step host_ok u) as [[n u2]|] eqn:E2; simpl; [|done].
  apply (netloc_step_clean c) in E2 as [Hn Hu2]; [|done].
  destruct (tail_step u2) as [[p q] f] eqn:E3.
  apply (tail_step_clean c) in E3 as (? & ? & ?); [|done].
  destruct (urllib.checknetloc nfkc_ok n); simpl; [|done].
  intros [= <-]. by split; [split|].
Qed.

(** No component but the fragment holds a ['#']. *)
Lemma urlsplit_hash url scheme r :
  clean "#" scheme → urllib.urlsplit host_ok nfkc_ok url scheme = Ok r → clean_split "#" r.
Proof.
  intros Hs. rewrite urlsplit_steps. cbv zeta.
  destruct (scheme_step _ _) as [s u] eqn:E1.
  apply scheme_step_hash in E1; [|by apply clean_keep, clean_rstrip, clean_lstrip].
  destruct (netloc_step host_ok u) as [[n u2]|] eqn:E2; simpl; [|done].
  apply netloc_step_hash in E2.
  destruct (tail_step u2) as [[p q] f] eqn:E3.
  apply tail_step_hash in E3 as [? ?].
  destruct (urllib.checknetloc nfkc_ok n); simpl; [|done].
  intros [= <-]. by split.
Qed.

(** On an ASCII address without square brackets nothing raises. *)
Lemma urlsplit_Ok url scheme :
  clean "[" url → clean "]" url → ascii_only url →
  ∃ r, urllib.urlsplit host_ok nfkc_ok url scheme = Ok r.
Proof.
  intros Hl Hr Ha. rewrite urlsplit_steps. cbv zeta.
  destruct (scheme_step _ _) as [s u] eqn:E1.
  assert (∀ c, clean c url → clean c u) as Hu.
  { intros c Hc. eapply scheme_step_url; try exact E1.
    by apply clean_keep, clean_lstrip. }
  destruct (netloc_step_Ok u (Hu _ Hl) (Hu _ Hr)) as [[n u2] E2]. rewrite E2. simpl.
  destruct (tail_step u2) as [[p q] f].
  assert (ascii_only n) as Hn.
  { apply ascii_only_clean. intros c Hc.
    apply (netloc_step_clean c) in E2 as [? _]; [done|].
    apply Hu. by apply (proj1 (ascii_only_clean url)). }
  unfold urllib.checknetloc. unfold ascii_only in Hn. rewrite Hn, orb_true_r.
  by eexists.
Qed.

End Parsing.

Section Joining.

Variable host_ok nfkc_ok : string → bool.

Lemma splitparams_clean c url a b :
  clean c url → urllib.splitparams url = (a, b) → clean c a ∧ clean c b.
Proof.
  intros Hc. unfold urllib.splitparams.
  assert (∀ s x y, clean c s → Str.split_once ";" s = Some (x, y) →
                   clean c x ∧ clean c y) as Hsp.
  { intros s x y Hs [-> _]%split_once_Some.
    apply clean_app in Hs as [? Hs]. by apply clean_cons in Hs as [_ ?]. }
  destruct (Str.rsplit_once "/" url) as [[dir last]|] eqn:E.
  - apply rsplit_once_Some in E as [E _].
    destruct (Str.split_once ";" last) as [[x y]|] eqn:E2;
      [|intros [= <- <-]; by split].
    intros [= <- <-]. rewrite E in Hc.
    apply clean_app in Hc as [Hd Hc]. apply clean_cons in Hc as [Hs Hc].
    destruct (Hsp _ _ _ Hc E2). split; [|done].
    apply clean_app. split; [done|]. apply clean_cons. by split.
  - destruct (Str.split_once ";" url) as [[x y]|] eqn:E2;
      [|intros [= <- <-]; by split].
    intros [= <- <-]. by eapply Hsp.
Qed.

Lemma urlparse_split url scheme :
  urllib.urlparse host_ok nfkc_ok url scheme
  = r ← urllib.urlsplit host_ok nfkc_ok url scheme;
    let '(p, a) :=
      if urllib.mem (urllib.s_scheme r) urllib.uses_params
         && Str.has_char ";" (urllib.s_path r)
      then urllib.splitparams (urllib.s_path r)
      else (urllib.s_path r, EmptyString) in
    Ok (urllib.mkParse (urllib.s_scheme r) (urllib.s_netloc r) p a
                       (urllib.s_query r) (urllib.s_fragment r)).
Proof. reflexivity. Qed.

Lemma urlparse_clean c url scheme r :
  Str.is_upper c = false → Str.is_lower c = false →
  clean c url → clean c scheme →
  urllib.urlparse host_ok nfkc_ok url scheme = Ok r →
  clean_parse c r ∧ clean c (urllib.fragment r).
Proof.
  intros Hu Hl Hc Hs. rewrite urlparse_split.
  destruct (urllib.urlsplit host_ok nfkc_ok url scheme) as [sr|] eqn:E; simpl; [|done].
  apply (urlsplit_clean host_ok nfkc_ok c) in E as [[Hsc Hne Hpa Hqu] Hfr]; auto.
  destruct_let p a E2. intros [= <-]. simpl.
  assert (clean c p ∧ clean c a) as [? ?].
  { destruct (_ && _); [exact (splitparams_clean c _ _ _ Hpa E2)|].
    injection E2 as <- <-. by split. }
  by split; [split|].
Qed.

Lemma urlparse_hash url scheme r :
  clean "#" scheme → urllib.urlparse host_ok nfkc_ok url scheme = Ok r → clean_parse "#" r.
Proof.
  intros Hs. rewrite urlparse_split.
  destruct (urllib.urlsplit host_ok nfkc_ok url scheme) as [sr|] eqn:E; simpl; [|done].
  apply (urlsplit_hash host_ok nfkc_ok) in E as [Hsc Hne Hpa Hqu]; auto.
  destruct_let p a E2. intros [= <-]. simpl.
  assert (clean "#" p ∧ clean "#" a) as [? ?].
  { destruct (_ && _); [exact (splitparams_clean "#" _ _ _ Hpa E2)|].
    injection E2 as <- <-. by split. }
  by split.
Qed.

Lemma urlparse_Ok url scheme :
  clean "[" url → clean "]" url → ascii_only url →
  ∃ r, urllib.urlparse host_ok nfkc_ok url scheme = Ok r.
Proof.
  intros Hl Hr Ha. rewrite urlparse_split.
  destruct (urlsplit_Ok host_ok nfkc_ok url scheme Hl Hr Ha) as [sr ->]. simpl.
  destruct_let p a E2. by eexists.
Qed.

(** [urlunparse] writes its components, the delimiters and nothing else. *)
Lemma clean_urlunparse c s n p a q f :
  plain c →
  clean c s → clean c n → clean c p → clean c a → clean c q →
  f = EmptyString ∨ (Ascii.eqb c "#" = false ∧ clean c f) →
  clean c (urllib.urlunparse s n p a q f).
Proof.
  intros (_ & _ & Hsl & Hco & Hqu & Hse) Hs Hn Hp Ha Hq Hf.
  unfold urllib.urlunparse, urllib.urlunsplit.
  set (u0 := if negb (Str.is_empty a) then p +:+ ";" +:+ a else p).
  assert (clean c u0) as H0.
  { unfold u0. destruct (negb _); [|done].
    apply clean_app. split; [done|]. apply clean_cons. by split. }
  clearbody u0.
  set (u1 := if _ || _ then _ else u0).
  assert (clean c u1) as H1.
  { unfold u1. destruct (_ || _); [|done].
    apply clean_cons; split; [done|]. apply clean_cons; split; [done|].
    apply clean_app. split; [done|].
    destruct (_ && _); [|done]. apply clean_cons. by split. }
  clearbody u1.
  set (u2 := if negb (Str.is_empty s) then _ else u1).
  assert (clean c u2) as H2.
  { unfold u2. destruct (negb _); [|done].
    apply clean_app. split; [done|]. apply clean_cons. by split. }
  clearbody u2.
  set (u3 := if negb (Str.is_empty q) then _ else u2).
  assert (clean c u3) as H3.
  { unfold u3. destruct (negb _); [|done].
    apply clean_app. split; [done|]. apply clean_cons. by split. }
  clearbody u3. destruct Hf as [->|[Hh Hf]]; [done|].
  destruct (negb _); [|done].
  apply clean_app. split; [done|]. apply clean_cons. by split.
Qed.

(** The fragment is the last thing [urlunparse] writes. *)
Lemma urlunparse_fragment s n p a q f :
  urllib.urlunparse s n p a q f
  = if Str.is_empty f then urllib.urlunparse s n p a q ""
    else urllib.urlunparse s n p a q "" +:+ String "#" f.
Proof.
  unfold urllib.urlunparse, urllib.urlunsplit. simpl.
  destruct (Str.is_empty f); simpl; [done|]. done.
Qed.

Lemma urljoin_joined base url :
  urllib.urljoin host_ok nfkc_ok base url
  = if Str.is_empty base then Ok url
    else if Str.is_empty url then Ok base
    else
      b ← urllib.urlparse host_ok nfkc_ok base "";
      u ← urllib.urlparse host_ok nfkc_ok url (urllib.scheme b);
      match joined b u with
      | None => Ok url
      | Some (s, n, p, a, q) =>
          Ok (urllib.urlunparse s n p a q (urllib.fragment u))
      end.
Proof.
  unfold urllib.urljoin, joined.
  destruct (Str.is_empty base); [done|]. destruct (Str.is_empty url); [done|].
  destruct (urllib.urlparse host_ok nfkc_ok base "") as [b|]; simpl; [|done].
  destruct (urllib.urlparse host_ok nfkc_ok url (urllib.scheme b)) as [u|]; simpl; [|done].
  destruct (_ || _); [done|]. destruct (_ && _); [done|].
  destruct (_ && _); done.
Qed.

Lemma joined_clean c b u s n p a q :
  plain c → clean_parse c b → clean_parse c u →
  joined b u = Some (s, n, p, a, q) →
  clean c s ∧ clean c n ∧ clean c p ∧ clean c a ∧ clean c q.
Proof.
  intros (_ & _ & Hsl & _) [] []. unfold joined.
  destruct (_ || _); [done|]. destruct (_ && _); [by intros [= <- <- <- <- <-]|].
  assert (clean c (if urllib.mem (urllib.scheme u) urllib.uses_netloc
                   then urllib.netloc b else urllib.netloc u)) as Hn
    by (by destruct (urllib.mem _ _)).
  destruct (_ && _).
  - intros [= <- <- <- <- <-]. repeat split; auto. by destruct (Str.is_empty _).
  - cbv zeta. intros [= <- <- <- <- <-]. repeat split; auto.
    match goal with |- clean c (if Str.is_empty ?j then _ else _) =>
      assert (clean c j) as Hj;
        [|destruct (Str.is_empty j); [by apply clean_cons|done]] end.
    apply clean_join; [by apply clean_cons|].
    assert (Forall (λ x, clean c x)
              (if (Str.take 1 (urllib.path u) =? "/")%string
               then Str.split "/" (urllib.path u)
               else urllib.drop_empty_middle
                 ((if negb (Str.is_empty (List.last (Str.split "/" (urllib.path b)) ""))
                   then removelast (Str.split "/" (urllib.path b))
                   else Str.split "/" (urllib.path b))
                  ++ Str.split "/" (urllib.path u)))) as Hseg.
    { destruct (_ =? _)%string; [by apply clean_segments|].
      apply clean_drop_empty_middle, Forall_app. split; [|by apply clean_segments].
      destruct (negb _); [apply Forall_removelast|]; by apply clean_segments. }
    destruct (_ || _); [apply Forall_app; split; [|by repeat constructor]|];
      by apply clean_resolve.
Qed.

Lemma joined_fragment b s n p a q f f' :
  joined b (urllib.mkParse s n p a q f) = joined b (urllib.mkParse s n p a q f').
Proof. reflexivity. Qed.

End Joining.

(** ** A fragment appended to an address *)

Lemma all_app f a b : Str.all f (a +:+ b) = Str.all f a && Str.all f b.
Proof.
  induction a as [|c a IH]; simpl; [done|]. rewrite IH. by rewrite andb_assoc.
Qed.

Lemma split_once_app_r c a b :
  clean c a →
  Str.split_once c (a +:+ b)
  = match Str.split_once c b with
    | Some (x, y) => Some (a +:+ x, y)
    | None => None
    end.
Proof.
  induction a as [|d a IH]; simpl.
  - intros _. by destruct (Str.split_once c b) as [[]|].
  - intros [E H]%orb_false_iff. rewrite E, (IH H).
    by destruct (Str.split_once c b) as [[]|].
Qed.

Lemma prefix_slashes_app v f :
  String.prefix "//" (v +:+ String "#" f) = String.prefix "//" v.
Proof.
  destruct v as [|a [|b v]]; cbn [String.prefix String.append].
  - by destruct (ascii_dec "/" "#").
  - destruct (ascii_dec "/" a); [|done]. by destruct (ascii_dec "/" "#").
  - destruct (ascii_dec "/" a); [|done]. destruct (ascii_dec "/" b); [|done].
    by destruct v.
Qed.

Section Fragment.

Variable host_ok nfkc_ok : string → bool.

Lemma scheme_step_frag scheme u f :
  clean "#" u →
  scheme_step scheme (u +:+ String "#" f)
  = ((scheme_step scheme u).1, (scheme_step scheme u).2 +:+ String "#" f).
Proof.
  intros Hu. unfold scheme_step.
  destruct (Str.split_once ":" u) as [[p rest]|] eqn:E.
  - rewrite (split_once_app_l _ _ _ _ _ E).
    destruct p as [|c pre]; [done|]. by destruct (_ && _).
  - apply split_once_None in E. rewrite (split_once_app_r _ _ _ E). simpl.
    destruct (Str.split_once ":" f) as [[x y]|]; [|done].
    destruct (u +:+ String "#" x) as [|c pre] eqn:Ep; [done|].
    rewrite <- Ep, all_app. simpl. by rewrite !andb_false_r.
Qed.

Lemma netloc_step_frag v f :
  netloc_step host_ok (v +:+ String "#" f)
  = '(n, r) ← netloc_step host_ok v; Ok (n, r +:+ String "#" f).
Proof.
  unfold netloc_step. rewrite prefix_slashes_app.
  destruct (String.prefix "//" v) eqn:E; [|done].
  destruct v as [|a [|b v]].
  { by cbn in E. }
  { cbn [String.prefix] in E. by destruct (ascii_dec "/" a). }
  unfold urllib.splitnetloc. cbn [String.append Str.drop].
  rewrite span_app by done.
  destruct (Str.span _ v) as [n r]. simpl.
  destruct (_ || _); [done|]. destruct (_ && _); [|done].
  by destruct (urllib.check_bracketed_netloc host_ok n).
Qed.

Lemma tail_step_frag r f :
  clean "#" r →
  tail_step (r +:+ String "#" f)
  = ((tail_step r).1.1, (tail_step r).1.2, f)
  ∧ (tail_step r).2 = EmptyString.
Proof.
  intros Hr. unfold tail_step. rewrite split_once_app by done.
  apply split_once_None in Hr. rewrite Hr.
  by destruct (Str.split_once "?" r) as [[]|].
Qed.

(** Appending ["#" f] to an address without ['#'] changes the fragment
    that [urlsplit] reports and nothing else. *)
Lemma urlsplit_frag url scheme f :
  clean "#" url →
  urllib.urlsplit host_ok nfkc_ok (url +:+ String "#" f) scheme
  = r ← urllib.urlsplit host_ok nfkc_ok url scheme;
    Ok (urllib.mkSplit (urllib.s_scheme r) (urllib.s_netloc r)
          (urllib.s_path r) (urllib.s_query r)
          (Str.keep urllib.safe_byte f)).
Proof.
  intros Hu. rewrite !urlsplit_steps. cbv zeta.
  rewrite lstrip_app by done. rewrite keep_app. simpl Str.keep.
  set (u1 := Str.keep urllib.safe_byte (Str.lstrip urllib.c0_or_space url)).
  assert (clean "#" u1) as H1 by (by apply clean_keep, clean_lstrip).
  rewrite scheme_step_frag by done.
  destruct (scheme_step _ u1) as [s v] eqn:E1. simpl.
  apply (scheme_step_url "#") in E1 as Hv; [|done].
  rewrite netloc_step_frag.
  destruct (netloc_step host_ok v) as [[n r]|] eqn:E2; simpl; [|done].
  apply (netloc_step_clean host_ok "#") in E2 as [_ Hr]; [|done].
  destruct (tail_step_frag r (Str.keep urllib.safe_byte f) Hr) as [-> _].
  destruct (tail_step r) as [[p q] fr]. simpl.
  by destruct (urllib.checknetloc nfkc_ok n).
Qed.

Lemma urlparse_frag url scheme f :
  clean "#" url →
  urllib.urlparse host_ok nfkc_ok (url +:+ String "#" f) scheme
  = r ← urllib.urlparse host_ok nfkc_ok url scheme;
    Ok (urllib.mkParse (urllib.scheme r) (urllib.netloc r) (urllib.path r)
          (urllib.params r) (urllib.query r) (Str.keep urllib.safe_byte f)).
Proof.
  intros Hu. rewrite !urlparse_split, urlsplit_frag by done.
  destruct (urllib.urlsplit host_ok nfkc_ok url scheme) as [r|]; simpl; [|done].
  by destruct_let p a E.
Qed.

Lemma urljoin_frag base url f :
  clean "#" url →
  urllib.urljoin host_ok nfkc_ok base (url +:+ String "#" f)
  = if Str.is_empty base then Ok (url +:+ String "#" f)
    else
      b ← urllib.urlparse host_ok nfkc_ok base "";
      u ← urllib.urlparse host_ok nfkc_ok url (urllib.scheme b);
      match joined b u with
      | None => Ok (url +:+ String "#" f)
      | Some (s, n, p, a, q) =>
          Ok (urllib.urlunparse s n p a q (Str.keep urllib.safe_byte f))
      end.
Proof.
  intros Hu. rewrite urljoin_joined.
  destruct (Str.is_empty base); [done|].
  assert (Str.is_empty (url +:+ String "#" f) = false) as ->
    by (by destruct url).
  destruct (urllib.urlparse host_ok nfkc_ok base "") as [b|]; simpl; [|done].
  rewrite urlparse_frag by done.
  destruct (urllib.urlparse host_ok nfkc_ok url (urllib.scheme b)) as [[s n p a q fr]|];
    simpl; [|done].
  rewrite (joined_fragment b s n p a q _ fr).
  by destruct (joined b _) as [[[[[? ?] ?] ?] ?]|].
Qed.

Lemma urldefrag_frag url f :
  clean "#" url →
  urllib.urldefrag host_ok nfkc_ok (url +:+ String "#" f)
  = p ← urllib.urlparse host_ok nfkc_ok url "";
    Ok (urllib.urlunparse (urllib.scheme p) (urllib.netloc p) (urllib.path p)
          (urllib.params p) (urllib.query p) "",
        Str.keep urllib.safe_byte f).
Proof.
  intros Hu. unfold urllib.urldefrag.
  rewrite has_char_app. simpl. rewrite orb_true_r.
  rewrite urlparse_frag by done.
  by destruct (urllib.urlparse host_ok nfkc_ok url "").
Qed.

(** What [urldefrag] returns holds no ['#']. *)
Lemma urldefrag_clean url d fr :
  urllib.urldefrag host_ok nfkc_ok url = Ok (d, fr) → clean "#" d.
Proof.
  unfold urllib.urldefrag. destruct (Str.has_char "#" url) eqn:E.
  - destruct (urllib.urlparse host_ok nfkc_ok url "") as [p|] eqn:Ep; simpl; [|done].
    intros [= <- <-]. apply (urlparse_hash host_ok nfkc_ok) in Ep as []; [|done].
    apply clean_urlunparse; auto using plain_hash.
  - by intros [= <- <-].
Qed.

End Fragment.

(** ** Substrings and suffixes *)

Lemma prefix_true p s : String.prefix p s = true ↔ ∃ b, s = p +:+ b.
Proof.
  revert s. induction p as [|c p IH]; intros [|d s]; cbn [String.prefix String.append].
  - split; [by exists ""|done].
  - split; [by eexists|done].
  - split; [done|]. by intros [b [=]].
  - destruct (ascii_dec c d) as [->|Hne].
    + rewrite IH. split; intros [b Hb]; exists b; congruence.
    + split; [done|]. intros [b [= ? ?]]. done.
Qed.

(** [Str.contains p s] holds exactly when [p] is a literal substring of [s]. *)
Lemma contains_true p s : Str.contains p s = true ↔ ∃ a b, s = a +:+ p +:+ b.
Proof.
  induction s as [|d s IH]; cbn [Str.contains]; rewrite orb_true_iff, prefix_true.
  - split.
    + intros [[b Hb]|?]; [|done]. by exists "", b.
    + intros (a & b & H). left. destruct a; [by exists b|done].
  - rewrite IH. split.
    + intros [[b Hb]|(a & b & ->)]; [by exists "", b|]. by exists (String d a), b.
    + intros (a & b & H). destruct a as [|e a]; [left; by exists b|].
      right. injection H as _ ->. by exists a, b.
Qed.

Lemma rsplit_once_None c s : clean c s → Str.rsplit_once c s = None.
Proof.
  induction s as [|d s IH]; simpl; [done|].
  intros [E H]%orb_false_iff. by rewrite (IH H), E.
Qed.

Lemma rsplit_once_app c a b :
  clean c b → Str.rsplit_once c (a +:+ String c b) = Some (a, b).
Proof.
  intros Hb. induction a as [|d a IH]; simpl.
  - by rewrite (rsplit_once_None c b Hb), Ascii.eqb_refl.
  - by rewrite IH.
Qed.

(** [pathlib.suffix] is the text of the name from its last dot on, the dot
    included, unless that dot begins or ends the name. *)
Lemma suffix_last_dot p stem ext :
  pathlib.name p = stem +:+ String "." ext → clean "." ext →
  pathlib.suffix p
  = if Str.is_empty stem || Str.is_empty ext then EmptyString
    else String "." ext.
Proof.
  intros Hn He. unfold pathlib.suffix. rewrite Hn, rsplit_once_app by done.
  by destruct stem, ext.
Qed.

Lemma suffix_no_dot p : clean "." (pathlib.name p) → pathlib.suffix p = EmptyString.
Proof. intros H. unfold pathlib.suffix. by rewrite rsplit_once_None. Qed.

(** ** [urljoin] and [urldefrag] on addresses without a given character *)

Section Brackets.

Variable host_ok nfkc_ok : string → bool.

Lemma urljoin_clean c base url j :
  plain c → Ascii.eqb c "#" = false →
  clean c base → clean c url →
  urllib.urljoin host_ok nfkc_ok base url = Ok j → clean c j.
Proof.
  intros Hp Hh Hb Hu. rewrite urljoin_joined.
  destruct (Str.is_empty base); [by intros [= <-]|].
  destruct (Str.is_empty url); [by intros [= <-]|].
  destruct Hp as (Hup & Hlo & Hrest).
  destruct (urllib.urlparse host_ok nfkc_ok base "") as [b|] eqn:Eb; simpl; [|done].
  apply (urlparse_clean host_ok nfkc_ok c) in Eb as [Cb _]; auto.
  destruct (urllib.urlparse host_ok nfkc_ok url (urllib.scheme b)) as [u|] eqn:Eu;
    simpl; [|done].
  apply (urlparse_clean host_ok nfkc_ok c) in Eu as [Cu Cf]; auto; [|by destruct Cb].
  destruct (joined b u) as [[[[[s n] p] a] q]|] eqn:Ej; [|by intros [= <-]].
  apply (joined_clean c) in Ej as (? & ? & ? & ? & ?); [|done..].
  intros [= <-]. apply clean_urlunparse; auto. done.
Qed.

(** An address joined from two ASCII addresses is ASCII. *)
Lemma urljoin_ascii base url j :
  ascii_only base → ascii_only url →
  urllib.urljoin host_ok nfkc_ok base url = Ok j → ascii_only j.
Proof.
  rewrite !ascii_only_clean. intros Hb Hu Ej c Hc.
  apply (urljoin_clean c base url j); auto using nonascii_plain, nonascii_not_hash.
Qed.

Lemma urljoin_Ok base url :
  clean "[" base → clean "]" base → ascii_only base →
  clean "[" url → clean "]" url → ascii_only url →
  ∃ j, urllib.urljoin host_ok nfkc_ok base url = Ok j.
Proof.
  intros Hb1 Hb2 Hb3 Hu1 Hu2 Hu3. rewrite urljoin_joined.
  destruct (Str.is_empty base); [by eexists|].
  destruct (Str.is_empty url); [by eexists|].
  destruct (urlparse_Ok host_ok nfkc_ok base "" Hb1 Hb2 Hb3) as [b ->]. simpl.
  destruct (urlparse_Ok host_ok nfkc_ok url (urllib.scheme b) Hu1 Hu2 Hu3) as [u ->].
  simpl. destruct (joined b u) as [[[[[s n] p] a] q]|]; by eexists.
Qed.

Lemma urldefrag_Ok url :
  clean "[" url → clean "]" url → ascii_only url →
  ∃ d fr, urllib.urldefrag host_ok nfkc_ok url = Ok (d, fr)
          ∧ clean "[" d ∧ clean "]" d ∧ ascii_only d.
Proof.
  intros H1 H2 H3. unfold urllib.urldefrag. destruct (Str.has_char "#" url).
  - destruct (urlparse_Ok host_ok nfkc_ok url "" H1 H2 H3) as [p Ep]. rewrite Ep. simpl.
    eexists _, _. split; [done|].
    assert (∀ c, plain c → clean c url →
                 clean c (urllib.urlunparse (urllib.scheme p) (urllib.netloc p)
                            (urllib.path p) (urllib.params p) (urllib.query p) ""))
      as Hc.
    { intros c Hp Hc.
      pose proof (urlparse_clean host_ok nfkc_ok c url "" p (proj1 Hp)
                    (proj1 (proj2 Hp)) Hc eq_refl Ep) as [[] _].
      apply clean_urlunparse; auto. }
    split; [by apply Hc; [apply plain_lbracket|]|].
    split; [by apply Hc; [apply plain_rbracket|]|].
    apply ascii_only_clean. intros c Hn. apply Hc; [by apply nonascii_plain|].
    by apply (proj1 (ascii_only_clean url)).
  - by eexists _, _.
Qed.


End Brackets.

(** ** The filter *)

Lemma rejects_true field x :
  UrlFilterer.rejects field x = true ↔ ∃ S : gset string, field = Some S ∧ x ∉ S.
Proof.
  destruct field as [S|]; simpl.
  - rewrite bool_decide_eq_true. split; [by exists S|]. by intros (? & [= <-] & ?).
  - split; [done|]. by intros (? & ? & ?).
Qed.

Lemma blocked_true field url :
  UrlFilterer.blocked field url = true
  ↔ ∃ (S : gset string) ph, field = Some S ∧ ph ∈ S ∧ ∃ a b, url = a +:+ ph +:+ b.
Proof.
  destruct field as [S|]; simpl.
  - rewrite existsb_exists. split.
    + intros (ph & Hin & Hc). exists S, ph. split; [done|].
      split; [by apply elem_of_elements, list_elem_of_In|]. by apply contains_true.
    + intros (? & ph & [= <-] & Hin & Hc). exists ph.
      split; [by apply list_elem_of_In, elem_of_elements|]. by apply contains_true.
  - split; [done|]. by intros (? & ? & ? & ?).
Qed.

Lemma filter_url_verdict host_ok nfkc_ok self base url :
  UrlFilterer.filter_url host_ok nfkc_ok self base url
  = j ← urllib.urljoin host_ok nfkc_ok base url;
    r ← urllib.urldefrag host_ok nfkc_ok j;
    verdict host_ok nfkc_ok self r.1.
Proof.
  unfold UrlFilterer.filter_url, verdict.
  destruct (urllib.urljoin host_ok nfkc_ok base url) as [j|]; simpl; [|done].
  by destruct (urllib.urldefrag host_ok nfkc_ok j) as [[d fr]|].
Qed.

(** C5, as the code has it. When [urljoin], [urldefrag] and [urlparse] raise
    nothing, the address [d] that [urldefrag] returns holds no ['#'], and
    [filter_url] returns [None] exactly when a rule that is set rejects: the
    scheme is outside [allowed_schemes], the netloc is outside
    [allowed_domains], [pathlib.suffix] of the path is outside
    [allowed_filetypes], or [d] contains a blocked phrase as a substring;
    otherwise it returns [d]. The suffix is the text of the last path
    component from its last dot on, the dot included, and is empty when that
    dot begins or ends the component or when there is none. *)
Theorem filter_url_rules (host_ok nfkc_ok : string → bool) (self : UrlFilterer.t)
    (base url joined d fr : string) (parsed : urllib.ParseResult)
    (Hjoin : urllib.urljoin host_ok nfkc_ok base url = Ok joined)
    (Hdefrag : urllib.urldefrag host_ok nfkc_ok joined = Ok (d, fr))
    (Hparse : urllib.urlparse host_ok nfkc_ok d "" = Ok parsed) :
  let rejected :=
    (∃ S : gset string,
        UrlFilterer.allowed_schemes self = Some S ∧ urllib.scheme parsed ∉ S)
    ∨ (∃ S : gset string,
        UrlFilterer.allowed_domains self = Some S ∧ urllib.netloc parsed ∉ S)
    ∨ (∃ S : gset string,
        UrlFilterer.allowed_filetypes self = Some S
        ∧ pathlib.suffix (urllib.path parsed) ∉ S)
    ∨ (∃ (S : gset string) ph,
        UrlFilterer.blocked_phrases self = Some S ∧ ph ∈ S
        ∧ ∃ a b, d = a +:+ ph +:+ b) in
  Str.has_char "#" d = false
  ∧ (rejected → UrlFilterer.filter_url host_ok nfkc_ok self base url = Ok None)
  ∧ (¬ rejected → UrlFilterer.filter_url host_ok nfkc_ok self base url = Ok (Some d))
  ∧ (∀ p stem ext,
       pathlib.name p = stem +:+ String "." ext →
       Str.has_char "." ext = false →
       pathlib.suffix p
       = if Str.is_empty stem || Str.is_empty ext then EmptyString
         else String "." ext)
  ∧ (∀ p, Str.has_char "." (pathlib.name p) = false →
          pathlib.suffix p = EmptyString).
Proof.
  cbv zeta. split; [by eapply urldefrag_clean|].
  rewrite filter_url_verdict, Hjoin. simpl. rewrite Hdefrag. simpl.
  unfold verdict. rewrite Hparse. simpl.
  rewrite <- !rejects_true, <- blocked_true.
  destruct (UrlFilterer.rejects (UrlFilterer.allowed_schemes self) _);
    [repeat split; auto using suffix_last_dot, suffix_no_dot; tauto|].
  destruct (UrlFilterer.rejects (UrlFilterer.allowed_domains self) _);
    [repeat split; auto using suffix_last_dot, suffix_no_dot; tauto|].
  destruct (UrlFilterer.rejects (UrlFilterer.allowed_filetypes self) _);
    [repeat split; auto using suffix_last_dot, suffix_no_dot; tauto|].
  destruct (UrlFilterer.blocked (UrlFilterer.blocked_phrases self) d);
    repeat split; auto using suffix_last_dot, suffix_no_dot; try tauto.
  intros [?|[?|[?|?]]]; done.
Qed.

Lemma filter_url_rules_witness :
  UrlFilterer.filter_url (λ _, true) (λ _, true) main_filterer
    "https://playorna.com/codex/spells/" "../items/?p=2&lang=de#top"
  = Ok None.
Proof.
  refine (proj1 (proj2 (filter_url_rules (λ _, true) (λ _, true) main_filterer
    "https://playorna.com/codex/spells/" "../items/?p=2&lang=de#top"
    "https://playorna.com/codex/items/?p=2&lang=de#top"
    "https://playorna.com/codex/items/?p=2&lang=de" "top"
    (urllib.mkParse "https" "playorna.com" "/codex/items/" "" "p=2&lang=de" "")
    _ _ _)) _); try (vm_compute; reflexivity).
  right. right. right. exists {["lang"; "releases/"]}, "lang".
  split; [done|]. split; [set_solver|].
  by exists "https://playorna.com/codex/items/?p=2&", "=de".
Defined.

(** C5, as stated, fails on the extension: for ["/codex/spells/fire.html"]
    the spec's extension is ["html"], which the configuration of [main] does
    not allow, yet [filter_url] returns the address, because the suffix it
    tests is [".html"]. And on a candidate that [urlsplit] refuses,
    [filter_url] returns neither [None] nor an address. *)
Lemma extension_is_not_the_suffix :
  (∀ host_ok nfkc_ok, UrlFilterer.filter_url host_ok nfkc_ok main_filterer
            "https://playorna.com/codex/" "spells/fire.html"
          = Ok (Some "https://playorna.com/codex/spells/fire.html"))
  ∧ spec_extension "/codex/spells/fire.html" = "html"
  ∧ UrlFilterer.rejects (UrlFilterer.allowed_filetypes main_filterer)
      (spec_extension "/codex/spells/fire.html") = true
  ∧ pathlib.suffix "/codex/spells/fire.html" = ".html"
  ∧ (∀ host_ok nfkc_ok, UrlFilterer.filter_url host_ok nfkc_ok (UrlFilterer.mk None None None None)
              "https://playorna.com/codex/" "http://[" = Raise ValueError).
Proof.
  split; [intros host_ok nfkc_ok; vm_compute; reflexivity|].
  split; [vm_compute; reflexivity|].
  split; [vm_compute; reflexivity|].
  split; [vm_compute; reflexivity|].
  intros host_ok nfkc_ok; vm_compute; reflexivity.
Qed.

(** ** Totality *)

(** On an ASCII base and an ASCII candidate without square brackets nothing
    raises. *)
Lemma filter_url_Ok host_ok nfkc_ok self base url :
  clean "[" base → clean "]" base → ascii_only base →
  clean "[" url → clean "]" url → ascii_only url →
  ∃ r, UrlFilterer.filter_url host_ok nfkc_ok self base url = Ok r.
Proof.
  intros Hb1 Hb2 Hb3 Hu1 Hu2 Hu3. rewrite filter_url_verdict.
  destruct (urljoin_Ok host_ok nfkc_ok base url Hb1 Hb2 Hb3 Hu1 Hu2 Hu3) as [j Ej].
  rewrite Ej. simpl.
  assert (clean "[" j ∧ clean "]" j) as [Hj1 Hj2].
  { split; eapply urljoin_clean; try exact Ej;
      auto using plain_lbracket, plain_rbracket. }
  pose proof (urljoin_ascii host_ok nfkc_ok base url j Hb3 Hu3 Ej) as Hj3.
  destruct (urldefrag_Ok host_ok nfkc_ok j Hj1 Hj2 Hj3)
    as (d & fr & -> & Hd1 & Hd2 & Hd3). simpl.
  unfold verdict. destruct (urlparse_Ok host_ok nfkc_ok d "" Hd1 Hd2 Hd3) as [p ->].
  simpl.
  repeat (match goal with
          | |- context [if ?x then _ else _] => destruct x
          end; [by eexists|]). by eexists.
Qed.





(** ** Fragments *)

(** On a candidate that ends in a fragment, the verdict is taken on an
    address that the fragment does not reach. *)
Lemma filter_url_frag host_ok nfkc_ok self base url :
  clean "#" url →
  ∃ v, ∀ f, Str.keep urllib.safe_byte f ≠ EmptyString →
    UrlFilterer.filter_url host_ok nfkc_ok self base (url +:+ String "#" f) = v.
Proof.
  intros Hu.
  assert (∀ f, UrlFilterer.filter_url host_ok nfkc_ok self base (url +:+ String "#" f)
             = j ← urllib.urljoin host_ok nfkc_ok base (url +:+ String "#" f);
               r ← urllib.urldefrag host_ok nfkc_ok j; verdict host_ok nfkc_ok self r.1) as Hf
    by (intros; apply filter_url_verdict).
  assert (∀ f, (r ← urllib.urldefrag host_ok nfkc_ok (url +:+ String "#" f);
                verdict host_ok nfkc_ok self r.1)
               = p ← urllib.urlparse host_ok nfkc_ok url "";
                 verdict host_ok nfkc_ok self
                   (urllib.urlunparse (urllib.scheme p) (urllib.netloc p)
                      (urllib.path p) (urllib.params p) (urllib.query p) ""))
    as Hverb.
  { intros f. rewrite urldefrag_frag by done.
    by destruct (urllib.urlparse host_ok nfkc_ok url ""). }
  destruct (Str.is_empty base) eqn:Eb.
  { eexists. intros f _. rewrite Hf, urljoin_frag, Eb by done. simpl.
    apply Hverb. }
  destruct (urllib.urlparse host_ok nfkc_ok base "") as [b|e] eqn:Epb.
  2:{ exists (Raise e). intros f _. rewrite Hf, urljoin_frag, Eb, Epb by done.
      done. }
  destruct (urllib.urlparse host_ok nfkc_ok url (urllib.scheme b)) as [u|e] eqn:Epu.
  2:{ exists (Raise e). intros f _.
      rewrite Hf, urljoin_frag, Eb, Epb by done. simpl. by rewrite Epu. }
  destruct (joined b u) as [[[[[s n] p] a] q]|] eqn:Ej.
  2:{ eexists. intros f _.
      rewrite Hf, urljoin_frag, Eb, Epb by done. simpl. rewrite Epu. simpl.
      rewrite Ej. simpl. apply Hverb. }
  assert (clean "#" (urllib.urlunparse s n p a q "")) as Hx.
  { pose proof (urlparse_hash host_ok nfkc_ok base "" b eq_refl Epb) as Cb.
    pose proof (urlparse_hash host_ok nfkc_ok url _ u (cp_scheme _ _ Cb) Epu) as Cu.
    destruct (joined_clean "#" b u s n p a q plain_hash Cb Cu Ej)
      as (? & ? & ? & ? & ?).
    apply clean_urlunparse; auto using plain_hash. }
  exists (x ← urllib.urlparse host_ok nfkc_ok (urllib.urlunparse s n p a q "") "";
          verdict host_ok nfkc_ok self
            (urllib.urlunparse (urllib.scheme x) (urllib.netloc x)
               (urllib.path x) (urllib.params x) (urllib.query x) "")).
  intros f Hne.
  rewrite Hf, urljoin_frag, Eb, Epb by done. simpl. rewrite Epu. simpl.
  rewrite Ej. simpl. rewrite urlunparse_fragment.
  destruct (Str.keep urllib.safe_byte f) as [|c F] eqn:EF; [done|].
  simpl Str.is_empty. cbv iota. rewrite urldefrag_frag by done.
  by destruct (urllib.urlparse host_ok nfkc_ok (urllib.urlunparse s n p a q "") "").
Qed.

(** C10, as the code has it. Among the candidates that carry a fragment the
    fragment does not matter: two candidates that differ only in a fragment
    that is not empty (tabs and line ends apart, which [urlsplit] drops) get
    the same result. *)
Theorem filter_url_ignores_the_fragment (host_ok nfkc_ok : string → bool)
    (self : UrlFilterer.t) (base url f1 f2 : string)
    (Hurl : Str.has_char "#" url = false)
    (Hf1 : Str.keep urllib.safe_byte f1 ≠ EmptyString)
    (Hf2 : Str.keep urllib.safe_byte f2 ≠ EmptyString) :
  UrlFilterer.filter_url host_ok nfkc_ok self base (url +:+ String "#" f1)
  = UrlFilterer.filter_url host_ok nfkc_ok self base (url +:+ String "#" f2).
Proof.
  destruct (filter_url_frag host_ok nfkc_ok self base url Hurl) as [v Hv].
  by rewrite (Hv f1 Hf1), (Hv f2 Hf2).
Qed.

Lemma filter_url_ignores_the_fragment_witness :
  UrlFilterer.filter_url (λ _, true) (λ _, true) main_filterer
    "https://playorna.com/codex/spells/" "fire.html#lang"
  = UrlFilterer.filter_url (λ _, true) (λ _, true) main_filterer
      "https://playorna.com/codex/spells/" "fire.html#top".
Proof.
  apply (filter_url_ignores_the_fragment (λ _, true) (λ _, true) main_filterer
           "https://playorna.com/codex/spells/" "fire.html" "lang" "top");
    vm_compute; [reflexivity|discriminate|discriminate].
Defined.

(** C10, as stated, fails: appending a fragment to a candidate that has
    none changes the result when the address is not written the way
    [urlunparse] writes it. [urldefrag] parses and rewrites an address only
    if it holds a ['#']; the rewriting drops the ['?'] of an empty query. *)
Lemma appended_fragment_changes_result :
  (∀ host_ok nfkc_ok, UrlFilterer.filter_url host_ok nfkc_ok main_filterer
            "https://playorna.com/codex/" "http://playorna.com/codex/spells/?"
          = Ok (Some "http://playorna.com/codex/spells/?"))
  ∧ (∀ host_ok nfkc_ok, UrlFilterer.filter_url host_ok nfkc_ok main_filterer
              "https://playorna.com/codex/"
              "http://playorna.com/codex/spells/?#top"
            = Ok (Some "http://playorna.com/codex/spells/")).
Proof. split; intros host_ok nfkc_ok; vm_compute; reflexivity. Qed.

(** ** The admission path *)

Lemma push_all_nil c : push_all [] c = c.
Proof.
  destruct c as [? ? [it un hi] ? ? ? ? ? tot ? ?]. unfold push_all, set_todo, set_total.
  simpl. rewrite !app_nil_r, Nat.add_0_r, Z.add_0_r. reflexivity.
Qed.

Lemma push_all_cons u l c :
  push_all l (push_all [u] c) = push_all (u :: l) c.
Proof.
  unfold push_all, set_todo, set_total. simpl.
  rewrite <- !app_assoc. simpl. f_equal; [f_equal; lia | lia].
Qed.

Lemma put_todo_push url c :
  put_todo url c = c
  ∨ (put_todo url c = push_all [url] c ∧ total c < limit c
     ∧ (cls c = CrawlerClass → Str.contains "?p=" url = true)).
Proof.
  unfold put_todo, Crawler_put_todo, SpellReader_put_todo.
  destruct (cls c) eqn:Hc; destruct (Z.leb_spec (limit c) (total c)); auto.
  - destruct (Str.contains "?p=" url) eqn:Hp; simpl; auto.
    right. repeat split; auto.
    unfold push_all, Queue.put. simpl. do 3 f_equal. lia.
  - right. repeat split; [| done | done].
    unfold push_all, Queue.put. simpl. do 3 f_equal. lia.
Qed.

Lemma foldl_put_todo l : ∀ c, ∃ added,
  added `sublist_of` l
  ∧ foldl (λ self url, put_todo url self) c l = push_all added c
  ∧ (cls c = CrawlerClass → Forall (λ u, Str.contains "?p=" u = true) added)
  ∧ (added ≠ [] → total c + Z.of_nat (length added) ≤ limit c).
Proof.
  induction l as [|u l IH]; intros c; simpl.
  - exists []. rewrite push_all_nil. repeat split; auto; done.
  - destruct (put_todo_push u c) as [-> | (-> & Hlt & Hp)].
    + destruct (IH c) as (added & Hs & He & Hq & Hcap).
      exists added. repeat split; auto. by apply sublist_cons.
    + destruct (IH (push_all [u] c)) as (added & Hs & He & Hq & Hcap).
      exists (u :: added). rewrite He, push_all_cons. repeat split.
      * by apply sublist_skip.
      * intros Hc. constructor; auto.
      * intros _. destruct added as [|a added].
        -- simpl. lia.
        -- specialize (Hcap ltac:(done)). simpl in *. lia.
Qed.

Lemma elem_of_iterate order (X : gset string) x : x ∈ iterate order X ↔ x ∈ X.
Proof.
  unfold iterate. rewrite elem_of_app, list_elem_of_filter, elem_of_remove_dups,
    elem_of_elements, elem_of_difference, elem_of_list_to_set.
  destruct (decide (x ∈ order)); tauto.
Qed.

Lemma NoDup_iterate order (X : gset string) : NoDup (iterate order X).
Proof.
  unfold iterate. apply NoDup_app. split; [|split].
  - apply NoDup_filter, NoDup_remove_dups.
  - intros x. rewrite list_elem_of_filter, elem_of_remove_dups, elem_of_elements,
      elem_of_difference, elem_of_list_to_set. tauto.
  - apply NoDup_elements.
Qed.

Lemma remove_dups_NoDup (l : list string) : NoDup l → remove_dups l = l.
Proof.
  induction 1 as [|x l Hx Hl IH]; simpl; [done|].
  destruct (decide_rel (∈) x l); [done|]. by rewrite IH.
Qed.

Lemma filter_all (P : string → Prop) `{∀ x, Decision (P x)} (l : list string) :
  (∀ x, x ∈ l → P x) → filter P l = l.
Proof.
  induction l as [|a l IH]; intros Hl; [done|].
  rewrite filter_cons_True by (apply Hl; left).
  rewrite IH; [done|]. intros x Hx. apply Hl. by right.
Qed.

(** Every enumeration of a set is the order of some step. *)
Lemma iterate_enumeration (l : list string) (X : gset string) :
  NoDup l → (∀ x, x ∈ l ↔ x ∈ X) → iterate l X = l.
Proof.
  intros Hl HX. unfold iterate.
  replace (X ∖ list_to_set l) with (∅ : gset string).
  - rewrite elements_empty, app_nil_r, remove_dups_NoDup by done.
    apply filter_all. intros x. apply HX.
  - apply set_eq. intros x.
    rewrite elem_of_difference, elem_of_list_to_set, HX.
    split; [intros []%not_elem_of_empty | tauto].
Qed.

Lemma on_found_links_push order urls c : ∃ added,
  on_found_links order urls c = push_all added (set_seen (seen c ∪ urls) c)
  ∧ NoDup added
  ∧ (∀ x, x ∈ added → x ∈ urls ∧ x ∉ seen c)
  ∧ (cls c = CrawlerClass → Forall (λ u, Str.contains "?p=" u = true) added)
  ∧ (added ≠ [] → total c + Z.of_nat (length added) ≤ limit c).
Proof.
  unfold on_found_links.
  destruct (foldl_put_todo (iterate order (urls ∖ seen c))
              (set_seen (seen c ∪ urls ∖ seen c) c)) as (added & Hs & He & Hq & Hcap).
  exists added. rewrite He. repeat split; auto; try intros x H.
  - f_equal. f_equal. apply set_eq. intros x.
    rewrite !elem_of_union, elem_of_difference.
    destruct (decide (x ∈ seen c)); tauto.
  - eapply sublist_NoDup; eauto using NoDup_iterate.
  - pose proof (elem_of_sublist _ _ _ H Hs) as Hx.
    apply elem_of_iterate, elem_of_difference in Hx. tauto.
  - pose proof (elem_of_sublist _ _ _ H Hs) as Hx.
    apply elem_of_iterate, elem_of_difference in Hx. tauto.
Qed.

(** ** The log of the queue *)

Lemma puts_app h1 h2 : Queue.puts (h1 ++ h2) = Queue.puts h1 ++ Queue.puts h2.
Proof. apply omap_app. Qed.

Lemma gets_app h1 h2 : Queue.gets (h1 ++ h2) = Queue.gets h1 ++ Queue.gets h2.
Proof. apply omap_app. Qed.

Lemma puts_Put l : Queue.puts (map Queue.Put l) = l.
Proof. induction l as [|x l IH]; [done|]. cbn. by f_equal. Qed.

Lemma gets_Put l : Queue.gets (map Queue.Put l) = [].
Proof. induction l as [|x l IH]; [done|]. by cbn. Qed.

(** ** What one admission changes *)

Lemma on_found_links_admits order urls c : ∃ added,
  admits c (on_found_links order urls c) added urls
  ∧ done (on_found_links order urls c) = done c
  ∧ Queue.unfinished_tasks (todo (on_found_links order urls c))
    = (Queue.unfinished_tasks (todo c) + length added)%nat.
Proof.
  destruct (on_found_links_push order urls c) as (added & -> & ? & ? & ? & ?).
  exists added. split; [split|]; auto; simpl.
  - by rewrite puts_app, puts_Put.
  - by rewrite gets_app, gets_Put, app_nil_r.
Qed.

Lemma admits_refl c : admits c c [] ∅.
Proof.
  split; simpl; rewrite ?app_nil_r, ?union_empty_r_L; auto; try lia; try done.
  - constructor.
  - intros x []%elem_of_nil.
Qed.

(** A visit that completes admits what it found and marks at most its own
    address as done. *)
Lemma crawl_admits r order url c c' :
  crawl r order url c = Ok c' →
  ∃ added urls, admits c c' added urls
    ∧ (done c' = done c ∨ done c' = done c ∪ {[url]})
    ∧ Queue.unfinished_tasks (todo c')
      = (Queue.unfinished_tasks (todo c) + length added)%nat.
Proof.
  unfold crawl, Crawler_crawl, SpellReader_crawl.
  destruct (cls c) eqn:Hcls.
  - destruct r as [|base tags|]; try discriminate.
    destruct (parse_links c base tags) as [found|] eqn:Hp; simpl; [|discriminate].
    intros [= <-].
    destruct (on_found_links_admits order found c) as (added & Ha & Hd & Hu).
    exists added, found. split; [|split; [right; simpl; by rewrite Hd|done]].
    destruct Ha. split; auto.
  - destruct r as [| |fields]; try discriminate.
    destruct (_ =? _)%nat; [|discriminate]. intros [= <-].
    exists [], ∅. split; [|split; [by left|simpl; lia]].
    destruct (admits_refl c). split; auto.
Qed.

(** [set_todo q] after an admission, for a queue [q] that differs from the
    crawler's in its count of unfinished tasks and in acknowledgements. *)
Lemma admits_set_todo c c' added urls q :
  admits c c' added urls →
  Queue.items q = Queue.items (todo c') →
  Queue.puts (Queue.history q) = Queue.puts (Queue.history (todo c')) →
  Queue.gets (Queue.history q) = Queue.gets (Queue.history (todo c')) →
  admits c (set_todo q c') added urls.
Proof.
  intros [] Hi Hp Hg. split; simpl; auto; congruence.
Qed.

Lemma task_done_Ok q q' :
  Queue.task_done q = Ok q' →
  Queue.items q' = Queue.items q
  ∧ Queue.puts (Queue.history q') = Queue.puts (Queue.history q)
  ∧ Queue.gets (Queue.history q') = Queue.gets (Queue.history q)
  ∧ Queue.unfinished_tasks q = S (Queue.unfinished_tasks q')
  ∧ Queue.history q' = Queue.history q ++ [Queue.TaskDone].
Proof.
  unfold Queue.task_done. destruct (Queue.unfinished_tasks q) eqn:E; [done|].
  intros [= <-]. simpl. by rewrite puts_app, gets_app, !app_nil_r.
Qed.

(** A visit never changes the crawler when it raises: [crawl] returns the
    new state or the exception, nothing in between. *)

(** ** Workers *)

Lemma visiting_cons t ws : visiting (t :: ws) = vis t ++ visiting ws.
Proof. unfold visiting, vis. simpl. by destruct (at_place t). Qed.

Lemma visiting_app ws1 ws2 : visiting (ws1 ++ ws2) = visiting ws1 ++ visiting ws2.
Proof. apply omap_app. Qed.

Lemma visiting_insert ws w t0 t :
  ws !! w = Some t0 →
  ∃ rest, visiting ws ≡ₚ vis t0 ++ rest ∧ visiting (<[w:=t]> ws) ≡ₚ vis t ++ rest.
Proof.
  intros Hw. exists (visiting (take w ws) ++ visiting (drop (S w) ws)). split.
  - assert (visiting ws
            = visiting (take w ws) ++ vis t0 ++ visiting (drop (S w) ws)) as ->
      by (by rewrite <- visiting_cons, <- visiting_app, take_drop_middle).
    apply Permutation_app_swap_app.
  - rewrite insert_take_drop by (by eapply lookup_lt_Some).
    rewrite visiting_app, (visiting_cons t (drop (S w) ws)).
    apply Permutation_app_swap_app.
Qed.

Lemma visiting_replicate n b : visiting (replicate n (mkTask Idle b)) = [].
Proof. induction n; simpl; done. Qed.

Lemma visiting_cancel_all ws : visiting (cancel_all ws) = visiting ws.
Proof.
  induction ws as [|t ws IH]; [done|].
  unfold cancel_all in *. rewrite map_cons.
  rewrite (visiting_cons _ (map _ ws)), (visiting_cons t ws), IH.
  f_equal. by destruct t as [[] ?].
Qed.

Lemma cancel_all_alive ws :
  Forall (λ t, at_place t ≠ Crashed) ws →
  Forall (λ t, at_place t ≠ Crashed) (cancel_all ws).
Proof.
  intros H. apply Forall_fmap. eapply Forall_impl; [done|].
  intros [p f] ?; simpl in *. by destruct p.
Qed.

Lemma cancel_all_flag ws :
  Forall (λ t, at_place t ≠ Crashed) ws →
  Forall (λ t, must_cancel t = false ∧ at_place t ≠ Exited) ws →
  Forall (λ t, must_cancel t = true) (cancel_all ws).
Proof.
  intros H1 H2. apply Forall_fmap.
  induction ws as [|[p f] ws IH]; constructor.
  - apply Forall_inv in H1, H2. simpl in *. destruct H2 as [_ ?].
    destruct p; simpl; congruence.
  - apply IH; by eapply Forall_inv_tail.
Qed.

Lemma cancel_all_place ws (P : place → Prop) :
  Forall (λ t, P (at_place t)) ws → Forall (λ t, P (at_place t)) (cancel_all ws).
Proof.
  intros H. apply Forall_fmap. eapply Forall_impl; [done|].
  intros [p f] ?; simpl in *. by destruct p.
Qed.

(** ** The invariant of a crawl *)

Lemma boot_invariant k : invariant (boot k).
Proof.
  destruct k; split; simpl; auto; try done; try lia; try constructor;
    try (intros ? H; by (apply elem_of_nil in H || apply not_elem_of_empty in H)).
Qed.

(** The addresses dequeued and those still queued are all different. *)
Lemma inv_gets_items s :
  invariant s →
  NoDup (Queue.gets (Queue.history (todo (self s))) ++ Queue.items (todo (self s))).
Proof. intros H. rewrite (inv_fifo s H). apply (inv_nodup s H). Qed.

(** How an admission carries the invariant from [s] to [s']. *)
Lemma admits_invariant s s' added urls :
  invariant s →
  admits (self s) (self s') added urls →
  (∀ u, u ∈ done (self s') → u ∈ Queue.gets (Queue.history (todo (self s)))) →
  (Queue.unfinished_tasks (todo (self s'))
   = length (Queue.items (todo (self s'))) + length (visiting (workers s')))%nat →
  NoDup (visiting (workers s')) →
  (∀ u, u ∈ visiting (workers s') →
        u ∈ Queue.gets (Queue.history (todo (self s))) ∧ u ∉ done (self s')) →
  Forall (λ t, at_place t ≠ Crashed) (workers s') →
  match main s' with
  | NotStarted => False
  | Joining =>
      Forall (λ t, must_cancel t = false ∧ at_place t ≠ Exited) (workers s')
  | Returned =>
      Queue.unfinished_tasks (todo (self s')) = O
      ∧ Forall (λ t, must_cancel t = true) (workers s')
  end →
  invariant s'.
Proof.
  intros I A Hdone Hunf Hnd Hvis Halive Hmain.
  destruct A as [Hit Hpu Hge Htot Hsn Hlim Hcls Hst Hwk Hnd' Hnew Hmk Hcap].
  split; auto.
  - rewrite Hge, Hpu, Hit, app_assoc. f_equal. apply (inv_fifo s I).
  - rewrite Hpu. apply NoDup_app. split; [|split]; auto.
    + apply (inv_nodup s I).
    + intros x Hx Hx'. apply (inv_seen s I) in Hx. apply Hnew in Hx'. tauto.
  - intros x. rewrite Hpu, Hsn, elem_of_app.
    intros [Hx|Hx]; apply elem_of_union; [left; by apply (inv_seen s I)|].
    right. by apply Hnew.
  - rewrite Hpu, length_app, Htot, (inv_total s I). lia.
  - rewrite Htot, Hlim. pose proof (inv_cap s I).
    destruct added as [|a added]; [simpl; lia|].
    specialize (Hcap ltac:(done)). lia.
  - intros u Hu. rewrite Hge. by apply Hvis.
  - intros u Hu. rewrite Hge. by apply Hdone.
  - by destruct (main s').
Qed.

(** ** Each step keeps the invariant *)

Lemma run_start_invariant order s s' :
  invariant s → run_start order s = Some s' → invariant s'.
Proof.
  intros I. unfold run_start. destruct (main s) eqn:Hm; try discriminate.
  pose proof (inv_main s I) as Hi. rewrite Hm in Hi.
  destruct Hi as (Hws & Htodo & Hseen & Hdone & Htot).
  destruct (on_found_links_admits order (start_urls (self s)) (self s))
    as (added & A & Hd & Hu).
  set (c := on_found_links order (start_urls (self s)) (self s)) in *.
  pose proof (adm_items _ _ _ _ A) as Hit.
  rewrite Htodo in Hu, Hit. simpl in Hu, Hit.
  set (ws := replicate (Z.to_nat (num_workers c)) (mkTask Idle false)).
  assert (Forall (λ t, at_place t ≠ Crashed) ws) as Halive
    by (by apply Forall_replicate).
  assert (Forall (λ t, must_cancel t = false ∧ at_place t ≠ Exited) ws) as Hflag
    by (by apply Forall_replicate).
  assert (visiting ws = []) as Hv by apply visiting_replicate.
  destruct (Queue.unfinished_tasks (todo c)) eqn:E; intros [= <-];
    apply (admits_invariant s _ added (start_urls (self s))); simpl;
    rewrite ?visiting_cancel_all, ?Hv, ?Hd, ?Hdone, ?Hit, ?E; auto;
    try (intros u Hu'; by (apply elem_of_nil in Hu' || apply not_elem_of_empty in Hu'));
    try (split; [done|]); try (by apply cancel_all_alive);
    try (by apply cancel_all_flag); try constructor; simpl; try lia.
Qed.

Lemma run_finish_invariant s s' :
  invariant s → run_finish s = Some s' → invariant s'.
Proof.
  intros I. unfold run_finish. destruct (main s) eqn:Hm; try discriminate.
  destruct (Queue.unfinished_tasks (todo (self s))) eqn:E; [|discriminate].
  intros [= <-]. pose proof (inv_main s I) as Hi. rewrite Hm in Hi.
  destruct I. split; simpl; rewrite ?visiting_cancel_all; auto.
  - by apply cancel_all_alive.
  - split; [done|]. by apply cancel_all_flag.
Qed.

Lemma get_Some q x q' :
  Queue.get q = Some (x, q') →
  Queue.items q = x :: Queue.items q'
  ∧ Queue.puts (Queue.history q') = Queue.puts (Queue.history q)
  ∧ Queue.gets (Queue.history q') = Queue.gets (Queue.history q) ++ [x]
  ∧ Queue.unfinished_tasks q' = Queue.unfinished_tasks q.
Proof.
  unfold Queue.get. destruct (Queue.items q) as [|y rest] eqn:E; [done|].
  intros [= <- <-]. simpl. by rewrite puts_app, gets_app, app_nil_r.
Qed.

Lemma process_one_get_invariant w s s' :
  invariant s → process_one_get w s = Some s' → invariant s'.
Proof.
  intros I. unfold process_one_get.
  destruct (workers s !! w) as [[[] []]|] eqn:Hw; try discriminate.
  destruct (Queue.get (todo (self s))) as [[x q]|] eqn:Hq; [|discriminate].
  intros [= <-]. apply get_Some in Hq as (Hit & Hpu & Hge & Hun).
  destruct (visiting_insert (workers s) w _ (mkTask (Visiting x) false) Hw)
    as (rest & Hv & Hv').
  simpl in Hv, Hv'.
  pose proof (inv_gets_items s I) as Hnd. rewrite Hit in Hnd.
  apply NoDup_app in Hnd as (Hnd1 & Hnd2 & Hnd3).
  assert (x ∉ Queue.gets (Queue.history (todo (self s)))) as Hx.
  { intros Hx. apply (Hnd2 x Hx). left. }
  destruct I as [Ififo Inodup Iseen Itotal Icap Iunf Ivis Ivisited Idone Ialive Imain].
  split; simpl; rewrite ?Hpu, ?Hge, ?Hun; auto.
  - rewrite <- Ififo. rewrite Hit. by rewrite <- app_assoc.
  - rewrite Iunf, Hit, Hv, Hv'. simpl. lia.
  - rewrite Hv'. apply NoDup_cons. split; [|by rewrite <- Hv].
    intros Hr. apply Hx. apply Ivisited. rewrite Hv. done.
  - intros u. rewrite Hv', elem_of_cons, elem_of_app.
    intros [->|Hu].
    + split; [right; left|]. intros Hd. by apply Hx, Idone.
    + assert (u ∈ visiting (workers s)) as Hu' by (by rewrite Hv).
      destruct (Ivisited u Hu'). auto.
  - intros u Hu. apply elem_of_app. left. by apply Idone.
  - by apply Forall_insert.
  - destruct (main s).
    + destruct Imain as [Hws _]. by rewrite Hws in Hw.
    + by apply Forall_insert.
    + destruct Imain as [_ Hf]. eapply Forall_lookup_1 in Hf; [|done]. done.
Qed.

(** A worker inside [crawl] keeps one task unfinished, so the [finally]
    clause never meets [ValueError]; [run] has not returned. *)
Lemma visiting_unfinished s w u f :
  invariant s → workers s !! w = Some (mkTask (Visiting u) f) →
  Queue.unfinished_tasks (todo (self s)) ≠ O ∧ main s = Joining ∧ f = false.
Proof.
  intros I Hw.
  destruct (visiting_insert (workers s) w _ (mkTask Idle f) Hw) as (rest & Hv & _).
  pose proof (inv_unfinished s I) as Hu. rewrite Hv in Hu. simpl in Hu.
  split; [lia|]. pose proof (inv_main s I) as Hm.
  destruct (main s).
  - destruct Hm as [Hws _]. by rewrite Hws in Hw.
  - eapply Forall_lookup_1 in Hm as [? _]; [|done]. done.
  - destruct Hm as [? _]. lia.
Qed.

Lemma acknowledge_invariant w u next c' s added urls :
  invariant s →
  workers s !! w = Some (mkTask (Visiting u) false) →
  admits (self s) c' added urls →
  (done c' = done (self s) ∨ done c' = done (self s) ∪ {[u]}) →
  Queue.unfinished_tasks (todo c')
  = (Queue.unfinished_tasks (todo (self s)) + length added)%nat →
  next = Idle →
  ∃ q, Queue.task_done (todo c') = Ok q
       ∧ acknowledge w next false c' s
         = mkSys (set_todo q c') (main s) (<[w := mkTask next false]> (workers s))
       ∧ invariant (acknowledge w next false c' s).
Proof.
  intros I Hw A Hd Hu ->.
  destruct (visiting_unfinished s w u false I Hw) as (Hne & Hm & _).
  unfold acknowledge.
  destruct (Queue.task_done (todo c')) as [q|] eqn:Hq.
  2:{ unfold Queue.task_done in Hq.
      destruct (Queue.unfinished_tasks (todo c')); [lia|done]. }
  exists q. split; [done|]. split; [done|].
  apply task_done_Ok in Hq as (Hit & Hpu & Hge & Hun & _).
  destruct (visiting_insert (workers s) w _ (mkTask Idle false) Hw)
    as (rest & Hv & Hv'). simpl in Hv, Hv'.
  pose proof (inv_visiting s I) as Hnd. rewrite Hv in Hnd.
  apply NoDup_cons in Hnd as [Hur Hnd].
  assert (∀ v, v ∈ rest → v ∈ visiting (workers s)) as Hin
    by (intros v Hv0; rewrite Hv; by right).
  assert (u ∈ visiting (workers s)) as Hu0 by (rewrite Hv; left).
  apply (admits_invariant s _ added urls); simpl; auto.
  - by apply admits_set_todo.
  - intros v Hv0. destruct Hd as [Hd|Hd]; rewrite Hd in Hv0.
    + by apply (inv_done s I).
    + apply elem_of_union in Hv0 as [?|Hv1].
      * by apply (inv_done s I).
      * apply elem_of_singleton in Hv1 as ->. by apply (inv_visited s I).
  - rewrite Hv', Hit. pose proof (inv_unfinished s I) as Hu'.
    rewrite Hv in Hu'. simpl in Hu'.
    rewrite (adm_items _ _ _ _ A), length_app. lia.
  - by rewrite Hv'.
  - intros v. rewrite Hv'. intros Hv0.
    destruct (inv_visited s I v (Hin v Hv0)) as [? Hnot]. split; [done|].
    destruct Hd as [Hd|Hd]; rewrite Hd; [done|].
    intros [?|Hv1]%elem_of_union; [done|].
    apply elem_of_singleton in Hv1 as ->. done.
  - apply Forall_insert; [|done]. apply (inv_alive s I).
  - rewrite Hm. pose proof (inv_main s I) as Hmn. rewrite Hm in Hmn.
    by apply Forall_insert.
Qed.

Lemma process_one_visit_invariant w r order s s' :
  invariant s → process_one_visit w r order s = Some s' → invariant s'.
Proof.
  intros I. unfold process_one_visit.
  destruct (workers s !! w) as [[[] []]|] eqn:Hw; try discriminate.
  destruct (crawl r order url (self s)) as [c'|e] eqn:Hc; intros [= <-].
  - destruct (crawl_admits _ _ _ _ _ Hc) as (added & urls & A & Hd & Hu).
    by destruct (acknowledge_invariant w url Idle c' s added urls)
      as (q & _ & _ & ?).
  - by destruct (acknowledge_invariant w url Idle (self s) s [] ∅)
      as (q & _ & _ & ?); auto using admits_refl.
Qed.

Lemma worker_cancelled_invariant w s s' :
  invariant s → worker_cancelled w s = Some s' → invariant s'.
Proof.
  intros I. unfold worker_cancelled.
  destruct (workers s !! w) as [[[] []]|] eqn:Hw; try discriminate.
  - intros [= <-].
    destruct (visiting_insert (workers s) w _ (mkTask Exited true) Hw)
      as (rest & Hv & Hv'). simpl in Hv, Hv'.
    assert (visiting (<[w:=mkTask Exited true]> (workers s))
            ≡ₚ visiting (workers s)) as Hp by (by rewrite Hv, Hv').
    destruct I as [Ififo Inodup Iseen Itotal Icap Iunf Ivis Ivisited Idone Ialive Imain].
    split; simpl; auto.
    + by rewrite Hp.
    + by rewrite Hp.
    + intros u. rewrite Hp. apply Ivisited.
    + by apply Forall_insert.
    + destruct (main s).
      * destruct Imain as [Hws _]. by rewrite Hws in Hw.
      * eapply Forall_lookup_1 in Imain as [? _]; [|done]. done.
      * destruct Imain. split; [done|]. by apply Forall_insert.
  - by destruct (visiting_unfinished s w url true I Hw) as (_ & _ & ?).
Qed.

Lemma exec_invariant a s s' : invariant s → exec a s = Some s' → invariant s'.
Proof.
  destruct a; simpl;
    eauto using run_start_invariant, run_finish_invariant,
      process_one_get_invariant, process_one_visit_invariant,
      worker_cancelled_invariant.
Qed.

Lemma execs_invariant acts : ∀ s, invariant s → invariant (execs acts s).
Proof.
  induction acts as [|a acts IH]; intros s I; [done|].
  simpl. apply IH. destruct (exec a s) eqn:E; simpl; [|done].
  by eapply exec_invariant.
Qed.

Lemma reachable_invariant k acts : invariant (execs acts (boot k)).
Proof. apply execs_invariant, boot_invariant. Qed.

(** ** What one step changes *)

Lemma admits_step_facts a s s' added urls :
  admits (self s) (self s') added urls →
  main s' ≠ NotStarted →
  (main s = NotStarted → urls = start_urls (self s)) →
  (∀ v, v ∈ visiting (workers s') →
        v ∈ visiting (workers s) ∨ v ∈ Queue.items (todo (self s))) →
  (done (self s') = done (self s)
   ∨ ∃ w u r order c',
       a = Visit w r order
       ∧ workers s !! w = Some (mkTask (Visiting u) false)
       ∧ crawl r order u (self s) = Ok c'
       ∧ done (self s') = done (self s) ∪ {[u]}) →
  step_facts a s s' added urls.
Proof.
  intros [Hit Hpu Hge Htot Hsn Hlim Hcls Hst Hwk Hnd Hnew Hmk Hcap] ? ? ? ?.
  split; auto. intros x. by rewrite Hge.
Qed.

Lemma not_started_idle s w t :
  invariant s → workers s !! w = Some t → main s ≠ NotStarted.
Proof.
  intros I Hw Hm. pose proof (inv_main s I) as Hi. rewrite Hm in Hi.
  destruct Hi as [Hws _]. by rewrite Hws in Hw.
Qed.

Lemma exec_facts a s s' :
  invariant s → exec a s = Some s' → ∃ added urls, step_facts a s s' added urls.
Proof.
  intros I. destruct a as [order| |w|w r order|w]; simpl.
  - unfold run_start. destruct (main s) eqn:Hm; try discriminate.
    destruct (on_found_links_admits order (start_urls (self s)) (self s))
      as (added & A & Hd & Hu).
    pose proof (inv_main s I) as Hi. rewrite Hm in Hi.
    destruct Hi as (Hws & _).
    intros Hs'. exists added, (start_urls (self s)).
    destruct (Queue.unfinished_tasks _); injection Hs' as <-;
      apply admits_step_facts; simpl; auto;
      rewrite ?visiting_cancel_all, visiting_replicate;
      by intros v ?%elem_of_nil.
  - unfold run_finish. destruct (main s) eqn:Hm; try discriminate.
    destruct (Queue.unfinished_tasks _); [|discriminate]. intros [= <-].
    exists [], ∅. apply admits_step_facts; simpl; auto using admits_refl.
    + by rewrite Hm.
    + rewrite visiting_cancel_all. auto.
  - unfold process_one_get.
    destruct (workers s !! w) as [[[] []]|] eqn:Hw; try discriminate.
    destruct (Queue.get (todo (self s))) as [[x q]|] eqn:Hq; [|discriminate].
    intros [= <-]. apply get_Some in Hq as (Hit & Hpu & Hge & Hun).
    destruct (visiting_insert (workers s) w _ (mkTask (Visiting x) false) Hw)
      as (rest & Hv & Hv'). simpl in Hv, Hv'.
    exists [], ∅. split; simpl; rewrite ?app_nil_r, ?union_empty_r_L; auto.
    + intros y Hy. rewrite Hge. apply elem_of_app. by left.
    + by intros y ?%elem_of_nil.
    + by eapply not_started_idle.
    + intros Hm. by eapply not_started_idle in Hm.
    + intros v. rewrite Hv', Hv, Hit, !elem_of_cons. tauto.
  - unfold process_one_visit.
    destruct (workers s !! w) as [[[] []]|] eqn:Hw; try discriminate.
    assert (∀ c' added urls,
      admits (self s) c' added urls →
      (done c' = done (self s) ∨ done c' = done (self s) ∪ {[url]}) →
      (done c' = done (self s) ∪ {[url]} → crawl r order url (self s) = Ok c') →
      Queue.unfinished_tasks (todo c')
      = (Queue.unfinished_tasks (todo (self s)) + length added)%nat →
      step_facts (Visit w r order) s (acknowledge w Idle false c' s) added urls)
      as Hack.
    { intros c' added urls A Hd Hok Hu.
      destruct (acknowledge_invariant w url Idle c' s added urls)
        as (q & Hq & -> & _); auto.
      apply task_done_Ok in Hq as (Hit & Hpu & Hge & Hun & _).
      destruct (visiting_insert (workers s) w _ (mkTask Idle false) Hw)
        as (rest & Hv & Hv'). simpl in Hv, Hv'.
      apply admits_step_facts; simpl.
      - by apply admits_set_todo.
      - by eapply not_started_idle.
      - intros Hm. by eapply not_started_idle in Hm.
      - intros v. rewrite Hv', Hv. left. by right.
      - destruct Hd as [Hd|Hd]; [by left|]. right.
        exists w, url, r, order, c'. auto. }
    destruct (crawl r order url (self s)) as [c'|e] eqn:Hc; intros [= <-].
    + destruct (crawl_admits _ _ _ _ _ Hc) as (added & urls & A & Hd & Hu).
      exists added, urls. by apply Hack.
    + exists [], ∅. apply Hack; auto using admits_refl.
      intros Hd. exfalso.
      assert (url ∈ done (self s)) as Hin
        by (rewrite Hd; apply elem_of_union; right; by apply elem_of_singleton).
      destruct (visiting_insert (workers s) w _ (mkTask Idle false) Hw)
        as (rest & Hv & _).
      assert (url ∈ visiting (workers s)) as Hv0 by (rewrite Hv; left).
      by destruct (inv_visited s I url Hv0).
  - unfold worker_cancelled.
    destruct (workers s !! w) as [[[] []]|] eqn:Hw; try discriminate.
    + intros [= <-].
      destruct (visiting_insert (workers s) w _ (mkTask Exited true) Hw)
        as (rest & Hv & Hv'). simpl in Hv, Hv'.
      exists [], ∅. apply admits_step_facts; simpl; auto using admits_refl.
      * by eapply not_started_idle.
      * intros Hm. by eapply not_started_idle in Hm.
      * intros v. rewrite Hv', Hv. auto.
    + by destruct (visiting_unfinished s w url true I Hw) as (_ & _ & ?).
Qed.

(** ** Facts that hold along every schedule *)

(** A property kept by every step holds after every schedule. *)
Lemma execs_ind (P : sys → Prop) :
  (∀ a s s', invariant s → P s → exec a s = Some s' → P s') →
  ∀ acts s, invariant s → P s → P (execs acts s).
Proof.
  intros Hstep acts. induction acts as [|a acts IH]; intros s I HP; [done|].
  simpl. destruct (exec a s) as [s'|] eqn:E; simpl; [|by apply IH].
  apply IH; [by eapply exec_invariant | by eapply Hstep].
Qed.

Lemma execs_app acts1 acts2 s : execs (acts1 ++ acts2) s = execs acts2 (execs acts1 s).
Proof. apply foldl_app. Qed.

(** What the constructor fixed stays fixed. *)
Lemma execs_frame acts s :
  invariant s →
  cls (self (execs acts s)) = cls (self s)
  ∧ limit (self (execs acts s)) = limit (self s)
  ∧ start_urls (self (execs acts s)) = start_urls (self s)
  ∧ num_workers (self (execs acts s)) = num_workers (self s).
Proof.
  intros I.
  apply (execs_ind (λ s', cls (self s') = cls (self s)
                         ∧ limit (self s') = limit (self s)
                         ∧ start_urls (self s') = start_urls (self s)
                         ∧ num_workers (self s') = num_workers (self s)));
    [|done|done].
  intros a s1 s2 I1 (? & ? & ? & ?) E.
  destruct (exec_facts a s1 s2 I1 E) as (added & urls & []).
  repeat split; congruence.
Qed.

(** The seen set and the done set only grow, and what was dequeued stays
    dequeued. *)
Lemma execs_mono acts s :
  invariant s →
  seen (self s) ⊆ seen (self (execs acts s))
  ∧ done (self s) ⊆ done (self (execs acts s))
  ∧ (∀ x, x ∈ Queue.gets (Queue.history (todo (self s))) →
          x ∈ Queue.gets (Queue.history (todo (self (execs acts s))))).
Proof.
  intros I.
  apply (execs_ind (λ s', seen (self s) ⊆ seen (self s')
     ∧ done (self s) ⊆ done (self s')
     ∧ (∀ x, x ∈ Queue.gets (Queue.history (todo (self s))) →
             x ∈ Queue.gets (Queue.history (todo (self s'))))));
    [|done|done].
  intros a s1 s2 I1 (Hs & Hd & Hg) E.
  destruct (exec_facts a s1 s2 I1 E) as (added & urls & F).
  destruct F as [_ Fg Fs _ _ _ _ _ _ _ _ _ Fd].
  split; [|split].
  - rewrite Fs. set_solver.
  - destruct Fd as [->|(? & ? & ? & ? & ? & _ & _ & _ & ->)]; set_solver.
  - intros x Hx. by apply Fg, Hg.
Qed.

(** The pool has the configured number of workers once [run] started. *)
Lemma execs_pool k acts :
  main (execs acts (boot k)) ≠ NotStarted →
  length (workers (execs acts (boot k)))
  = Z.to_nat (num_workers (construct k)).
Proof.
  apply (execs_ind (λ s, num_workers (self s) = num_workers (construct k)
     ∧ (main s ≠ NotStarted →
        length (workers s) = Z.to_nat (num_workers (construct k)))));
    [|apply boot_invariant|done].
  intros a s s' I (Hn & Hl) E.
  destruct (exec_facts a s s' I E) as (added & urls & F).
  split; [by rewrite (sf_workers _ _ _ _ _ F)|]. intros _.
  destruct a as [order| |w|w r order|w]; simpl in E.
  - unfold run_start in E. destruct (main s); try discriminate.
    rewrite <- Hn, <- (sf_workers _ _ _ _ _ F).
    destruct (Queue.unfinished_tasks _); injection E as <-;
      simpl; unfold cancel_all; by rewrite ?length_map, length_replicate.
  - unfold run_finish in E.
    destruct (main s) eqn:Hm; try discriminate.
    destruct (Queue.unfinished_tasks _); [|discriminate].
    injection E as <-. simpl. unfold cancel_all. rewrite length_map. by apply Hl.
  - assert (main s ≠ NotStarted) as Hm.
    { unfold process_one_get in E.
      destruct (workers s !! w) eqn:Hw; [|done]. by eapply not_started_idle. }
    rewrite <- (Hl Hm). unfold process_one_get in E.
    destruct (workers s !! w) as [[[] []]|]; try discriminate.
    destruct (Queue.get _) as [[]|]; [|discriminate].
    injection E as <-. simpl. apply length_insert.
  - assert (main s ≠ NotStarted) as Hm.
    { unfold process_one_visit in E.
      destruct (workers s !! w) eqn:Hw; [|done]. by eapply not_started_idle. }
    rewrite <- (Hl Hm). unfold process_one_visit in E.
    destruct (workers s !! w) as [[[] []]|]; try discriminate.
    destruct (crawl _ _ _ _); injection E as <-; unfold acknowledge;
      destruct (Queue.task_done _); simpl; apply length_insert.
  - assert (main s ≠ NotStarted) as Hm.
    { unfold worker_cancelled in E.
      destruct (workers s !! w) eqn:Hw; [|done]. by eapply not_started_idle. }
    rewrite <- (Hl Hm). unfold worker_cancelled in E.
    destruct (workers s !! w) as [[[] []]|]; try discriminate;
      injection E as <-; unfold acknowledge;
      try destruct (Queue.task_done _); simpl; apply length_insert.
Qed.

(** ** Admission and the frontier *)

(** C1. In every crawl, along every schedule, the addresses put on the
    queue are pairwise different, and so are the addresses taken from it;
    every address put on the queue is in the seen set. One call of
    [on_found_links] puts only addresses of [urls - seen], each once, and
    leaves every address of [urls] seen, so no later call puts them again. *)
Theorem enqueued_at_most_once (k : construction) (acts : list action) :
  let s := execs acts (boot k) in
  let h := Queue.history (todo (self s)) in
  NoDup (Queue.puts h)
  ∧ NoDup (Queue.gets h)
  ∧ (∀ x, x ∈ Queue.puts h → x ∈ seen (self s))
  ∧ ∀ order urls c, ∃ added,
      Queue.history (todo (on_found_links order urls c))
      = Queue.history (todo c) ++ map Queue.Put added
      ∧ NoDup added
      ∧ (∀ x, x ∈ added → x ∈ urls ∧ x ∉ seen c)
      ∧ seen (on_found_links order urls c) = seen c ∪ urls.
Proof.
  intros s h. pose proof (reachable_invariant k acts) as I. fold s in I.
  repeat split.
  - apply (inv_nodup s I).
  - pose proof (inv_gets_items s I) as H. by apply NoDup_app in H as [? _].
  - apply (inv_seen s I).
  - intros order urls c.
    destruct (on_found_links_push order urls c) as (added & -> & ? & ? & _).
    by exists added.
Qed.

(** The discovery counter stays below the cap, or at 0 under a negative
    cap. *)
Lemma counter_le_cap (k : construction) (acts : list action) :
  total (self (execs acts (boot k))) ≤ Z.max 0 (limit (construct k)).
Proof.
  pose proof (reachable_invariant k acts) as I.
  destruct (execs_frame acts (boot k) (boot_invariant k)) as (_ & Hl & _).
  simpl in Hl. rewrite <- Hl. apply (inv_cap _ I).
Qed.

(** C2, as the code has it. In every crawl, along every schedule, the done
    set is no larger than the seen set and no larger than the discovery
    counter, and the counter is at most the cap (at most 0 under a negative
    cap). The seen set is not bounded by the cap. *)
Theorem done_le_seen_and_counter (k : construction) (acts : list action) :
  let c := self (execs acts (boot k)) in
  (size (done c) ≤ size (seen c))%nat
  ∧ Z.of_nat (size (done c)) ≤ total c
  ∧ total c ≤ Z.max 0 (limit (construct k)).
Proof.
  cbv zeta. pose proof (reachable_invariant k acts) as I.
  set (s := execs acts (boot k)) in *.
  pose proof (inv_gets_items s I) as Hnd. apply NoDup_app in Hnd as (Hg & _ & _).
  pose proof (inv_fifo s I) as Hfifo.
  assert (done (self s)
          ⊆ list_to_set (Queue.gets (Queue.history (todo (self s))))) as Hd.
  { intros u Hu. apply elem_of_list_to_set. by apply (inv_done s I). }
  split; [|split].
  - apply subseteq_size. intros u Hu.
    apply (inv_seen s I). rewrite <- Hfifo. apply elem_of_app. left.
    by apply (inv_done s I).
  - rewrite (inv_total s I). apply subseteq_size in Hd.
    rewrite size_list_to_set in Hd by done.
    apply (f_equal length) in Hfifo. rewrite length_app in Hfifo. lia.
  - apply counter_le_cap.
Qed.

(** C2, as stated, fails: with the cap at 1 and two seeds the seen set has
    two elements after [run] has primed the queue. *)
Lemma seen_exceeds_cap :
  let s := execs [Run []]
             (boot (NewCrawler ["https://h/?p=1"; "https://h/?p=2"] None 5 1)) in
  limit (self s) = 1 ∧ size (seen (self s)) = 2%nat
  ∧ ¬ (Z.of_nat (size (seen (self s))) ≤ limit (self s)).
Proof. vm_compute. split; [done|]. split; [done|]. intros H. by apply H. Qed.

(** C3, as the code has it. The discovery counter starts at 0; it counts
    the addresses put on the queue; it never exceeds the cap when the cap is
    not negative, and stays at 0 when it is; and once it has reached the
    cap, [put_todo] changes nothing. *)
Theorem counter_bounded (k : construction) (acts : list action) :
  let c := self (execs acts (boot k)) in
  total (construct k) = 0
  ∧ total c = Z.of_nat (length (Queue.puts (Queue.history (todo c))))
  ∧ total c ≤ Z.max 0 (limit (construct k))
  ∧ (0 ≤ limit (construct k) → total c ≤ limit (construct k))
  ∧ (limit (construct k) < 0 → total c = 0)
  ∧ (∀ url c',
       put_todo url c' = c'
       ∨ (total (put_todo url c') = total c' + 1
          ∧ todo (put_todo url c') = Queue.put url (todo c')))
  ∧ ∀ url c', limit c' ≤ total c' → put_todo url c' = c'.
Proof.
  cbv zeta. pose proof (reachable_invariant k acts) as I.
  pose proof (counter_le_cap k acts) as Hle.
  pose proof (inv_total _ I) as Htot.
  repeat split.
  - by destruct k.
  - done.
  - done.
  - lia.
  - lia.
  - intros url c'. unfold put_todo, Crawler_put_todo, SpellReader_put_todo.
    destruct (cls c'), (limit c' <=? total c'), (Str.contains "?p=" url);
      simpl; auto.
  - intros url c' Hfull. unfold put_todo, Crawler_put_todo, SpellReader_put_todo.
    destruct (Z.leb_spec (limit c') (total c')); [|lia]. by destruct (cls c').
Qed.

(** C3, as stated, fails under a negative cap: the counter, which stays at
    0, is above it from the start. *)
Lemma counter_above_negative_cap :
  let s := execs [Run []] (boot (NewCrawler ["https://h/?p=1"] None 5 (-3))) in
  limit (self s) = -3 ∧ total (self s) = 0
  ∧ ¬ (total (self s) ≤ limit (self s)).
Proof. vm_compute. split; [done|]. split; [done|]. intros H. by apply H. Qed.


Lemma lookup_visiting ws w u f :
  ws !! w = Some (mkTask (Visiting u) f) → u ∈ visiting ws.
Proof.
  intros Hw. apply list_elem_of_omap. exists (mkTask (Visiting u) f).
  split; [by eapply list_elem_of_lookup_2|done].
Qed.

Lemma not_visiting_idle ws :
  visiting ws = [] →
  Forall (λ t, at_place t ≠ Crashed) ws →
  Forall (λ t, must_cancel t = false ∧ at_place t ≠ Exited) ws →
  Forall (λ t, t = mkTask Idle false) ws.
Proof.
  induction ws as [|[p f] ws IH]; intros Hv H1 H2; [constructor|].
  rewrite visiting_cons in Hv. apply app_eq_nil in Hv as [Hp Hv].
  apply Forall_cons in H1 as [? ?], H2 as [[? ?] ?]. simpl in *.
  constructor; [|by apply IH]. subst f. by destruct p.
Qed.

Lemma cancel_all_idle ws :
  Forall (λ t, t = mkTask Idle false) ws →
  Forall (λ t, t = mkTask Idle true) (cancel_all ws).
Proof.
  intros H. apply Forall_fmap. eapply Forall_impl; [done|]. by intros t ->.
Qed.

(** ** Failed visits *)

(** C7. While worker [w] is visiting [url], a visit that raises leaves the
    worker at the head of its loop, acknowledges the dequeue, and changes
    neither the seen set nor the done set; from then on, along every
    schedule, [url] stays in the seen set, out of the done set, off the queue
    and is visited by no worker, and no worker is ended by an exception.
    Whatever the outcome of a visit, the dequeue is acknowledged; and a step
    adds an address to the done set only when it is a visit of that address
    that completed. *)
Theorem failed_visit_is_dropped (k : construction) (acts : list action)
    (w : nat) (url : string) (r : response) (order : list string)
    (Hvisit : workers (execs acts (boot k)) !! w
              = Some (mkTask (Visiting url) false))
    (Hfail : raises (crawl r order url (self (execs acts (boot k)))) = true) :
  let s := execs acts (boot k) in
  (∃ s', exec (Visit w r order) s = Some s'
     ∧ workers s' !! w = Some (mkTask Idle false)
     ∧ Queue.history (todo (self s'))
       = Queue.history (todo (self s)) ++ [Queue.TaskDone]
     ∧ Queue.unfinished_tasks (todo (self s))
       = S (Queue.unfinished_tasks (todo (self s')))
     ∧ seen (self s') = seen (self s)
     ∧ done (self s') = done (self s)
     ∧ ∀ acts', let s'' := execs acts' s' in
         url ∈ seen (self s'')
         ∧ (url ∉ done (self s''))
         ∧ (url ∉ Queue.items (todo (self s'')))
         ∧ (url ∉ visiting (workers s''))
         ∧ Forall (λ t, at_place t ≠ Crashed) (workers s''))
  ∧ (∀ r' order', ∃ s' h,
       exec (Visit w r' order') s = Some s'
       ∧ workers s' !! w = Some (mkTask Idle false)
       ∧ Queue.history (todo (self s')) = h ++ [Queue.TaskDone])
  ∧ ∀ acts1 a s2,
      let s1 := execs acts1 (boot k) in
      exec a s1 = Some s2 →
      done (self s2) = done (self s1)
      ∨ ∃ w' u r' order' c',
          a = Visit w' r' order'
          ∧ workers s1 !! w' = Some (mkTask (Visiting u) false)
          ∧ crawl r' order' u (self s1) = Ok c'
          ∧ done (self s2) = done (self s1) ∪ {[u]}.
Proof.
  cbv zeta. set (s := execs acts (boot k)) in *.
  pose proof (reachable_invariant k acts) as I. fold s in I.
  assert (∀ c' added urls,
    admits (self s) c' added urls →
    (done c' = done (self s) ∨ done c' = done (self s) ∪ {[url]}) →
    Queue.unfinished_tasks (todo c')
    = (Queue.unfinished_tasks (todo (self s)) + length added)%nat →
    ∃ q, Queue.task_done (todo c') = Ok q
      ∧ acknowledge w Idle false c' s
        = mkSys (set_todo q c') (main s) (<[w:=mkTask Idle false]> (workers s))
      ∧ invariant (acknowledge w Idle false c' s)) as Hack.
  { intros. by eapply acknowledge_invariant. }
  assert (w < length (workers s))%nat as Hlt by (by eapply lookup_lt_Some).
  split; [|split].
  - destruct (crawl r order url (self s)) as [c'|e] eqn:Hc; [done|].
    destruct (Hack (self s) [] ∅) as (q & Hq & Hs' & I'); auto using admits_refl.
    exists (acknowledge w Idle false (self s) s).
    simpl. unfold process_one_visit. rewrite Hvisit, Hc. split; [done|].
    rewrite Hs' in *. simpl.
    apply task_done_Ok in Hq as (Hit & Hpu & Hge & Hun & Hh).
    split; [by apply list_lookup_insert_eq|].
    do 4 (split; [done|]).
    set (s' := mkSys _ _ _) in *. intros acts'.
    destruct (visiting_insert (workers s) w _ (mkTask Idle false) Hvisit)
      as (rest & Hv & Hv'). simpl in Hv, Hv'.
    pose proof (inv_visiting s I) as Hnd. rewrite Hv in Hnd.
    apply NoDup_cons in Hnd as [Hur _].
    assert (url ∈ visiting (workers s)) as Hin by (rewrite Hv; left).
    destruct (inv_visited s I url Hin) as [Hg Hd].
    assert (url ∈ Queue.gets (Queue.history (todo (self (execs acts' s'))))
            ∧ (url ∉ done (self (execs acts' s')))
            ∧ (url ∉ visiting (workers (execs acts' s')))) as (Hg' & Hd' & Hv'').
    { apply (execs_ind (λ t,
        url ∈ Queue.gets (Queue.history (todo (self t)))
        ∧ (url ∉ done (self t)) ∧ (url ∉ visiting (workers t)))); [|done|].
      - intros a t t' It (Htg & Htd & Htv) E.
        destruct (exec_facts a t t' It E) as (added & urls & F).
        pose proof (inv_gets_items t It) as Hnd.
        apply NoDup_app in Hnd as (_ & Hdisj & _).
        split; [by apply (sf_gets _ _ _ _ _ F)|]. split.
        + destruct (sf_done _ _ _ _ _ F)
            as [->|(w' & u & ? & ? & ? & _ & Hw' & _ & ->)]; [done|].
          apply lookup_visiting in Hw'.
          intros [?|Hu]%elem_of_union; [done|].
          apply elem_of_singleton in Hu as ->. done.
        + intros [?|?]%(sf_visiting _ _ _ _ _ F); [done|]. by eapply Hdisj.
      - unfold s'. simpl. rewrite Hge, Hv'. done. }
    pose proof (execs_invariant acts' s' I') as I''.
    pose proof (inv_gets_items _ I'') as Hnd.
    apply NoDup_app in Hnd as (_ & Hdisj & _).
    split; [|split; [done|split; [by apply Hdisj|split; [done|]]]].
    + apply (inv_seen _ I''). rewrite <- (inv_fifo _ I'').
      apply elem_of_app. by left.
    + apply (inv_alive _ I'').
  - intros r' order'. simpl. unfold process_one_visit. rewrite Hvisit.
    destruct (crawl r' order' url (self s)) as [c'|e] eqn:Hc.
    + destruct (crawl_admits _ _ _ _ _ Hc) as (added & urls & A & Hd & Hu).
      destruct (Hack c' added urls A Hd Hu) as (q & Hq & Hs' & _).
      apply task_done_Ok in Hq as (_ & _ & _ & _ & Hh).
      eexists _, _. split; [done|]. rewrite Hs'. simpl.
      split; [by apply list_lookup_insert_eq|done].
    + destruct (Hack (self s) [] ∅) as (q & Hq & Hs' & _); auto using admits_refl.
      apply task_done_Ok in Hq as (_ & _ & _ & _ & Hh).
      eexists _, _. split; [done|]. rewrite Hs'. simpl.
      split; [by apply list_lookup_insert_eq|done].
  - intros acts1 a s2 E.
    destruct (exec_facts a _ s2 (reachable_invariant k acts1) E)
      as (added & urls & F).
    apply (sf_done _ _ _ _ _ F).
Qed.

Lemma failed_visit_is_dropped_witness :
  ∃ s', exec (Visit 0 Failed [])
             (execs [Run []; Dequeue 0]
                (boot (NewCrawler ["https://h/?p=1"] None 2 25))) = Some s'
        ∧ "https://h/?p=1" ∈ seen (self (execs [Dequeue 0; Joined] s'))
        ∧ ("https://h/?p=1" ∉ done (self (execs [Dequeue 0; Joined] s'))).
Proof.
  destruct (failed_visit_is_dropped (NewCrawler ["https://h/?p=1"] None 2 25)
              [Run []; Dequeue 0] 0 "https://h/?p=1" Failed [])
    as ((s' & E & _ & _ & _ & _ & _ & H) & _).
  - vm_compute. reflexivity.
  - vm_compute. reflexivity.
  - exists s'. split; [exact E|].
    destruct (H [Dequeue 0; Joined]) as (? & ? & _). by split.
Defined.

(** ** [run] *)

(** Once [run] has returned, every worker has a cancellation pending or
    behind it. *)
Lemma returned_cancelling s :
  invariant s → main s = Returned → cancelling (workers s).
Proof.
  intros I Hr. pose proof (inv_main s I) as Hm. rewrite Hr in Hm.
  destruct Hm as [Hu Hf]. pose proof (inv_unfinished s I) as Hv.
  rewrite Hu in Hv. apply eq_sym, Nat.eq_add_0 in Hv as [_ Hv].
  apply nil_length_inv in Hv. pose proof (inv_alive s I) as Ha.
  apply Forall_lookup. intros i [p f] Hi.
  pose proof (Forall_lookup_1 _ _ _ _ Hf Hi) as Hf'.
  pose proof (Forall_lookup_1 _ _ _ _ Ha Hi) as Ha'. simpl in *. subst f.
  split; [done|]. destruct p as [|u| |]; auto; [|done].
  apply lookup_visiting in Hi. rewrite Hv in Hi. by apply elem_of_nil in Hi.
Qed.

(** Delivering the cancellation to the first [n] workers, one after the
    other, leaves each of them exited. *)
Lemma cancel_delivered n : ∀ s,
  (n ≤ length (workers s))%nat → cancelling (workers s) →
  let s' := execs (map Cancel (seq 0 n)) s in
  cancelling (workers s')
  ∧ length (workers s') = length (workers s)
  ∧ ∀ j t, (j < n)%nat → workers s' !! j = Some t → at_place t = Exited.
Proof.
  induction n as [|n IH]; intros s Hn Hc; cbv zeta.
  - split; [done|]. split; [done|]. intros j t Hj. lia.
  - rewrite seq_S, map_app, execs_app. simpl.
    assert (n ≤ length (workers s))%nat as Hn' by lia.
    pose proof (IH s Hn' Hc) as H. cbv zeta in H. destruct H as (Hc' & Hl & He).
    set (s1 := execs (map Cancel (seq 0 n)) s) in *.
    assert (n < length (workers s1))%nat as Hlt by lia.
    destruct (lookup_lt_is_Some_2 (workers s1) n Hlt) as [[p f] Hw].
    pose proof (Forall_lookup_1 _ _ _ _ Hc' Hw) as [Hf Hp]. simpl in Hf, Hp.
    subst f. unfold worker_cancelled. rewrite Hw.
    destruct Hp as [-> | ->]; simpl.
    + split; [apply Forall_insert; [done|simpl; auto]|].
      split; [by rewrite length_insert|].
      intros j t Hj. destruct (decide (j = n)) as [->|Hne].
      * rewrite list_lookup_insert_eq by lia. by intros [= <-].
      * rewrite list_lookup_insert_ne by done. apply He. lia.
    + split; [done|]. split; [done|].
      intros j t Hj. destruct (decide (j = n)) as [->|Hne].
      * rewrite Hw. by intros [= <-].
      * apply He. lia.
Qed.

(** C8, as the code has it. [run] first primes the queue with
    [on_found_links(start_urls)] and creates [num_workers] workers. It then
    stays in [todo.join()] as long as a task is unfinished, that is, as long
    as the queue holds an address or a worker is inside a visit. The step in
    which [run] returns requests the cancellation of every worker and leaves
    each of them suspended where it was: none has exited. Once [run] has
    returned the queue is empty and no worker is inside a visit; the workers
    exit afterwards, when the loop delivers the cancellation to each. *)
Theorem run_returns_on_join (k : construction) (acts : list action) :
  let s := execs acts (boot k) in
  (∀ order, ∃ s1,
      exec (Run order) (boot k) = Some s1
      ∧ self s1 = on_found_links order (start_urls (construct k)) (construct k)
      ∧ length (workers s1) = Z.to_nat (num_workers (construct k))
      ∧ main s1 ≠ NotStarted)
  ∧ (Queue.unfinished_tasks (todo (self s)) = O
     ↔ Queue.items (todo (self s)) = [] ∧ visiting (workers s) = [])
  ∧ (is_Some (exec Joined s)
     ↔ main s = Joining ∧ Queue.unfinished_tasks (todo (self s)) = O)
  ∧ (∀ a s', main s ≠ Returned → exec a s = Some s' → main s' = Returned →
       Queue.unfinished_tasks (todo (self s')) = O
       ∧ length (workers s') = Z.to_nat (num_workers (construct k))
       ∧ Forall (λ t, t = mkTask Idle true) (workers s'))
  ∧ (main s = Returned →
       Queue.items (todo (self s)) = [] ∧ visiting (workers s) = []
       ∧ Forall (λ t, must_cancel t = true) (workers s)
       ∧ Forall (λ t, at_place t = Exited)
           (workers (execs (map Cancel (seq 0 (length (workers s)))) s))).
Proof.
  cbv zeta. set (s := execs acts (boot k)).
  pose proof (reachable_invariant k acts) as I. fold s in I.
  assert (Queue.unfinished_tasks (todo (self s)) = O
          ↔ Queue.items (todo (self s)) = [] ∧ visiting (workers s) = []) as Hz.
  { rewrite (inv_unfinished s I). split.
    - intros H. apply Nat.eq_add_0 in H as [H1 H2].
      by apply nil_length_inv in H1, H2.
    - by intros [-> ->]. }
  split; [|split; [done|split; [|split]]].
  - intros order. simpl. unfold run_start. simpl.
    destruct (on_found_links_admits order (start_urls (construct k)) (construct k))
      as (added & A & _).
    pose proof (adm_workers _ _ _ _ A) as Hw.
    destruct (Queue.unfinished_tasks (todo (on_found_links _ _ _)));
      eexists; (split; [reflexivity|]);
      simpl; unfold cancel_all; by rewrite ?length_map, length_replicate, Hw.
  - simpl. unfold run_finish.
    destruct (main s), (Queue.unfinished_tasks (todo (self s)));
      split; try (by intros [? ?]); try (by intros [? [=]]); by intros [[=] ?].
  - intros a s' Hnr E Hr.
    assert (exec a s = Some s') as E0 by done.
    pose proof (exec_invariant a s s' I E) as I'.
    pose proof (inv_main s' I') as Hm'. rewrite Hr in Hm'. destruct Hm' as [Hu' _].
    split; [done|]. split.
    { assert (s' = execs (acts ++ [a]) (boot k)) as ->.
      { rewrite execs_app. fold s. simpl. by rewrite E. }
      apply execs_pool. by rewrite Hr. }
    destruct a as [order| |w|w r order|w]; simpl in E.
    + unfold run_start in E. destruct (main s); try discriminate.
      cbv zeta in E.
      destruct (Queue.unfinished_tasks (todo (on_found_links _ _ _)));
        injection E as <-; [|simpl in Hr; discriminate].
      simpl. apply cancel_all_idle. by apply Forall_replicate.
    + unfold run_finish in E. destruct (main s) eqn:Hm; try discriminate.
      destruct (Queue.unfinished_tasks (todo (self s))) eqn:Hu; [|discriminate].
      injection E as <-. simpl. apply cancel_all_idle.
      apply not_visiting_idle.
      * by apply Hz.
      * apply (inv_alive s I).
      * pose proof (inv_main s I) as Hj. by rewrite Hm in Hj.
    + unfold process_one_get in E.
      destruct (workers s !! w) as [[[] []]|]; try discriminate.
      destruct (Queue.get _) as [[]|]; [|discriminate].
      injection E as <-. by simpl in Hr.
    + unfold process_one_visit in E.
      destruct (workers s !! w) as [[[] []]|]; try discriminate.
      destruct (crawl _ _ _ _); injection E as <-; unfold acknowledge in Hr;
        destruct (Queue.task_done _); by simpl in Hr.
    + unfold worker_cancelled in E.
      destruct (workers s !! w) as [[[] []]|]; try discriminate;
        injection E as <-; unfold acknowledge in Hr;
        try destruct (Queue.task_done _); by simpl in Hr.
  - intros Hr. pose proof (inv_main s I) as Hm. rewrite Hr in Hm.
    destruct Hm as [Hu Hf]. apply Hz in Hu as [? ?].
    split; [done|]. split; [done|]. split; [done|].
    pose proof (cancel_delivered (length (workers s)) s (le_n _)
                  (returned_cancelling s I Hr)) as H1.
    cbv zeta in H1. destruct H1 as (_ & Hl & He).
    apply Forall_lookup. intros j t Hj. apply (He j t); [|done].
    rewrite <- Hl. by apply lookup_lt_Some in Hj.
Qed.

(** C8, as stated, fails: with the configuration of [main] the seed has no
    ["?p="], nothing is queued, and [run] returns in its first step while
    its five workers have not run, let alone exited. *)
Lemma run_returns_before_workers_exit :
  let s := execs [Run []]
             (boot (NewCrawler ["https://playorna.com/codex/spells/"] None 5 250)) in
  main s = Returned
  ∧ workers s = replicate 5 (mkTask Idle true)
  ∧ ¬ Forall (λ t, at_place t = Exited) (workers s).
Proof.
  vm_compute. split; [done|]. split; [done|].
  intros H. apply Forall_inv in H. discriminate.
Qed.

(** ** Seeds *)

(** C9. For the default crawler, a seed without ["?p="] is in the seen set
    as soon as [run] has started, and along every schedule it is never put
    on the queue, never taken from it, never visited and never done. *)
Theorem seed_without_marker_is_only_seen (urls : list string)
    (f : option callable) (workers_ limit_ : Z) (seed : string)
    (acts : list action)
    (Hseed : seed ∈ urls) (Hmarker : Str.contains "?p=" seed = false) :
  let s := execs acts (boot (NewCrawler urls f workers_ limit_)) in
  let h := Queue.history (todo (self s)) in
  (main s ≠ NotStarted → seed ∈ seen (self s))
  ∧ (∀ order, seed ∈ seen (self (execs (Run order :: acts)
                                   (boot (NewCrawler urls f workers_ limit_)))))
  ∧ (seed ∉ Queue.puts h)
  ∧ (seed ∉ Queue.gets h)
  ∧ (seed ∉ Queue.items (todo (self s)))
  ∧ (seed ∉ visiting (workers s))
  ∧ (seed ∉ done (self s)).
Proof.
  cbv zeta. set (k := NewCrawler urls f workers_ limit_).
  assert (∀ acts0, let s := execs acts0 (boot k) in
     cls (self s) = CrawlerClass
     ∧ (main s = NotStarted → seed ∈ start_urls (self s))
     ∧ (main s ≠ NotStarted → seed ∈ seen (self s))
     ∧ (seed ∉ Queue.puts (Queue.history (todo (self s))))) as Hall.
  { intros acts0. cbv zeta.
    apply (execs_ind (λ s, cls (self s) = CrawlerClass
     ∧ (main s = NotStarted → seed ∈ start_urls (self s))
     ∧ (main s ≠ NotStarted → seed ∈ seen (self s))
     ∧ (seed ∉ Queue.puts (Queue.history (todo (self s))))));
      [|apply boot_invariant|].
    - intros a s s' I (Hc & Hs & Hn & Hp) E.
      destruct (exec_facts a s s' I E) as (added & urls' & F).
      split; [by rewrite (sf_cls _ _ _ _ _ F)|]. split; [|split].
      + intros Hm. by destruct (sf_started _ _ _ _ _ F).
      + intros _. rewrite (sf_seen _ _ _ _ _ F). apply elem_of_union.
        destruct (main s) eqn:Hm.
        * right. rewrite (sf_seed _ _ _ _ _ F); auto.
        * left. by apply Hn.
        * left. by apply Hn.
      + rewrite (sf_puts _ _ _ _ _ F). intros [?|Hin]%elem_of_app; [done|].
        pose proof (sf_marker _ _ _ _ _ F Hc) as Hmk.
        rewrite Forall_forall in Hmk. apply Hmk in Hin. congruence.
    - simpl. repeat split; try done.
      + intros _. by apply elem_of_list_to_set.
      + by intros ?%elem_of_nil. }
  destruct (Hall acts) as (_ & _ & Hn & Hp).
  set (s := execs acts (boot k)) in *.
  pose proof (reachable_invariant k acts) as I. fold s in I.
  assert (seed ∉ Queue.gets (Queue.history (todo (self s)))) as Hg.
  { intros Hg. apply Hp. rewrite <- (inv_fifo s I). apply elem_of_app. by left. }
  split; [done|]. split; [|split; [done|split; [done|split; [|split]]]].
  - intros order. destruct (Hall (Run order :: acts)) as (_ & _ & Hn' & _).
    apply Hn'. change (Run order :: acts) with ([Run order] ++ acts).
    rewrite execs_app.
    apply (execs_ind (λ s, main s ≠ NotStarted)).
    + intros a s1 s2 I1 _ E.
      destruct (exec_facts a s1 s2 I1 E) as (added & urls' & F).
      apply (sf_started _ _ _ _ _ F).
    + apply reachable_invariant.
    + simpl. unfold run_start. simpl. by destruct (Queue.unfinished_tasks _).
  - intros Hi. apply Hp. rewrite <- (inv_fifo s I). apply elem_of_app. by right.
  - intros Hv. by apply (inv_visited s I) in Hv as [? _].
  - intros Hd. by apply (inv_done s I) in Hd.
Qed.

Lemma seed_without_marker_is_only_seen_witness :
  let s := execs [Run []; Dequeue 0]
    (boot (NewCrawler ["https://playorna.com/codex/spells/"] None 5 250)) in
  "https://playorna.com/codex/spells/" ∈ seen (self s)
  ∧ ("https://playorna.com/codex/spells/" ∉ done (self s)).
Proof.
  cbv zeta.
  destruct (seed_without_marker_is_only_seen
              ["https://playorna.com/codex/spells/"] None 5 250
              "https://playorna.com/codex/spells/" [Run []; Dequeue 0])
    as (Hs & _ & _ & _ & _ & _ & Hd).
  - apply list_elem_of_here.
  - vm_compute. reflexivity.
  - split; [|exact Hd]. apply Hs. vm_compute. discriminate.
Defined.

(** * Further properties of the code *)

(** ** One step, action by action *)

(** What one step does, action by action. *)
Lemma exec_cases a s s' :
  invariant s → exec a s = Some s' →
  (∃ order c, a = Run order ∧ main s = NotStarted
     ∧ c = on_found_links order (start_urls (self s)) (self s)
     ∧ s' = match Queue.unfinished_tasks (todo c) with
            | O => mkSys c Returned
                     (cancel_all (replicate (Z.to_nat (num_workers c))
                                            (mkTask Idle false)))
            | S _ => mkSys c Joining
                       (replicate (Z.to_nat (num_workers c)) (mkTask Idle false))
            end)
  ∨ (a = Joined ∧ main s = Joining
     ∧ Queue.unfinished_tasks (todo (self s)) = O
     ∧ s' = mkSys (self s) Returned (cancel_all (workers s)))
  ∨ (main s ≠ NotStarted
     ∧ ∃ w x q, a = Dequeue w
         ∧ workers s !! w = Some (mkTask Idle false)
         ∧ Queue.get (todo (self s)) = Some (x, q)
         ∧ s' = mkSys (set_todo q (self s)) (main s)
                      (<[w := mkTask (Visiting x) false]> (workers s)))
  ∨ (main s ≠ NotStarted
     ∧ ∃ w r order u c q, a = Visit w r order
         ∧ workers s !! w = Some (mkTask (Visiting u) false)
         ∧ (crawl r order u (self s) = Ok c
            ∨ (raises (crawl r order u (self s)) = true ∧ c = self s))
         ∧ Queue.task_done (todo c) = Ok q
         ∧ s' = mkSys (set_todo q c) (main s)
                      (<[w := mkTask Idle false]> (workers s)))
  ∨ (main s ≠ NotStarted
     ∧ ∃ w, a = Cancel w
         ∧ workers s !! w = Some (mkTask Idle true)
         ∧ s' = mkSys (self s) (main s)
                      (<[w := mkTask Exited true]> (workers s))).
Proof.
  intros I. destruct a as [order| |w|w r order|w]; simpl.
  - unfold run_start. destruct (main s) eqn:Hm; try discriminate.
    cbv zeta. intros E. left. eexists order, _. split; [done|]. split; [done|].
    split; [done|].
    by destruct (Queue.unfinished_tasks _); injection E as <-.
  - unfold run_finish. destruct (main s) eqn:Hm; try discriminate.
    destruct (Queue.unfinished_tasks _) eqn:Hu; [|discriminate]. intros [= <-].
    right. left. done.
  - unfold process_one_get.
    destruct (workers s !! w) as [[[] []]|] eqn:Hw; try discriminate.
    destruct (Queue.get (todo (self s))) as [[x q]|] eqn:Hq; [|discriminate].
    intros [= <-]. right. right. left.
    split; [by eapply not_started_idle|]. by exists w, x, q.
  - unfold process_one_visit.
    destruct (workers s !! w) as [[[] []]|] eqn:Hw; try discriminate.
    intros E. right. right. right. left.
    split; [by eapply not_started_idle|].
    destruct (crawl r order url (self s)) as [c'|e] eqn:Hc; injection E as <-.
    + destruct (crawl_admits _ _ _ _ _ Hc) as (added & urls & A & Hd & Hu).
      destruct (acknowledge_invariant w url Idle c' s added urls)
        as (q & Hq & -> & _); auto.
      exists w, r, order, url, c', q. repeat split; auto.
    + destruct (acknowledge_invariant w url Idle (self s) s [] ∅)
        as (q & Hq & -> & _); auto using admits_refl.
      exists w, r, order, url, (self s), q. rewrite Hc. repeat split; auto.
  - unfold worker_cancelled.
    destruct (workers s !! w) as [[[] []]|] eqn:Hw; try discriminate.
    + intros [= <-]. right. right. right. right.
      split; [by eapply not_started_idle|]. by exists w.
    + by destruct (visiting_unfinished s w url true I Hw) as (_ & _ & ?).
Qed.

(** What one step does to the crawler itself. *)
Lemma exec_self a s s' :
  invariant s → exec a s = Some s' →
  (∃ order, main s = NotStarted
     ∧ self s' = on_found_links order (start_urls (self s)) (self s))
  ∨ (main s ≠ NotStarted ∧ self s' = self s)
  ∨ (main s ≠ NotStarted
     ∧ ∃ x q, Queue.get (todo (self s)) = Some (x, q)
              ∧ self s' = set_todo q (self s))
  ∨ (main s ≠ NotStarted
     ∧ ∃ r order u c q,
         (crawl r order u (self s) = Ok c ∨ c = self s)
         ∧ Queue.task_done (todo c) = Ok q
         ∧ self s' = set_todo q c).
Proof.
  intros I E.
  destruct (exec_cases a s s' I E)
    as [(order & c & _ & Hm & -> & ->)|[(_ & Hm & _ & ->)
       |[(Hm & w & x & q & _ & _ & Hq & ->)
       |[(Hm & w & r & order & u & c & q & _ & _ & Hc & Hq & ->)
       |(Hm & w & _ & _ & ->)]]]].
  - left. exists order. split; [done|]. by destruct (Queue.unfinished_tasks _).
  - right. left. split; [by rewrite Hm|done].
  - right. right. left. split; [done|]. by exists x, q.
  - right. right. right. split; [done|]. exists r, order, u, c, q.
    split; [|done]. destruct Hc as [?|[_ ?]]; auto.
  - right. left. done.
Qed.

(** ** [UrlParser]: the links of a page *)

Lemma collect_Raise fo base e l : foldl (collect fo base) (Raise e) l = Raise e.
Proof. induction l as [|u l IH]; [done|]. simpl. apply IH. Qed.

Lemma handle_starttag_hrefs fo base found tag attrs :
  UrlParser.handle_starttag fo base found (tag, attrs)
  = foldl (collect fo base) (Ok found) (hrefs [(tag, attrs)]).
Proof.
  unfold UrlParser.handle_starttag, hrefs. simpl. rewrite app_nil_r.
  destruct (String.eqb tag "a"); simpl; [|done].
  generalize (Ok found : result (gset string)) as acc.
  induction attrs as [|[attr url] attrs IH]; intros acc; [done|].
  simpl. destruct (String.eqb_spec attr "href") as [->|Hne].
  - rewrite filter_cons_True by done. simpl. rewrite <- IH. f_equal.
  - rewrite filter_cons_False by done. rewrite <- IH. f_equal.
    simpl. by destruct acc.
Qed.

Lemma hrefs_app t1 t2 : hrefs (t1 ++ t2) = hrefs t1 ++ hrefs t2.
Proof. unfold hrefs. apply bind_app. Qed.

Lemma feed_hrefs fo base text :
  UrlParser.feed fo base text
  = found_links ← foldl (collect fo base) (Ok ∅) (hrefs (start_tags text));
    if gives_up text then Raise AssertionError else Ok found_links.
Proof.
  unfold UrlParser.feed. f_equal.
  generalize (Ok ∅ : result (gset string)) as acc.
  induction (start_tags text) as [|[tag attrs] tags IH]; intros acc; [done|].
  change ((tag, attrs) :: tags) with ([(tag, attrs)] ++ tags).
  rewrite hrefs_app, !foldl_app, IH. f_equal. simpl.
  destruct acc as [found|e]; simpl.
  - apply handle_starttag_hrefs.
  - by rewrite collect_Raise.
Qed.

Lemma collect_fold (f : callable) base l : ∀ A,
  match foldl (collect (Some f) base) (Ok A) l with
  | Ok found =>
      (∀ u, u ∈ l → raises (f base u) = false)
      ∧ ∀ x, x ∈ found ↔ x ∈ A ∨ ∃ u, u ∈ l ∧ f base u = Ok (Some x)
  | Raise e => ∃ u, u ∈ l ∧ f base u = Raise e
  end.
Proof.
  induction l as [|u l IH]; intros A; simpl.
  - split; [by intros u ?%elem_of_nil|]. intros x. split; [auto|].
    intros [?|(u & ?%elem_of_nil & _)]; done.
  - destruct (f base u) as [[y|]|e] eqn:E; simpl.
    + specialize (IH (A ∪ {[y]})).
      destruct (foldl _ _ l) as [found|e'].
      * destruct IH as [Hr Hx]. split.
        -- intros v [-> |Hv]%elem_of_cons; [by rewrite E|auto].
        -- intros x. rewrite Hx, elem_of_union, elem_of_singleton. split.
           ++ intros [[?| ->]|(v & Hv & Ev)]; auto.
              ** right. exists u. split; [left|done].
              ** right. exists v. split; [by right|done].
           ++ intros [?|(v & [-> |Hv]%elem_of_cons & Ev)]; auto.
              ** rewrite E in Ev. injection Ev as ->. auto.
              ** right. by exists v.
      * destruct IH as (v & Hv & Ev). exists v. split; [by right|done].
    + specialize (IH A). destruct (foldl _ _ l) as [found|e'].
      * destruct IH as [Hr Hx]. split.
        -- intros v [-> |Hv]%elem_of_cons; [by rewrite E|auto].
        -- intros x. rewrite Hx. split.
           ++ intros [?|(v & Hv & Ev)]; auto.
              right. exists v. split; [by right|done].
           ++ intros [?|(v & [-> |Hv]%elem_of_cons & Ev)]; auto.
              ** by rewrite E in Ev.
              ** right. by exists v.
      * destruct IH as (v & Hv & Ev). exists v. split; [by right|done].
    + rewrite collect_Raise. exists u. split; [left|done].
Qed.

(** What [feed] returns and what it raises, with a filter. *)
Lemma feed_cases (f : callable) base text :
  match UrlParser.feed (Some f) base text with
  | Ok found_links =>
      gives_up text = false
      ∧ (∀ url, url ∈ hrefs (start_tags text) → raises (f base url) = false)
      ∧ ∀ x, x ∈ found_links
             ↔ ∃ url, url ∈ hrefs (start_tags text) ∧ f base url = Ok (Some x)
  | Raise e =>
      (∃ url, url ∈ hrefs (start_tags text) ∧ f base url = Raise e)
      ∨ (e = AssertionError ∧ gives_up text = true
         ∧ ∀ url, url ∈ hrefs (start_tags text) → raises (f base url) = false)
  end.
Proof.
  rewrite feed_hrefs.
  pose proof (collect_fold f base (hrefs (start_tags text)) ∅) as H.
  destruct (foldl _ _ _) as [found|e]; simpl; [|by left].
  destruct H as [Hr Hx].
  destruct (gives_up text); [by right|].
  split; [done|]. split; [done|]. intros x. rewrite Hx.
  split; [intros [[]%not_elem_of_empty|]|]; auto.
Qed.

(** [parse_links]: when [HTMLParser] reads the text to its end and the
    filter raises on no [href] value of an [a] tag, the links found are
    exactly the addresses the filter returns for these values. The parse
    raises in two cases only: the filter raises on one of these values, and
    the parse raises the exception of the filter, or the filter raises on
    none and [HTMLParser] gives the text up with [AssertionError]. *)
Theorem parse_links_collects_accepted_hrefs (f : callable) (base : string)
    (text : markup) :
  match UrlParser.feed (Some f) base text with
  | Ok found_links =>
      gives_up text = false
      ∧ (∀ url, url ∈ hrefs (start_tags text) → raises (f base url) = false)
      ∧ ∀ x, x ∈ found_links
             ↔ ∃ url, url ∈ hrefs (start_tags text) ∧ f base url = Ok (Some x)
  | Raise e =>
      (∃ url, url ∈ hrefs (start_tags text) ∧ f base url = Raise e)
      ∨ (e = AssertionError ∧ gives_up text = true
         ∧ ∀ url, url ∈ hrefs (start_tags text) → raises (f base url) = false)
  end.
Proof. apply feed_cases. Qed.

(** Without a filter the first [href] of an [a] tag raises [TypeError]; a
    page without one yields no link, unless [HTMLParser] gives it up. *)
Lemma feed_no_filter base text :
  UrlParser.feed None base text
  = match hrefs (start_tags text) with
    | [] => if gives_up text then Raise AssertionError else Ok ∅
    | _ => Raise TypeError
    end.
Proof.
  rewrite feed_hrefs. destruct (hrefs (start_tags text)) as [|u l]; [done|].
  simpl. by rewrite collect_Raise.
Qed.

(** ** What a visit changes *)

Lemma on_found_links_fields order urls c :
  seen (on_found_links order urls c) = seen c ∪ urls
  ∧ done (on_found_links order urls c) = done c
  ∧ filter_url (on_found_links order urls c) = filter_url c
  ∧ langs (on_found_links order urls c) = langs c
  ∧ entries (on_found_links order urls c) = entries c
  ∧ cls (on_found_links order urls c) = cls c.
Proof.
  destruct (on_found_links_push order urls c) as (added & -> & _). done.
Qed.

(** A visit that completes, by class. *)
Lemma crawl_Ok r order u c c' :
  crawl r order u c = Ok c' →
  (cls c = CrawlerClass
   ∧ ∃ base tags found,
       r = Page base tags ∧ parse_links c base tags = Ok found
       ∧ c' = set_done (done c ∪ {[u]}) (on_found_links order found c))
  ∨ (cls c = SpellReaderClass
     ∧ ∃ fields,
         r = SpellPages fields ∧ length fields = length (langs c)
         ∧ c' = set_entries (entries c ++ [frame u (zip (langs c) fields)]) c).
Proof.
  unfold crawl, Crawler_crawl, SpellReader_crawl.
  destruct (cls c) eqn:Hcls.
  - destruct r as [|base tags|]; try discriminate.
    destruct (parse_links c base tags) as [found|] eqn:Hp; simpl; [|discriminate].
    intros [= <-]. left. split; [done|]. exists base, tags, found.
    split; [done|]. split; [done|].
    by destruct (on_found_links_fields order found c) as (_ & -> & _).
  - destruct r as [| |fields]; try discriminate.
    destruct (Nat.eqb_spec (length fields) (length (langs c))); [|discriminate].
    intros [= <-]. right. split; [done|]. by exists fields.
Qed.

(** What the constructor fixed stays fixed: the filter and the languages. *)
Lemma exec_config a s s' :
  invariant s → exec a s = Some s' →
  filter_url (self s') = filter_url (self s) ∧ langs (self s') = langs (self s).
Proof.
  intros I E.
  destruct (exec_self a s s' I E)
    as [(order & _ & ->)|[(_ & ->)|[(_ & x & q & _ & ->)
       |(_ & r & order & u & c & q & Hc & _ & ->)]]]; simpl; auto.
  - by destruct (on_found_links_fields order (start_urls (self s)) (self s))
      as (_ & _ & -> & -> & _).
  - destruct Hc as [Hc| ->]; [|done].
    destruct (crawl_Ok _ _ _ _ _ Hc)
      as [(_ & base & tags & found & _ & _ & ->)|(_ & fields & _ & _ & ->)];
      simpl; [|done].
    by destruct (on_found_links_fields order found (self s))
      as (_ & _ & -> & -> & _).
Qed.

(** What one step adds to the seen set. *)
Lemma exec_seen a s s' :
  invariant s → exec a s = Some s' →
  seen (self s') = seen (self s)
  ∨ (main s = NotStarted ∧ seen (self s') = seen (self s) ∪ start_urls (self s))
  ∨ (cls (self s) = CrawlerClass
     ∧ ∃ base tags found,
         parse_links (self s) base tags = Ok found
         ∧ seen (self s') = seen (self s) ∪ found).
Proof.
  intros I E.
  destruct (exec_self a s s' I E)
    as [(order & Hm & ->)|[(_ & ->)|[(_ & x & q & _ & ->)
       |(_ & r & order & u & c & q & Hc & _ & ->)]]]; simpl; auto.
  - right. left. split; [done|].
    by destruct (on_found_links_fields order (start_urls (self s)) (self s))
      as (-> & _).
  - destruct Hc as [Hc| ->]; [|auto].
    destruct (crawl_Ok _ _ _ _ _ Hc)
      as [(Hcls & base & tags & found & _ & Hp & ->)|(_ & fields & _ & _ & ->)];
      simpl; [|auto].
    right. right. split; [done|]. exists base, tags, found. split; [done|].
    by destruct (on_found_links_fields order found (self s)) as (-> & _).
Qed.

Lemma seen_from_filter (urls : list string) (f : callable)
    (workers_ limit_ : Z) (acts : list action) :
  set_Forall (λ x, x ∈ urls ∨ ∃ base url, f base url = Ok (Some x))
    (seen (self (execs acts (boot (NewCrawler urls (Some f) workers_ limit_))))).
Proof.
  set (k := NewCrawler urls (Some f) workers_ limit_).
  apply (execs_ind (λ s,
    filter_url (self s) = Some f
    ∧ start_urls (self s) = list_to_set urls
    ∧ set_Forall (λ x, x ∈ urls ∨ ∃ base url, f base url = Ok (Some x))
                 (seen (self s)))); [|apply boot_invariant|].
  - intros a s s' I (Hf & Hs & Hx) E.
    destruct (exec_config a s s' I E) as [Hf' _].
    destruct (exec_facts a s s' I E) as (added & urls' & F).
    split; [congruence|]. split; [by rewrite (sf_start _ _ _ _ _ F)|].
    destruct (exec_seen a s s' I E)
      as [->|[(_ & ->)|(_ & base & tags & found & Hp & ->)]]; [done| |].
    + apply set_Forall_union; [done|]. intros x Hx'. left.
      rewrite Hs in Hx'. by apply elem_of_list_to_set in Hx'.
    + apply set_Forall_union; [done|]. intros x Hx'. right.
      unfold parse_links in Hp. rewrite Hf in Hp.
      pose proof (feed_cases f base tags) as H.
      rewrite Hp in H. destruct H as (_ & _ & H).
      apply H in Hx' as (u & _ & Hu). by exists base, u.
  - simpl. split; [done|]. split; [done|]. by intros x ?%not_elem_of_empty.
Qed.

(** ** What the filter lets through *)

Lemma verdict_passes host_ok nfkc_ok self d x :
  verdict host_ok nfkc_ok self d = Ok (Some x) →
  x = d
  ∧ ∃ parsed,
      urllib.urlparse host_ok nfkc_ok x "" = Ok parsed
      ∧ UrlFilterer.rejects (UrlFilterer.allowed_schemes self)
          (urllib.scheme parsed) = false
      ∧ UrlFilterer.rejects (UrlFilterer.allowed_domains self)
          (urllib.netloc parsed) = false
      ∧ UrlFilterer.rejects (UrlFilterer.allowed_filetypes self)
          (pathlib.suffix (urllib.path parsed)) = false
      ∧ UrlFilterer.blocked (UrlFilterer.blocked_phrases self) x = false.
Proof.
  unfold verdict.
  destruct (urllib.urlparse host_ok nfkc_ok d "") as [p|] eqn:Ep; simpl; [|done].
  destruct (UrlFilterer.rejects (UrlFilterer.allowed_schemes self) _) eqn:E1;
    [done|].
  destruct (UrlFilterer.rejects (UrlFilterer.allowed_domains self) _) eqn:E2;
    [done|].
  destruct (UrlFilterer.rejects (UrlFilterer.allowed_filetypes self) _) eqn:E3;
    [done|].
  destruct (UrlFilterer.blocked (UrlFilterer.blocked_phrases self) d) eqn:E4;
    [done|].
  intros [= <-]. split; [done|]. by exists p.
Qed.

Lemma filter_url_passes host_ok nfkc_ok self base url x :
  UrlFilterer.filter_url host_ok nfkc_ok self base url = Ok (Some x) →
  passes host_ok nfkc_ok self x.
Proof.
  rewrite filter_url_verdict.
  destruct (urllib.urljoin host_ok nfkc_ok base url) as [j|]; simpl; [|done].
  destruct (urllib.urldefrag host_ok nfkc_ok j) as [[d fr]|] eqn:Ed; simpl; [|done].
  intros [-> H]%verdict_passes. split; [|done]. by eapply urldefrag_clean.
Qed.

Lemma bound_passes host_ok nfkc_ok self base url x :
  UrlFilterer_bound host_ok nfkc_ok self base url = Ok (Some x) →
  passes host_ok nfkc_ok self x.
Proof.
  unfold UrlFilterer_bound. destruct url as [url|].
  - apply filter_url_passes.
  - destruct (Str.is_empty base); [|apply filter_url_passes].
    by destruct (UrlFilterer.allowed_schemes self),
      (UrlFilterer.allowed_domains self).
Qed.

(** Every address a crawler has seen is one of its seeds or a value its
    filter returned for the address of a page and an [href] of that page.
    With a [UrlFilterer] for filter, every address seen, the seeds apart,
    therefore passes the rules as it stands: it holds no ['#'], [urlparse]
    reads it, its scheme, its netloc and the suffix of its path are allowed
    where a set is given, and it contains no blocked phrase. *)
Theorem discovered_addresses_pass_the_filter (urls : list string)
    (workers_ limit_ : Z) (acts : list action) :
  (∀ f : callable,
     let s := execs acts (boot (NewCrawler urls (Some f) workers_ limit_)) in
     set_Forall (λ x, x ∈ urls ∨ ∃ base url, f base url = Ok (Some x))
                (seen (self s)))
  ∧ ∀ host_ok nfkc_ok filterer,
      let s := execs acts
                 (boot (NewCrawler urls
                          (Some (UrlFilterer_bound host_ok nfkc_ok filterer))
                          workers_ limit_)) in
      set_Forall (λ x, x ∈ urls ∨ passes host_ok nfkc_ok filterer x) (seen (self s)).
Proof.
  split; [intros f; apply seen_from_filter|].
  intros host_ok nfkc_ok filterer. cbv zeta. intros x Hx.
  destruct (seen_from_filter urls _ workers_ limit_ acts x Hx)
    as [?|(base & url & H)]; [by left|].
  right. by eapply bound_passes.
Qed.

(** A rule that is set but empty rejects every address, unlike a rule that
    is not set: with an empty set of schemes, of domains or of file types,
    or with the empty string among the blocked phrases, [filter_url] returns
    no address at all. *)
Theorem degenerate_rule_rejects_everything (host_ok nfkc_ok : string → bool)
    (self : UrlFilterer.t) (base url x : string)
    (Hrule : UrlFilterer.allowed_schemes self = Some ∅
             ∨ UrlFilterer.allowed_domains self = Some ∅
             ∨ UrlFilterer.allowed_filetypes self = Some ∅
             ∨ ∃ phrases, UrlFilterer.blocked_phrases self = Some phrases
                          ∧ EmptyString ∈ phrases) :
  UrlFilterer.filter_url host_ok nfkc_ok self base url ≠ Ok (Some x).
Proof.
  intros (_ & p & _ & H1 & H2 & H3 & H4)%filter_url_passes.
  destruct Hrule as [E|[E|[E|(S & E & Hin)]]]; rewrite E in *; simpl in *.
  - apply bool_decide_eq_false in H1. apply H1. set_solver.
  - apply bool_decide_eq_false in H2. apply H2. set_solver.
  - apply bool_decide_eq_false in H3. apply H3. set_solver.
  - assert (UrlFilterer.blocked (Some S) x = true) as Hb; [|simpl in Hb; congruence].
    apply blocked_true. exists S, EmptyString. split; [done|]. split; [done|].
    by exists EmptyString, x.
Qed.

Lemma degenerate_rule_rejects_everything_witness :
  UrlFilterer.filter_url (λ _, true) (λ _, true)
    (UrlFilterer.mk None None None (Some {[EmptyString]}))
    "https://playorna.com/codex/" "spells/"
  ≠ Ok (Some "https://playorna.com/codex/spells/").
Proof.
  apply degenerate_rule_rejects_everything.
  right. right. right. exists {[EmptyString]}. split; [reflexivity|].
  by apply elem_of_singleton.
Defined.

(** ** How the visit of a page ends *)

Lemma bound_Ok host_ok nfkc_ok self base url :
  Str.is_empty base = false → tame base →
  from_option tame True url →
  ∃ r, UrlFilterer_bound host_ok nfkc_ok self base url = Ok r.
Proof.
  intros Hb [Hba [Hb1 Hb2]] Hu. unfold UrlFilterer_bound.
  destruct url as [url|]; simpl in Hu.
  - destruct Hu as [Hua [Hu1 Hu2]]. by apply filter_url_Ok.
  - rewrite Hb. by apply filter_url_Ok.
Qed.

(** How the visit of a page ends, for a crawler with a filter. The visit
    raises in two cases only: the filter raises on an [href] of an [a] tag
    of the page, and the visit raises the exception of the filter, or the
    filter raises on none and [HTMLParser] gives the text up with
    [AssertionError]. Otherwise the visit marks its address done and adds to
    the seen set exactly the addresses the filter returned. *)
Theorem page_visit_outcome (f : callable) (c : Crawler)
    (base url : string) (text : markup) (order : list string)
    (Hcls : cls c = CrawlerClass) (Hfilter : filter_url c = Some f) :
  match crawl (Page base text) order url c with
  | Raise e =>
      (∃ href, href ∈ hrefs (start_tags text) ∧ f base href = Raise e)
      ∨ (e = AssertionError ∧ gives_up text = true
         ∧ ∀ href, href ∈ hrefs (start_tags text) →
                   raises (f base href) = false)
  | Ok c' =>
      gives_up text = false
      ∧ (∀ href, href ∈ hrefs (start_tags text) → raises (f base href) = false)
      ∧ done c' = done c ∪ {[url]}
      ∧ ∀ x, x ∈ seen c'
             ↔ x ∈ seen c
               ∨ ∃ href, href ∈ hrefs (start_tags text)
                         ∧ f base href = Ok (Some x)
  end.
Proof.
  unfold crawl, Crawler_crawl, parse_links. rewrite Hcls, Hfilter.
  pose proof (feed_cases f base text) as H.
  destruct (UrlParser.feed (Some f) base text) as [found|e]; simpl; [|done].
  destruct H as (Hg & Hr & Hx). split; [done|]. split; [done|].
  destruct (on_found_links_fields order found c) as (Hs & Hd & _).
  split; [by rewrite Hd|]. intros x. by rewrite Hs, elem_of_union, Hx.
Qed.

Lemma page_visit_outcome_witness :
  match crawl (Page "https://h/"
                 (mkMarkup [("a", [("href", Some "?p=2")])] false)) []
              "https://h/?p=1"
              (Crawler_init ["https://h/?p=1"]
                 (Some (UrlFilterer_bound (λ _, true) (λ _, true) main_filterer))
                 5 250) with
  | Raise e =>
      (∃ href, href ∈ hrefs [("a", [("href", Some "?p=2")])]
               ∧ UrlFilterer_bound (λ _, true) (λ _, true) main_filterer
                   "https://h/" href = Raise e)
      ∨ (e = AssertionError ∧ false = true
         ∧ ∀ href, href ∈ hrefs [("a", [("href", Some "?p=2")])] →
                   raises (UrlFilterer_bound (λ _, true) (λ _, true)
                             main_filterer "https://h/" href) = false)
  | Ok c' =>
      false = false
      ∧ (∀ href, href ∈ hrefs [("a", [("href", Some "?p=2")])] →
                 raises (UrlFilterer_bound (λ _, true) (λ _, true) main_filterer
                           "https://h/" href) = false)
      ∧ done c' = ∅ ∪ {["https://h/?p=1"]}
      ∧ ∀ x, x ∈ seen c'
             ↔ x ∈ (∅ : gset string)
               ∨ ∃ href, href ∈ hrefs [("a", [("href", Some "?p=2")])]
                         ∧ UrlFilterer_bound (λ _, true) (λ _, true) main_filterer
                             "https://h/" href = Ok (Some x)
  end.
Proof.
  apply (page_visit_outcome
           (UrlFilterer_bound (λ _, true) (λ _, true) main_filterer)
           (Crawler_init ["https://h/?p=1"]
              (Some (UrlFilterer_bound (λ _, true) (λ _, true) main_filterer))
              5 250)
           "https://h/" "https://h/?p=1"
           (mkMarkup [("a", [("href", Some "?p=2")])] false) []);
    reflexivity.
Defined.

(** With a [UrlFilterer] for filter, the visit of a page that [HTMLParser]
    reads to its end fails only through square brackets or characters
    outside ASCII: when the address of the page, which is not empty, and the
    [href] values of its [a] tags are ASCII and hold no square bracket, the
    visit completes, whatever the rules of the filter, and whatever state
    the crawl is in, the worker is back at [todo.get()] with the address
    done. *)
Theorem tame_page_is_done (host_ok nfkc_ok : string → bool)
    (filterer : UrlFilterer.t) (urls : list string) (workers_ limit_ : Z)
    (acts : list action) (w : nat) (url base : string)
    (text : markup) (order : list string)
    (Hvisit :
       workers (execs acts
                  (boot (NewCrawler urls
                           (Some (UrlFilterer_bound host_ok nfkc_ok filterer))
                           workers_ limit_))) !! w
       = Some (mkTask (Visiting url) false))
    (Htext : gives_up text = false)
    (Hbase : Str.is_empty base = false ∧ tame base)
    (Hhrefs : Forall (from_option tame True) (hrefs (start_tags text))) :
  let s := execs acts
             (boot (NewCrawler urls
                      (Some (UrlFilterer_bound host_ok nfkc_ok filterer))
                      workers_ limit_)) in
  ∃ s', exec (Visit w (Page base text) order) s = Some s'
        ∧ workers s' !! w = Some (mkTask Idle false)
        ∧ url ∈ done (self s')
        ∧ raises (crawl (Page base text) order url (self s)) = false.
Proof.
  cbv zeta.
  set (k := NewCrawler urls (Some (UrlFilterer_bound host_ok nfkc_ok filterer))
                       workers_ limit_) in *.
  pose proof (reachable_invariant k acts) as I.
  destruct (execs_frame acts (boot k) (boot_invariant k)) as (Hcls & _).
  assert (filter_url (self (execs acts (boot k)))
          = Some (UrlFilterer_bound host_ok nfkc_ok filterer)) as Hf.
  { apply (execs_ind (λ s, filter_url (self s)
                           = Some (UrlFilterer_bound host_ok nfkc_ok filterer)));
      [|apply boot_invariant|done].
    intros a s1 s2 I1 H1 E. destruct (exec_config a s1 s2 I1 E) as [-> _]. done. }
  set (s := execs acts (boot k)) in *.
  destruct Hbase as [Hne Hbf].
  assert (∃ c', crawl (Page base text) order url (self s) = Ok c'
                ∧ done c' = done (self s) ∪ {[url]}) as (c' & Hc & Hd).
  { unfold crawl, Crawler_crawl, parse_links. rewrite Hcls, Hf. simpl.
    pose proof (feed_cases (UrlFilterer_bound host_ok nfkc_ok filterer) base
                  text) as H.
    destruct (UrlParser.feed _ base text) as [found|e]; simpl.
    - eexists. split; [done|]. simpl.
      by destruct (on_found_links_fields order found (self s)) as (_ & -> & _).
    - exfalso. destruct H as [(href & Hin & He)|(_ & Hg & _)]; [|congruence].
      rewrite Forall_forall in Hhrefs.
      destruct (bound_Ok host_ok nfkc_ok filterer base href Hne Hbf (Hhrefs _ Hin))
        as [r Hr]. congruence. }
  rewrite Hc. simpl. unfold process_one_visit. rewrite Hvisit, Hc.
  destruct (crawl_admits _ _ _ _ _ Hc) as (added & urls' & A & Hd' & Hu).
  destruct (acknowledge_invariant w url Idle c' s added urls')
    as (q & Hq & -> & _); auto.
  eexists. split; [done|]. simpl. split; [|split; [|done]].
  - apply list_lookup_insert_eq. by eapply lookup_lt_Some.
  - rewrite Hd. apply elem_of_union. right. by apply elem_of_singleton.
Qed.

Lemma tame_page_is_done_witness :
  ∃ s', exec (Visit 0 (Page "https://playorna.com/codex/spells/?p=1"
                            (mkMarkup [("a", [("href", Some "?p=2")])] false))
                      [])
             (execs [Run []; Dequeue 0]
                (boot (NewCrawler ["https://playorna.com/codex/spells/?p=1"]
                         (Some (UrlFilterer_bound (λ _, true) (λ _, true)
                                  main_filterer))
                         5 250)))
        = Some s'
        ∧ workers s' !! 0%nat = Some (mkTask Idle false)
        ∧ "https://playorna.com/codex/spells/?p=1" ∈ done (self s')
        ∧ raises (crawl (Page "https://playorna.com/codex/spells/?p=1"
                              (mkMarkup [("a", [("href", Some "?p=2")])] false))
                    []
                    "https://playorna.com/codex/spells/?p=1"
                    (self (execs [Run []; Dequeue 0]
                       (boot (NewCrawler
                                ["https://playorna.com/codex/spells/?p=1"]
                                (Some (UrlFilterer_bound (λ _, true) (λ _, true)
                                         main_filterer)) 5 250))))) = false.
Proof.
  apply (tame_page_is_done (λ _, true) (λ _, true) main_filterer
           ["https://playorna.com/codex/spells/?p=1"] 5 250
           [Run []; Dequeue 0] 0
           "https://playorna.com/codex/spells/?p=1"
           "https://playorna.com/codex/spells/?p=1"
           (mkMarkup [("a", [("href", Some "?p=2")])] false) []).
  - vm_compute. reflexivity.
  - reflexivity.
  - split; [reflexivity|]. split; [|split]; vm_compute; reflexivity.
  - repeat constructor.
Defined.

(** ** Crawlers without a filter, and readers *)

(** A crawler built without a filter never sees more than its seeds: on a
    page without an [href] in an [a] tag [parse_links] finds nothing, or
    raises [AssertionError] when [HTMLParser] gives the text up, and on any
    other page it raises [TypeError], which ends the visit. *)
Theorem crawler_without_filter_discovers_nothing (urls : list string)
    (workers_ limit_ : Z) (acts : list action) :
  let s := execs acts (boot (NewCrawler urls None workers_ limit_)) in
  seen (self s) ⊆ list_to_set urls
  ∧ ∀ base text,
      parse_links (self s) base text
      = match hrefs (start_tags text) with
        | [] => if gives_up text then Raise AssertionError else Ok ∅
        | _ => Raise TypeError
        end.
Proof.
  cbv zeta. set (k := NewCrawler urls None workers_ limit_).
  assert (filter_url (self (execs acts (boot k))) = None
          ∧ start_urls (self (execs acts (boot k))) = list_to_set urls
          ∧ seen (self (execs acts (boot k))) ⊆ list_to_set urls)
    as (Hf & _ & Hs).
  { apply (execs_ind (λ s, filter_url (self s) = None
      ∧ start_urls (self s) = list_to_set urls
      ∧ seen (self s) ⊆ list_to_set urls)); [|apply boot_invariant|].
    - intros a s s' I (Hf & Hs & Hx) E.
      destruct (exec_config a s s' I E) as [Hf' _].
      destruct (exec_facts a s s' I E) as (added & urls' & F).
      split; [congruence|]. split; [by rewrite (sf_start _ _ _ _ _ F)|].
      destruct (exec_seen a s s' I E)
        as [->|[(_ & ->)|(_ & base & text & found & Hp & ->)]]; [done| |].
      + rewrite Hs. set_solver.
      + unfold parse_links in Hp. rewrite Hf, feed_no_filter in Hp.
        destruct (hrefs (start_tags text)); [|discriminate].
        destruct (gives_up text); [discriminate|].
        injection Hp as <-. set_solver.
    - simpl. split; [done|]. split; [done|]. set_solver. }
  split; [done|]. intros base text. unfold parse_links.
  rewrite Hf. apply feed_no_filter.
Qed.

(** With the counter far enough below the limit, [SpellReader.put_todo]
    queues every address of a list. *)
Lemma reader_put_all l : ∀ c,
  cls c = SpellReaderClass →
  total c + Z.of_nat (length l) ≤ limit c →
  foldl (λ self url, put_todo url self) c l = push_all l c.
Proof.
  induction l as [|u l IH]; intros c Hc Hl; simpl.
  - by rewrite push_all_nil.
  - simpl in Hl. destruct (put_todo_push u c) as [E | (-> & _ & _)].
    + exfalso. unfold put_todo, SpellReader_put_todo in E. rewrite Hc in E.
      destruct (Z.leb_spec (limit c) (total c)); [lia|].
      apply (f_equal total) in E. simpl in E. lia.
    + rewrite IH; [apply push_all_cons|done|simpl; lia].
Qed.

Lemma iterate_length_le order (l : list string) :
  (length (iterate order (list_to_set l)) ≤ length l)%nat.
Proof.
  apply submseteq_length, NoDup_submseteq; [apply NoDup_iterate|].
  intros x. rewrite elem_of_iterate. apply elem_of_list_to_set.
Qed.

(** The state of a reader, step by step. *)
Lemma reader_state urls langs_ workers_ acts :
  let s := execs acts (boot (NewSpellReader urls langs_ workers_)) in
  cls (self s) = SpellReaderClass
  ∧ start_urls (self s) = list_to_set urls
  ∧ limit (self s) = Z.of_nat (length urls)
  ∧ done (self s) = ∅
  ∧ (main s ≠ NotStarted →
     seen (self s) = list_to_set urls
     ∧ ∃ order, Queue.puts (Queue.history (todo (self s)))
                = iterate order (list_to_set urls)).
Proof.
  cbv zeta. set (k := NewSpellReader urls langs_ workers_).
  apply (execs_ind (λ s, cls (self s) = SpellReaderClass
    ∧ start_urls (self s) = list_to_set urls
    ∧ limit (self s) = Z.of_nat (length urls)
    ∧ done (self s) = ∅
    ∧ (main s ≠ NotStarted →
       seen (self s) = list_to_set urls
       ∧ ∃ order, Queue.puts (Queue.history (todo (self s)))
                  = iterate order (list_to_set urls))));
    [|apply boot_invariant|done].
  intros a s s' I (Hcls & Hstart & Hlimit & Hd & Hm) E.
  destruct (exec_facts a s s' I E) as (added & urls' & F).
  split; [by rewrite (sf_cls _ _ _ _ _ F)|].
  split; [by rewrite (sf_start _ _ _ _ _ F)|].
  split; [by rewrite (sf_limit _ _ _ _ _ F)|].
  destruct (exec_self a s s' I E)
    as [(order & Hns & Hs')|[(Hns & Hs')|[(Hns & x & q & Hq & Hs')
       |(Hns & r & order & u & c & q & Hc & Hq & Hs')]]]; rewrite Hs'.
  - pose proof (inv_main s I) as Hi. rewrite Hns in Hi.
    destruct Hi as (_ & Htodo & Hseen & Hdone & Htot).
    assert (on_found_links order (start_urls (self s)) (self s)
            = push_all (iterate order (list_to_set urls))
                       (set_seen (list_to_set urls) (self s))) as ->.
    { unfold on_found_links.
      rewrite Hseen, Hstart, difference_empty_L, union_empty_l_L.
      apply reader_put_all; [done|]. simpl. rewrite Htot, Hlimit.
      pose proof (iterate_length_le order urls). lia. }
    simpl. split; [done|]. intros _. split; [done|]. exists order.
    by rewrite Htodo, puts_app, puts_Put.
  - auto.
  - simpl. split; [done|]. intros _. destruct (Hm Hns) as [Hsn (order & Hp)].
    split; [done|]. exists order.
    apply get_Some in Hq as (_ & -> & _). done.
  - simpl.
    assert (seen c = seen (self s) ∧ done c = done (self s)
            ∧ todo c = todo (self s)) as (Hcs & Hcd & Hct).
    { destruct Hc as [Hc| ->]; [|done].
      destruct (crawl_Ok _ _ _ _ _ Hc)
        as [(Hcls' & _)|(_ & fields & _ & _ & ->)]; [congruence|done]. }
    split; [congruence|]. intros _. destruct (Hm Hns) as [Hsn (order' & Hp)].
    split; [congruence|]. exists order'.
    apply task_done_Ok in Hq as (_ & -> & _). by rewrite Hct.
Qed.

(** A reader queues each address it was given, once, and nothing else; it
    never adds to its seen set, and never records an address as done. *)
Theorem reader_queues_every_address (urls langs_ : list string)
    (workers_ : Z) (acts : list action) :
  let s := execs acts (boot (NewSpellReader urls langs_ workers_)) in
  let h := Queue.history (todo (self s)) in
  done (self s) = ∅
  ∧ match main s with
    | NotStarted => Queue.puts h = [] ∧ seen (self s) = ∅
    | _ =>
        NoDup (Queue.puts h)
        ∧ (∀ x, x ∈ Queue.puts h ↔ x ∈ urls)
        ∧ seen (self s) = list_to_set urls
        ∧ total (self s) = Z.of_nat (size (list_to_set urls : gset string))
    end.
Proof.
  cbv zeta.
  destruct (reader_state urls langs_ workers_ acts) as (_ & _ & _ & Hd & Hm).
  pose proof (reachable_invariant (NewSpellReader urls langs_ workers_) acts) as I.
  set (s := execs acts (boot (NewSpellReader urls langs_ workers_))) in *.
  split; [done|].
  assert (main s ≠ NotStarted →
    NoDup (Queue.puts (Queue.history (todo (self s))))
    ∧ (∀ x, x ∈ Queue.puts (Queue.history (todo (self s))) ↔ x ∈ urls)
    ∧ seen (self s) = list_to_set urls
    ∧ total (self s) = Z.of_nat (size (list_to_set urls : gset string))) as H.
  { intros Hns. destruct (Hm Hns) as [Hs (order & Hp)].
    split; [apply (inv_nodup s I)|]. split; [|split; [done|]].
    - intros x. rewrite Hp, elem_of_iterate. apply elem_of_list_to_set.
    - rewrite (inv_total s I), Hp. f_equal.
      apply Permutation_length, NoDup_Permutation;
        [apply NoDup_iterate|apply NoDup_elements|].
      intros x. by rewrite elem_of_iterate, elem_of_elements. }
  pose proof (inv_main s I) as Hi.
  destruct (main s); [|by apply H|by apply H].
  destruct Hi as (_ & -> & -> & _). done.
Qed.

(** ** The frame of a reader's visit *)














(** ** The admission loop and the limit *)

Lemma eligible_cons k u l :
  eligible k (u :: l)
  = if match k with
       | CrawlerClass => Str.contains "?p=" u
       | SpellReaderClass => true
       end
    then u :: eligible k l else eligible k l.
Proof.
  destruct k; simpl; [|done].
  destruct (Str.contains "?p=" u) eqn:E.
  - by rewrite filter_cons_True.
  - rewrite filter_cons_False; [done|]. by rewrite E.
Qed.

Lemma put_todo_full l : ∀ c,
  limit c ≤ total c → foldl (λ self url, put_todo url self) c l = c.
Proof.
  induction l as [|u l IH]; intros c Hc; [done|]. simpl.
  assert (put_todo u c = c) as ->; [|by apply IH].
  unfold put_todo, Crawler_put_todo, SpellReader_put_todo.
  destruct (Z.leb_spec (limit c) (total c)); [|lia]. by destruct (cls c).
Qed.

Lemma put_todo_loop l : ∀ c,
  foldl (λ self url, put_todo url self) c l
  = push_all (take (Z.to_nat (limit c - total c)) (eligible (cls c) l)) c.
Proof.
  induction l as [|u l IH]; intros c.
  - cbn [foldl]. destruct (cls c); cbn [eligible];
      by rewrite ?filter_nil, take_nil, push_all_nil.
  - destruct (Z.le_gt_cases (limit c) (total c)) as [Hfull|Hroom].
    + rewrite put_todo_full by done.
      replace (Z.to_nat (limit c - total c)) with O by lia.
      by rewrite take_0, push_all_nil.
    + simpl foldl. rewrite eligible_cons.
      unfold put_todo at 2. unfold Crawler_put_todo, SpellReader_put_todo.
      destruct (Z.leb_spec (limit c) (total c)); [lia|].
      assert (Z.to_nat (limit c - total c)
              = S (Z.to_nat (limit c - (total c + 1)))) as Hs by lia.
      assert (set_todo (Queue.put u (todo c)) (set_total (total c + 1) c)
              = push_all [u] c) as Hpush.
      { unfold push_all, Queue.put. simpl.
        by rewrite Nat.add_1_r. }
      destruct (cls c) eqn:Hcls.
      * destruct (Str.contains "?p=" u) eqn:Hu; simpl negb; cbv iota.
        -- rewrite Hpush, IH.
           cbn [cls limit total push_all set_todo set_total length].
           change (Z.of_nat 1) with 1.
           rewrite Hcls, Hs, push_all_cons. done.
        -- rewrite IH. by rewrite Hcls.
      * rewrite Hpush, IH. cbn [cls limit total push_all set_todo set_total length].
        change (Z.of_nat 1) with 1.
        rewrite Hcls, Hs, push_all_cons. done.
Qed.

(** [on_found_links] records every address of [urls] as seen and queues, of
    the ones that are new, those that [put_todo] lets through, in the order
    in which the set is iterated, until the counter reaches the limit: the
    first [limit - total] of them, and no other. *)
Theorem on_found_links_queues_up_to_the_limit (order : list string)
    (urls : gset string) (c : Crawler) :
  let new := iterate order (urls ∖ seen c) in
  let added := take (Z.to_nat (limit c - total c)) (eligible (cls c) new) in
  on_found_links order urls c = push_all added (set_seen (seen c ∪ urls) c)
  ∧ Queue.items (todo (on_found_links order urls c))
    = Queue.items (todo c) ++ added
  ∧ total (on_found_links order urls c) = total c + Z.of_nat (length added)
  ∧ seen (on_found_links order urls c) = seen c ∪ urls.
Proof.
  cbv zeta. unfold on_found_links. rewrite put_todo_loop.
  cbn [cls limit total set_seen].
  assert (seen c ∪ urls ∖ seen c = seen c ∪ urls) as ->.
  { apply set_eq. intros x. rewrite !elem_of_union, elem_of_difference.
    destruct (decide (x ∈ seen c)); tauto. }
  done.
Qed.

(** [run] waits in [todo.join()] only if something was queued. *)
Lemma joining_queued k acts :
  main (execs acts (boot k)) = Joining →
  Queue.puts (Queue.history (todo (self (execs acts (boot k))))) ≠ [].
Proof.
  apply (execs_ind (λ s, main s = Joining →
    Queue.puts (Queue.history (todo (self s))) ≠ []));
    [|apply boot_invariant|done].
  intros a s s' I H E Hm'.
  destruct (exec_facts a s s' I E) as (added & urls' & F).
  destruct (exec_cases a s s' I E)
    as [(order & c & _ & Hm & Hc & Hs')|[(_ & Hm & _ & Hs')
       |[(Hm & w & x & q & _ & _ & Hq & Hs')
       |[(Hm & w & r & o & u & c & q & _ & Hw & Hc & Hq & Hs')
       |(Hm & w & _ & _ & Hs')]]]].
  - destruct (on_found_links_admits order (start_urls (self s)) (self s))
      as (added' & A & _ & Hu). rewrite <- Hc in A, Hu.
    pose proof (inv_main s I) as Hi. rewrite Hm in Hi.
    destruct Hi as (_ & Ht & _). rewrite Ht in Hu. simpl in Hu.
    assert (self s' = c) as Hself
      by (rewrite Hs'; by destruct (Queue.unfinished_tasks (todo c))).
    rewrite Hself, (adm_puts _ _ _ _ A), Ht. simpl.
    rewrite Hs' in Hm'. destruct (Queue.unfinished_tasks (todo c)); [done|].
    destruct added'; [done|discriminate].
  - rewrite Hs' in Hm'. discriminate.
  - rewrite Hs' in Hm'. simpl in Hm'. rewrite (sf_puts _ _ _ _ _ F).
    intros [? _]%app_eq_nil. by apply H.
  - rewrite Hs' in Hm'. simpl in Hm'. rewrite (sf_puts _ _ _ _ _ F).
    intros [? _]%app_eq_nil. by apply H.
  - rewrite Hs' in Hm'. simpl in Hm'. rewrite (sf_puts _ _ _ _ _ F).
    intros [? _]%app_eq_nil. by apply H.
Qed.

(** Once [run] has been started it stays started. *)
Lemma run_started k order acts :
  main (execs (Run order :: acts) (boot k)) ≠ NotStarted.
Proof.
  change (Run order :: acts) with ([Run order] ++ acts). rewrite execs_app.
  apply (execs_ind (λ s, main s ≠ NotStarted)).
  - intros a s1 s2 I1 _ E.
    destruct (exec_facts a s1 s2 I1 E) as (added & urls' & F).
    apply (sf_started _ _ _ _ _ F).
  - apply reachable_invariant.
  - simpl. unfold run_start. simpl. by destruct (Queue.unfinished_tasks _).
Qed.

(** Under a limit that is not positive nothing is ever queued, visited or
    done, and [run] returns in its first step; so does the [run] of a
    reader that was given no address. *)
Theorem nonpositive_limit_admits_nothing (k : construction)
    (acts : list action) (Hlimit : limit (construct k) ≤ 0) :
  let s := execs acts (boot k) in
  let h := Queue.history (todo (self s)) in
  Queue.puts h = [] ∧ Queue.gets h = []
  ∧ done (self s) = ∅
  ∧ visiting (workers s) = []
  ∧ main s ≠ Joining
  ∧ ∀ order, main (execs (Run order :: acts) (boot k)) = Returned.
Proof.
  cbv zeta.
  assert (∀ acts',
            Queue.puts (Queue.history (todo (self (execs acts' (boot k))))) = [])
    as Hp.
  { intros acts'. pose proof (counter_le_cap k acts') as Hle.
    rewrite (inv_total _ (reachable_invariant k acts')) in Hle.
    destruct (Queue.puts _); [done|simpl in Hle; lia]. }
  assert (∀ acts', main (execs acts' (boot k)) ≠ Joining) as Hj.
  { intros acts' Hm. by apply (joining_queued k acts' Hm). }
  pose proof (reachable_invariant k acts) as I. pose proof (Hp acts) as Hpa.
  set (s := execs acts (boot k)) in *.
  pose proof (inv_fifo s I) as Hf. rewrite Hpa in Hf.
  apply app_eq_nil in Hf as [Hg Hi].
  assert (visiting (workers s) = []) as Hv.
  { destruct (visiting (workers s)) as [|u vs] eqn:Hv; [done|].
    assert (u ∈ visiting (workers s)) as Hu by (rewrite Hv; left).
    apply (inv_visited s I) in Hu as [Hu _]. rewrite Hg in Hu.
    by apply elem_of_nil in Hu. }
  split; [done|]. split; [done|]. split; [|split; [done|split; [apply Hj|]]].
  - apply set_eq. intros x. split; [|by intros ?%not_elem_of_empty].
    intros Hx. apply (inv_done s I) in Hx. rewrite Hg in Hx.
    by apply elem_of_nil in Hx.
  - intros order. pose proof (run_started k order acts) as Hns.
    specialize (Hj (Run order :: acts)).
    by destruct (main (execs (Run order :: acts) (boot k))).
Qed.

Lemma nonpositive_limit_admits_nothing_witness :
  main (execs [Run []; Dequeue 0]
          (boot (NewCrawler ["https://h/?p=1"] None 2 0))) = Returned.
Proof.
  destruct (nonpositive_limit_admits_nothing
              (NewCrawler ["https://h/?p=1"] None 2 0) [Dequeue 0])
    as (_ & _ & _ & _ & _ & H).
  - vm_compute. discriminate.
  - apply (H []).
Defined.

(** ** Termination *)








(** ** Progress *)

Lemma crawl_Failed order u c : crawl Failed order u c = Raise FetchError.
Proof. unfold crawl. by destruct (cls c). Qed.

(** A worker inside a visit can always finish it: the fetch may fail. *)
Lemma visit_fails w u s :
  invariant s → workers s !! w = Some (mkTask (Visiting u) false) →
  ∃ q, Queue.task_done (todo (self s)) = Ok q
       ∧ exec (Visit w Failed []) s
         = Some (mkSys (set_todo q (self s)) (main s)
                       (<[w := mkTask Idle false]> (workers s))).
Proof.
  intros I Hw. simpl. unfold process_one_visit. rewrite Hw, crawl_Failed.
  destruct (acknowledge_invariant w u Idle (self s) s [] ∅)
    as (q & Hq & -> & _); auto using admits_refl.
  by exists q.
Qed.

Lemma visiting_lookup ws u :
  u ∈ visiting ws → ∃ w f, ws !! w = Some (mkTask (Visiting u) f).
Proof.
  unfold visiting. rewrite list_elem_of_omap. intros ([p f] & Hin & Hp).
  simpl in Hp. destruct p; try discriminate. injection Hp as ->.
  apply list_elem_of_lookup in Hin as [w Hw]. by exists w, f.
Qed.

Lemma cancels_main l : ∀ s, main (execs (map Cancel l) s) = main s.
Proof.
  induction l as [|w l IH]; intros s; [done|]. simpl. rewrite IH.
  unfold worker_cancelled.
  destruct (workers s !! w) as [[[] []]|]; try done.
  simpl. unfold acknowledge. by destruct (Queue.task_done _).
Qed.

(** While [run] waits in [todo.join()], with at least one worker, the
    workers can empty the queue and let [run] return. *)
Lemma drain n : ∀ s,
  invariant s → main s = Joining → workers s ≠ [] →
  (2 * length (Queue.items (todo (self s))) + length (visiting (workers s))
   ≤ n)%nat →
  ∃ more, main (execs more s) = Returned.
Proof.
  induction n as [|n IH]; intros s I Hm Hws Hn.
  - exists [Joined]. simpl. unfold run_finish. rewrite Hm.
    rewrite (inv_unfinished s I).
    destruct (Queue.items (todo (self s))); [|simpl in Hn; lia].
    destruct (visiting (workers s)); [|simpl in Hn; lia]. done.
  - destruct (visiting (workers s)) as [|u vs] eqn:Hv.
    + destruct (Queue.items (todo (self s))) as [|x rest] eqn:Hit.
      * exists [Joined]. simpl. unfold run_finish.
        by rewrite Hm, (inv_unfinished s I), Hit, Hv.
      * destruct (workers s) as [|[p f] ws] eqn:Hw; [done|].
        pose proof (inv_main s I) as Hi. rewrite Hm, Hw in Hi.
        apply Forall_inv in Hi as [Hf Hp]. simpl in Hf, Hp. subst f.
        pose proof (inv_alive s I) as Ha. rewrite Hw in Ha.
        apply Forall_inv in Ha. simpl in Ha.
        assert (p = Idle) as -> by (by destruct p).
        assert (exec (Dequeue 0) s
                = Some (mkSys (set_todo (Queue.mk rest
                                  (Queue.unfinished_tasks (todo (self s)))
                                  (Queue.history (todo (self s)) ++ [Queue.Get x]))
                                (self s))
                              Joining (mkTask (Visiting x) false :: ws))) as E.
        { simpl. unfold process_one_get, Queue.get. by rewrite Hw, Hit, Hm. }
        pose proof (exec_invariant _ _ _ I E) as I'.
        destruct (IH _ I') as [more Hmore]; try done.
        -- unfold set_todo. cbn [self workers todo Queue.items].
           rewrite (visiting_cons (mkTask (Visiting x) false) ws).
           rewrite (visiting_cons (mkTask Idle false) ws) in Hv.
           unfold vis in *. cbn [at_place app] in *. rewrite Hv.
           cbn [length] in *. lia.
        -- exists (Dequeue 0 :: more).
           change (Dequeue 0 :: more) with ([Dequeue 0] ++ more).
           rewrite execs_app.
           change (execs [Dequeue 0] s) with (default s (exec (Dequeue 0) s)).
           by rewrite E.
    + assert (u ∈ visiting (workers s)) as Hu by (rewrite Hv; left).
      destruct (visiting_lookup _ _ Hu) as (w & f & Hw).
      destruct (visiting_unfinished s w u f I Hw) as (_ & _ & ->).
      destruct (visit_fails w u s I Hw) as (q & Hq & E).
      pose proof (exec_invariant _ _ _ I E) as I'.
      apply task_done_Ok in Hq as (Hit & _).
      destruct (visiting_insert (workers s) w _ (mkTask Idle false) Hw)
        as (rest & Hvr & Hvr'). simpl in Hvr, Hvr'.
      destruct (IH _ I') as [more Hmore]; try done.
      * simpl. intros Hnil. apply (f_equal length) in Hnil.
        rewrite length_insert in Hnil. by destruct (workers s).
      * simpl. rewrite Hit, Hvr'. rewrite Hv in Hvr.
        apply Permutation_length in Hvr. simpl in Hvr, Hn. lia.
      * exists (Visit w Failed [] :: more).
        change (Visit w Failed [] :: more) with ([Visit w Failed []] ++ more).
        rewrite execs_app.
        change (execs [Visit w Failed []] s)
          with (default s (exec (Visit w Failed []) s)).
        by rewrite E.
Qed.

(** With at least one worker no crawl is ever stuck: from wherever a
    schedule has brought it, the crawl can go on until [run] has returned
    and every worker has left its loop. *)
Theorem crawl_can_finish (k : construction) (acts : list action)
    (Hworkers : 1 ≤ num_workers (construct k)) :
  ∃ more,
    let s := execs (acts ++ more) (boot k) in
    main s = Returned ∧ Forall (λ t, at_place t = Exited) (workers s).
Proof.
  pose proof (reachable_invariant k acts) as I0.
  assert (∃ m1, main (execs (acts ++ m1) (boot k)) = Returned) as [m1 Hr].
  { assert (∃ m1, main (execs m1 (execs acts (boot k))) = Returned) as [m1 Hr];
      [|exists m1; by rewrite execs_app].
    destruct (execs_frame acts (boot k) (boot_invariant k)) as (_ & _ & _ & Hnw).
    set (s0 := execs acts (boot k)) in *.
    destruct (main s0) eqn:Hm.
    - destruct (exec (Run []) s0) as [s1|] eqn:E.
      2:{ simpl in E. unfold run_start in E. rewrite Hm in E.
          by destruct (Queue.unfinished_tasks _). }
      pose proof (exec_invariant _ _ _ I0 E) as I1.
      assert (execs [Run []] s0 = s1) as E1.
      { change (execs [Run []] s0) with (default s0 (exec (Run []) s0)).
        by rewrite E. }
      destruct (main s1) eqn:Hm1.
      + destruct (exec_facts _ _ _ I0 E) as (? & ? & F).
        by destruct (sf_started _ _ _ _ _ F).
      + destruct (drain (2 * length (Queue.items (todo (self s1)))
                         + length (visiting (workers s1))) s1 I1 Hm1)
          as [more Hmore]; [|lia|].
        * destruct (exec_cases _ _ _ I0 E)
            as [(order & c & _ & _ & Hc & Hs1)|[(? & _)
               |[(_ & ? & ? & ? & ? & _)|[(_ & ? & ? & ? & ? & ? & ? & ? & _)
               |(_ & ? & ? & _)]]]]; try discriminate.
          destruct (on_found_links_admits order (start_urls (self s0)) (self s0))
            as (added & A & _). rewrite <- Hc in A.
          pose proof (adm_workers _ _ _ _ A) as Hn.
          rewrite Hs1 in Hm1 |- *.
          destruct (Queue.unfinished_tasks (todo c)); [done|]. simpl.
          rewrite Hn, Hnw. simpl in Hworkers.
          destruct (Z.to_nat (num_workers (construct k))) eqn:Ez; [lia|].
          change (self (boot k)) with (construct k). rewrite Ez. discriminate.
        * exists (Run [] :: more).
          change (Run [] :: more) with ([Run []] ++ more).
          by rewrite execs_app, E1.
      + exists [Run []]. by rewrite E1.
    - destruct (drain (2 * length (Queue.items (todo (self s0)))
                       + length (visiting (workers s0))) s0 I0 Hm)
        as [more Hmore]; [|lia|by exists more].
      intros Hnil. apply (f_equal length) in Hnil.
      unfold s0 in Hnil. rewrite execs_pool in Hnil.
      + simpl in Hnil. lia.
      + fold s0. by rewrite Hm.
    - by exists []. }
  set (s1 := execs (acts ++ m1) (boot k)) in *.
  pose proof (reachable_invariant k (acts ++ m1)) as I1. fold s1 in I1.
  set (m2 := map Cancel (seq 0 (length (workers s1)))).
  exists (m1 ++ m2). cbv zeta. rewrite app_assoc, execs_app. fold s1.
  split; [unfold m2; by rewrite cancels_main|].
  pose proof (cancel_delivered (length (workers s1)) s1 (le_n _)
                (returned_cancelling s1 I1 Hr)) as H.
  cbv zeta in H. destruct H as (_ & Hl & He). fold m2 in Hl, He.
  apply Forall_lookup. intros j t Hj. apply (He j t); [|done].
  rewrite <- Hl. by apply lookup_lt_Some in Hj.
Qed.

Lemma crawl_can_finish_witness :
  ∃ more,
    let s := execs ([Run []; Dequeue 0] ++ more)
                   (boot (NewCrawler ["https://h/?p=1"] None 2 5)) in
    main s = Returned ∧ Forall (λ t, at_place t = Exited) (workers s).
Proof.
  apply (crawl_can_finish (NewCrawler ["https://h/?p=1"] None 2 5)
           [Run []; Dequeue 0]).
  vm_compute. discriminate.
Defined.

(** Without workers nothing is ever dequeued. *)
Lemma no_workers_no_gets k acts :
  num_workers (construct k) ≤ 0 →
  let s := execs acts (boot k) in
  workers s = [] ∧ Queue.gets (Queue.history (todo (self s))) = [].
Proof.
  intros Hw. cbv zeta.
  assert (num_workers (self (execs acts (boot k))) = num_workers (construct k)
          ∧ workers (execs acts (boot k)) = []
          ∧ Queue.gets (Queue.history (todo (self (execs acts (boot k))))) = [])
    as (_ & ? & ?); [|done].
  apply (execs_ind (λ s, num_workers (self s) = num_workers (construct k)
    ∧ workers s = []
    ∧ Queue.gets (Queue.history (todo (self s))) = []));
    [|apply boot_invariant|by destruct k].
  intros a s s' I (Hn & Hws & Hg) E.
  destruct (exec_facts a s s' I E) as (added & urls' & F).
  split; [by rewrite (sf_workers _ _ _ _ _ F)|].
  destruct (exec_cases a s s' I E)
    as [(order & c & _ & Hm & Hc & ->)|[(_ & Hm & _ & ->)
       |[(Hm & w & x & q & _ & Hw' & Hq & ->)
       |[(Hm & w & r & order & u & c & q & _ & Hw' & Hc & Hq & ->)
       |(Hm & w & _ & Hw' & ->)]]]];
    try (rewrite Hws in Hw'; discriminate).
  - destruct (on_found_links_admits order (start_urls (self s)) (self s))
      as (added' & A & _). rewrite <- Hc in A.
    pose proof (adm_gets _ _ _ _ A) as Hg'.
    pose proof (adm_workers _ _ _ _ A) as Hn'.
    assert (Z.to_nat (num_workers c) = O) as Hz by lia.
    destruct (Queue.unfinished_tasks (todo c)); simpl; rewrite Hz, Hg', Hg; done.
  - simpl. by rewrite Hws.
Qed.

(** A crawler or reader built with no worker and with something to visit
    never returns from [run]: nothing is dequeued, nothing is done, and
    [todo.join()] waits for ever. *)
Theorem no_workers_never_returns (k : construction) (acts : list action)
    (Hworkers : num_workers (construct k) ≤ 0)
    (Hqueued :
       Queue.puts (Queue.history (todo (self (execs acts (boot k))))) ≠ []) :
  let s := execs acts (boot k) in
  main s = Joining
  ∧ Queue.gets (Queue.history (todo (self s))) = []
  ∧ done (self s) = ∅
  ∧ ∀ more, main (execs (acts ++ more) (boot k)) = Joining.
Proof.
  cbv zeta.
  assert (∀ acts',
            Queue.puts (Queue.history (todo (self (execs acts' (boot k))))) ≠ [] →
            main (execs acts' (boot k)) = Joining) as Hj.
  { intros acts' Hq.
    pose proof (reachable_invariant k acts') as I.
    destruct (no_workers_no_gets k acts' Hworkers) as [Hws Hg].
    set (s := execs acts' (boot k)) in *.
    pose proof (inv_main s I) as Hi. pose proof (inv_fifo s I) as Hf.
    pose proof (inv_unfinished s I) as Hu. rewrite Hg in Hf. simpl in Hf.
    destruct (main s); [|done|].
    - destruct Hi as (_ & Ht & _). rewrite Ht in Hq. done.
    - destruct Hi as [Hz _]. rewrite Hz in Hu.
      destruct (Queue.items (todo (self s))); [congruence|simpl in Hu; lia]. }
  pose proof (reachable_invariant k acts) as I.
  destruct (no_workers_no_gets k acts Hworkers) as [Hws Hg].
  split; [by apply Hj|]. split; [done|]. split.
  - apply set_eq. intros x. split; [|by intros ?%not_elem_of_empty].
    intros Hx. apply (inv_done _ I) in Hx. rewrite Hg in Hx.
    by apply elem_of_nil in Hx.
  - intros more. apply Hj. rewrite execs_app.
    pose proof (execs_ind
                  (λ s, Queue.puts (Queue.history (todo (self s))) ≠ [])) as H.
    apply H; [|done|done].
    intros a s s' Is Hs E. destruct (exec_facts a s s' Is E) as (added & urls' & F).
    rewrite (sf_puts _ _ _ _ _ F). intros [? _]%app_eq_nil. done.
Qed.

Lemma no_workers_never_returns_witness :
  main (execs [Run []; Dequeue 0; Joined]
          (boot (NewSpellReader ["https://h/a"] ["en"] 0))) = Joining.
Proof.
  refine (proj1 (no_workers_never_returns
            (NewSpellReader ["https://h/a"] ["en"] 0)
            [Run []; Dequeue 0; Joined] _ _)).
  - vm_compute. discriminate.
  - vm_compute. discriminate.
Defined.

(** ** Workers and the frontier *)


(** The frontier is first in, first out: the addresses taken from the queue,
    followed by those still on it, are the addresses put on it, in the order
    in which they were put; so the [i]-th address dequeued is the [i]-th
    address queued, and the next to be dequeued is the one queued after the
    last that was. *)
Theorem frontier_is_fifo (k : construction) (acts : list action) :
  let s := execs acts (boot k) in
  let h := Queue.history (todo (self s)) in
  Queue.gets h ++ Queue.items (todo (self s)) = Queue.puts h
  ∧ (∀ i, (i < length (Queue.gets h))%nat →
          Queue.gets h !! i = Queue.puts h !! i)
  ∧ ∀ w s', exec (Dequeue w) s = Some s' →
      ∃ x, Queue.puts h !! length (Queue.gets h) = Some x
           ∧ Queue.gets (Queue.history (todo (self s'))) = Queue.gets h ++ [x].
Proof.
  cbv zeta. pose proof (reachable_invariant k acts) as I.
  set (s := execs acts (boot k)) in *.
  pose proof (inv_fifo s I) as Hf. split; [done|]. split.
  - intros i Hi. rewrite <- Hf. by rewrite lookup_app_l.
  - intros w s' E. simpl in E. unfold process_one_get in E.
    destruct (workers s !! w) as [[[] []]|]; try discriminate.
    destruct (Queue.get (todo (self s))) as [[x q]|] eqn:Hq; [|discriminate].
    injection E as <-. apply get_Some in Hq as (Hit & _ & Hg & _).
    exists x. split; [|done].
    rewrite <- Hf, Hit, lookup_app_r, Nat.sub_diag by lia. done.
Qed.

(** A default crawler queues, visits and completes only addresses that
    contain ["?p="]. *)
Theorem crawler_visits_only_marked (urls : list string) (f : option callable)
    (workers_ limit_ : Z) (acts : list action) :
  let s := execs acts (boot (NewCrawler urls f workers_ limit_)) in
  let h := Queue.history (todo (self s)) in
  Forall (λ u, Str.contains "?p=" u = true) (Queue.puts h)
  ∧ Forall (λ u, Str.contains "?p=" u = true) (Queue.gets h)
  ∧ Forall (λ u, Str.contains "?p=" u = true) (visiting (workers s))
  ∧ set_Forall (λ u, Str.contains "?p=" u = true) (done (self s)).
Proof.
  cbv zeta. set (k := NewCrawler urls f workers_ limit_).
  assert (cls (self (execs acts (boot k))) = CrawlerClass
          ∧ Forall (λ u, Str.contains "?p=" u = true)
              (Queue.puts (Queue.history (todo (self (execs acts (boot k)))))))
    as [_ Hp].
  { apply (execs_ind (λ s, cls (self s) = CrawlerClass
      ∧ Forall (λ u, Str.contains "?p=" u = true)
          (Queue.puts (Queue.history (todo (self s))))));
      [|apply boot_invariant|by split; [|constructor]].
    intros a s s' I [Hc Hp] E.
    destruct (exec_facts a s s' I E) as (added & urls' & F).
    split; [by rewrite (sf_cls _ _ _ _ _ F)|].
    rewrite (sf_puts _ _ _ _ _ F). apply Forall_app. split; [done|].
    by apply (sf_marker _ _ _ _ _ F). }
  pose proof (reachable_invariant k acts) as I.
  set (s := execs acts (boot k)) in *.
  assert (Forall (λ u, Str.contains "?p=" u = true)
            (Queue.gets (Queue.history (todo (self s))))) as Hg.
  { rewrite <- (inv_fifo s I) in Hp. by apply Forall_app in Hp as [? _]. }
  rewrite Forall_forall in Hg.
  split; [done|]. split; [by apply Forall_forall|]. split.
  - apply Forall_forall. intros u Hu. apply Hg. by apply (inv_visited s I).
  - intros u Hu. apply Hg. by apply (inv_done s I).
Qed.

(** What a crawl has recorded it keeps: along a schedule the seen set and
    the done set only grow, the log of the addresses queued is only
    extended, and the counter never decreases. *)
Theorem crawl_only_accumulates (k : construction) (acts more : list action) :
  let s := execs acts (boot k) in
  let s' := execs (acts ++ more) (boot k) in
  seen (self s) ⊆ seen (self s')
  ∧ done (self s) ⊆ done (self s')
  ∧ Queue.puts (Queue.history (todo (self s)))
    `prefix_of` Queue.puts (Queue.history (todo (self s')))
  ∧ total (self s) ≤ total (self s').
Proof.
  cbv zeta. rewrite execs_app.
  pose proof (reachable_invariant k acts) as I.
  set (s := execs acts (boot k)) in *.
  destruct (execs_mono more s I) as (Hs & Hd & _).
  split; [done|]. split; [done|].
  assert (Queue.puts (Queue.history (todo (self s)))
          `prefix_of` Queue.puts (Queue.history (todo (self (execs more s)))))
    as Hp.
  { apply (execs_ind (λ s', Queue.puts (Queue.history (todo (self s)))
        `prefix_of` Queue.puts (Queue.history (todo (self s'))))); [|done|done].
    intros a s1 s2 I1 H1 E.
    destruct (exec_facts a s1 s2 I1 E) as (added & urls' & F).
    rewrite (sf_puts _ _ _ _ _ F). by apply prefix_app_r. }
  split; [done|].
  rewrite (inv_total s I), (inv_total _ (execs_invariant more s I)).
  apply prefix_length in Hp. lia.
Qed.

Lemma visiting_length ws : (length (visiting ws) ≤ length ws)%nat.
Proof.
  induction ws as [|t ws IH]; [done|]. rewrite visiting_cons, length_app.
  unfold vis. destruct (at_place t); simpl; lia.
Qed.

(** At most as many visits are under way as there are workers, and no
    address is visited by two workers at once, or visited while it is still
    queued or already done. *)
Theorem visits_under_way (k : construction) (acts : list action) :
  let s := execs acts (boot k) in
  (length (visiting (workers s)) ≤ Z.to_nat (num_workers (construct k)))%nat
  ∧ NoDup (visiting (workers s))
  ∧ Forall (λ u, (u ∉ Queue.items (todo (self s))) ∧ (u ∉ done (self s)))
           (visiting (workers s)).
Proof.
  cbv zeta. pose proof (reachable_invariant k acts) as I.
  set (s := execs acts (boot k)) in *. split; [|split].
  - destruct (main s) eqn:Hm.
    + pose proof (inv_main s I) as Hi. rewrite Hm in Hi.
      destruct Hi as [-> _]. simpl. lia.
    + rewrite <- (execs_pool k acts) by (fold s; by rewrite Hm). fold s.
      apply visiting_length.
    + rewrite <- (execs_pool k acts) by (fold s; by rewrite Hm). fold s.
      apply visiting_length.
  - apply (inv_visiting s I).
  - apply Forall_forall. intros u Hu.
    destruct (inv_visited s I u Hu) as [Hg Hd]. split; [|done].
    pose proof (inv_gets_items s I) as Hn.
    apply NoDup_app in Hn as (_ & Hn & _). by apply Hn.
Qed.

(** ** [main] as it is written *)

Lemma iterate_singleton order (x : string) : iterate order {[x]} = [x].
Proof.
  apply Permutation_singleton_r, NoDup_Permutation;
    [apply NoDup_iterate|apply NoDup_singleton|].
  intros y. by rewrite elem_of_iterate, elem_of_singleton, list_elem_of_singleton.
Qed.

Lemma put_todo_unmarked url c :
  cls c = CrawlerClass → Str.contains "?p=" url = false → put_todo url c = c.
Proof.
  intros Hc Hu. unfold put_todo, Crawler_put_todo. rewrite Hc, Hu. simpl.
  by destruct (limit c <=? total c).
Qed.

(** The first step of the crawler of [main]. *)
Lemma main_run_start host_ok nfkc_ok order :
  exec (Run order) (boot (main_crawler host_ok nfkc_ok))
  = Some (mkSys (set_seen {["https://playorna.com/codex/spells/"]}
                          (construct (main_crawler host_ok nfkc_ok)))
                Returned (replicate 5 (mkTask Idle true))).
Proof.
  set (seed := "https://playorna.com/codex/spells/").
  set (c0 := construct (main_crawler host_ok nfkc_ok)).
  assert (on_found_links order (start_urls c0) c0 = set_seen {[seed]} c0) as H.
  { unfold on_found_links.
    assert (start_urls c0 = {[seed]}) as -> by apply union_empty_r_L.
    assert (seen c0 = ∅) as -> by done.
    rewrite difference_empty_L, union_empty_l_L, iterate_singleton.
    cbn [foldl]. apply put_todo_unmarked; [done|]. vm_compute. reflexivity. }
  cbn [exec]. unfold run_start. cbn [main boot self]. fold c0. rewrite H.
  done.
Qed.

(** [main], as it is written: its crawler is given one seed, which has no
    ["?p="]. Whatever the schedule and the network, [run] returns in its
    first step, the seed is the one address seen, nothing is ever queued or
    visited, [spell_urls] is the seed alone, and the reader that
    [get_spells] builds from it queues that one address. *)
Theorem main_reads_only_its_seed (host_ok nfkc_ok : string → bool)
    (order order' : list string) (acts acts' : list action)
    (langs_ : list string) :
  let seed := "https://playorna.com/codex/spells/" in
  let s := execs (Run order :: acts) (boot (main_crawler host_ok nfkc_ok)) in
  let spell_urls := main_spell_urls order' (seen (self s)) in
  let r := execs (Run order :: acts') (boot (get_spells spell_urls langs_)) in
  main s = Returned
  ∧ seen (self s) = {[seed]}
  ∧ done (self s) = ∅
  ∧ Queue.history (todo (self s)) = []
  ∧ spell_urls = [seed]
  ∧ Queue.puts (Queue.history (todo (self r))) = [seed].
Proof.
  cbv zeta. set (seed := "https://playorna.com/codex/spells/").
  set (k := main_crawler host_ok nfkc_ok).
  assert (main (execs (Run order :: acts) (boot k)) = Returned
          ∧ seen (self (execs (Run order :: acts) (boot k))) = {[seed]}
          ∧ done (self (execs (Run order :: acts) (boot k))) = ∅
          ∧ todo (self (execs (Run order :: acts) (boot k))) = Queue.new)
    as (Hm & Hs & Hd & Ht).
  { change (Run order :: acts) with ([Run order] ++ acts). rewrite execs_app.
    apply (execs_ind (λ s, main s = Returned ∧ seen (self s) = {[seed]}
      ∧ done (self s) = ∅ ∧ todo (self s) = Queue.new)).
    - intros a s s' I (Hm & Hs & Hd & Ht) E.
      destruct (exec_cases a s s' I E)
        as [(? & c & _ & Hm' & _)|[(_ & Hm' & _)
           |[(_ & w & x & q & _ & _ & Hq & _)
           |[(_ & w & r & o & u & c & q & _ & Hw & _)
           |(_ & w & _ & _ & ->)]]]]; try congruence.
      + rewrite Ht in Hq. discriminate.
      + destruct (visiting_unfinished s w u false I Hw) as (_ & ? & _).
        congruence.
      + done.
    - apply reachable_invariant.
    - change (execs [Run order] (boot k))
        with (default (boot k) (exec (Run order) (boot k))).
      unfold k. rewrite main_run_start. done. }
  rewrite Hm, Hs, Hd, Ht.
  assert (main_spell_urls order' {[seed]} = [seed]) as Hsp.
  { unfold main_spell_urls. rewrite iterate_singleton. vm_compute. reflexivity. }
  rewrite Hsp. repeat (split; [done|]). unfold get_spells.
  destruct (reader_state [seed] langs_ 5 (Run order :: acts'))
    as (_ & _ & _ & _ & H).
  destruct H as [_ (o & ->)]; [apply run_started|].
  simpl. rewrite union_empty_r_L. apply iterate_singleton.
Qed.

(** ** [SpellParser] *)

Lemma lstrip_head f s :
  Str.lstrip f s = EmptyString
  ∨ ∃ c t, Str.lstrip f s = String c t ∧ f c = false.
Proof.
  induction s as [|c s IH]; simpl; [by left|].
  destruct (f c) eqn:E; [done|]. right. by exists c, s.
Qed.

Lemma rstrip_idemp f s : Str.rstrip f (Str.rstrip f s) = Str.rstrip f s.
Proof.
  induction s as [|c s IH]; [done|]. simpl.
  destruct (Str.is_empty (Str.rstrip f s) && f c) eqn:E; [done|].
  simpl. by rewrite IH, E.
Qed.

Lemma rstrip_cons_false f c t :
  f c = false → Str.rstrip f (String c t) = String c (Str.rstrip f t).
Proof. intros Hc. simpl. by rewrite Hc, andb_false_r. Qed.

Lemma strip_idemp s : Str.strip (Str.strip s) = Str.strip s.
Proof.
  unfold Str.strip.
  destruct (lstrip_head Str.is_space s) as [->|(c & t & -> & Hc)]; [done|].
  rewrite (rstrip_cons_false _ c t Hc).
  assert (Str.lstrip Str.is_space (String c (Str.rstrip Str.is_space t))
          = String c (Str.rstrip Str.is_space t)) as -> by (simpl; by rewrite Hc).
  by rewrite (rstrip_cons_false _ c _ Hc), rstrip_idemp.
Qed.

Lemma feed_stripped text : ∀ p,
  stripped (SpellParser.name p) → stripped (SpellParser.description p) →
  stripped (SpellParser.name (SpellParser.feed text p))
  ∧ stripped (SpellParser.description (SpellParser.feed text p)).
Proof.
  induction text as [|e text IH]; intros p Hn Hd; [done|].
  simpl. apply IH.
  - destruct e as [tag attrs|tag|data]; simpl.
    + unfold SpellParser.handle_starttag.
      repeat (match goal with |- context [if ?b then _ else _] => destruct b end);
        done.
    + unfold SpellParser.handle_endtag. by destruct (negb _).
    + unfold SpellParser.handle_data.
      destruct (SpellParser.capture_name p); [apply strip_idemp|].
      by destruct (SpellParser.capture_desc p).
  - destruct e as [tag attrs|tag|data]; simpl.
    + unfold SpellParser.handle_starttag.
      repeat (match goal with |- context [if ?b then _ else _] => destruct b end);
        done.
    + unfold SpellParser.handle_endtag. by destruct (negb _).
    + unfold SpellParser.handle_data.
      destruct (SpellParser.capture_name p); [done|].
      destruct (SpellParser.capture_desc p); [apply strip_idemp|done].
Qed.

(** The name and the description that [parse_spell_info] returns carry no
    white space at either end: [strip] leaves them as they are. *)
Theorem parse_spell_info_is_stripped (text : list SpellParser.event) :
  let '(name, desc) := SpellReader_parse_spell_info text in
  Str.strip name = name ∧ Str.strip desc = desc.
Proof.
  unfold SpellReader_parse_spell_info. cbv zeta.
  by apply (feed_stripped text SpellParser.init).
Qed.

Lemma handle_unheeded e p : heeded e = false → SpellParser.handle p e = p.
Proof.
  destruct e as [tag attrs|tag|data]; cbn [heeded SpellParser.handle];
    [| |done]; intros H;
    unfold SpellParser.handle_starttag, SpellParser.handle_endtag;
    by rewrite H.
Qed.

(** The handlers return at once on a start or end tag other than [div] and
    [h1]: leaving these calls out of a sequence of calls changes nothing. *)
Lemma feed_heeded (calls : list SpellParser.event) (self : SpellParser.t) :
  SpellParser.feed (filter (λ e, heeded e = true) calls) self
  = SpellParser.feed calls self.
Proof.
  revert self. induction calls as [|e calls IH]; intros p; [done|].
  destruct (heeded e) eqn:E.
  - rewrite filter_cons_True by done. simpl. apply IH.
  - rewrite filter_cons_False by (by rewrite E). simpl.
    rewrite handle_unheeded by done. apply IH.
Qed.

(** Without a start tag of class [c], the flag that [c] raises stays down. *)
Lemma feed_unarmed_name text : ∀ p,
  Forall (λ e, has_class "herotext" e = false) text →
  SpellParser.capture_name p = false →
  SpellParser.capture_name (SpellParser.feed text p) = false
  ∧ SpellParser.name (SpellParser.feed text p) = SpellParser.name p.
Proof.
  induction text as [|e text IH]; intros p Hall Hc; [done|].
  apply Forall_cons in Hall as [He Hall]. simpl.
  assert (SpellParser.capture_name (SpellParser.handle p e) = false
          ∧ SpellParser.name (SpellParser.handle p e) = SpellParser.name p)
    as [Hc' Hn'].
  { destruct e as [tag attrs|tag|data]; simpl in *.
    - unfold SpellParser.handle_starttag. rewrite He.
      repeat (match goal with |- context [if ?b then _ else _] => destruct b end);
        done.
    - unfold SpellParser.handle_endtag. by destruct (negb _).
    - unfold SpellParser.handle_data. rewrite Hc.
      by destruct (SpellParser.capture_desc p). }
  destruct (IH _ Hall Hc') as [? ?]. split; congruence.
Qed.

Lemma feed_unarmed_desc text : ∀ p,
  Forall (λ e, has_class "codex-page-description" e = false) text →
  SpellParser.capture_desc p = false →
  SpellParser.capture_desc (SpellParser.feed text p) = false
  ∧ SpellParser.description (SpellParser.feed text p)
    = SpellParser.description p.
Proof.
  induction text as [|e text IH]; intros p Hall Hc; [done|].
  apply Forall_cons in Hall as [He Hall]. simpl.
  assert (SpellParser.capture_desc (SpellParser.handle p e) = false
          ∧ SpellParser.description (SpellParser.handle p e)
            = SpellParser.description p) as [Hc' Hn'].
  { destruct e as [tag attrs|tag|data]; simpl in *.
    - unfold SpellParser.handle_starttag. rewrite He.
      repeat (match goal with |- context [if ?b then _ else _] => destruct b end);
        done.
    - unfold SpellParser.handle_endtag. by destruct (negb _).
    - unfold SpellParser.handle_data. rewrite Hc.
      by destruct (SpellParser.capture_name p). }
  destruct (IH _ Hall Hc') as [? ?]. split; congruence.
Qed.

(** While no [div] or [h1] ends, a flag that is up stays up. *)
Lemma feed_armed calls : ∀ p,
  Forall (λ e, closes e = false) calls →
  (SpellParser.capture_name p = true →
   SpellParser.capture_name (SpellParser.feed calls p) = true)
  ∧ (SpellParser.capture_desc p = true →
     SpellParser.capture_desc (SpellParser.feed calls p) = true).
Proof.
  induction calls as [|e calls IH]; intros p Hall; [done|].
  apply Forall_cons in Hall as [He Hall]. simpl.
  destruct (IH (SpellParser.handle p e) Hall) as [IHn IHd].
  split; intros H; [apply IHn|apply IHd];
    destruct e as [tag attrs|tag|data]; simpl in *.
  - unfold SpellParser.handle_starttag.
    repeat (match goal with |- context [if ?b then _ else _] => destruct b end);
      done.
  - unfold SpellParser.handle_endtag. by rewrite He.
  - unfold SpellParser.handle_data. rewrite H.
    by destruct (SpellParser.capture_desc p).
  - unfold SpellParser.handle_starttag.
    repeat (match goal with |- context [if ?b then _ else _] => destruct b end);
      done.
  - unfold SpellParser.handle_endtag. by rewrite He.
  - unfold SpellParser.handle_data.
    destruct (SpellParser.capture_name p); [done|]. by rewrite H.
Qed.

(** Calls that report no text leave the name and the description alone. *)
Lemma feed_silent calls : ∀ p,
  Forall (λ e, is_data e = false) calls →
  SpellParser.name (SpellParser.feed calls p) = SpellParser.name p
  ∧ SpellParser.description (SpellParser.feed calls p)
    = SpellParser.description p.
Proof.
  induction calls as [|e calls IH]; intros p Hall; [done|].
  apply Forall_cons in Hall as [He Hall]. simpl.
  destruct (IH (SpellParser.handle p e) Hall) as [-> ->].
  destruct e as [tag attrs|tag|data]; simpl in *; [| |done].
  - unfold SpellParser.handle_starttag.
    repeat (match goal with |- context [if ?b then _ else _] => destruct b end);
      done.
  - unfold SpellParser.handle_endtag. by destruct (negb _).
Qed.

(** While the name is captured, text never reaches the description. *)
Lemma feed_name_first calls : ∀ p,
  Forall (λ e, closes e = false) calls →
  SpellParser.capture_name p = true →
  SpellParser.description (SpellParser.feed calls p)
  = SpellParser.description p.
Proof.
  induction calls as [|e calls IH]; intros p Hall Hn; [done|].
  apply Forall_cons in Hall as [He Hall]. simpl.
  destruct (feed_armed [e] p) as [Hn' _]; [by constructor|].
  rewrite IH; [|done|by apply Hn'].
  destruct e as [tag attrs|tag|data]; simpl in *.
  - unfold SpellParser.handle_starttag.
    repeat (match goal with |- context [if ?b then _ else _] => destruct b end);
      done.
  - unfold SpellParser.handle_endtag. by rewrite He.
  - unfold SpellParser.handle_data. by rewrite Hn.
Qed.

(** Of the text inside one captured element only the last piece is kept.
    [HTMLParser] reports the text of an element in several calls when tags
    or comments stand inside it, and [handle_data] overwrites what the call
    before stored. With [capture_name] up and no end of a [div] or [h1]
    among the calls, the name is the last text reported, stripped, whatever
    was reported before it, and the description is left alone, also when
    [capture_desc] is up. With [capture_desc] up alone and no start tag of
    class [herotext], the same holds of the description. *)
Theorem last_text_call_wins (self : SpellParser.t)
    (before after : list SpellParser.event) (data : string)
    (Hopen : Forall (λ e, closes e = false) (before ++ after))
    (Hlast : Forall (λ e, is_data e = false) after) :
  let p := SpellParser.feed (before ++ SpellParser.Data data :: after) self in
  (SpellParser.capture_name self = true →
   SpellParser.name p = Str.strip data
   ∧ SpellParser.description p = SpellParser.description self)
  ∧ (SpellParser.capture_name self = false →
     SpellParser.capture_desc self = true →
     Forall (λ e, has_class "herotext" e = false) before →
     SpellParser.description p = Str.strip data
     ∧ SpellParser.name p = SpellParser.name self).
Proof.
  cbv zeta. apply Forall_app in Hopen as [Hb Ha].
  unfold SpellParser.feed. rewrite foldl_app. cbn [foldl SpellParser.handle].
  fold (SpellParser.feed before self).
  set (q := SpellParser.feed before self).
  fold (SpellParser.feed after (SpellParser.handle_data data q)).
  destruct (feed_silent after (SpellParser.handle_data data q) Hlast) as [-> ->].
  destruct (feed_armed before self Hb) as [Hn Hd]. fold q in Hn, Hd.
  split.
  - intros H. unfold SpellParser.handle_data. rewrite (Hn H). simpl.
    split; [done|]. by apply feed_name_first.
  - intros H1 H2 Hh.
    destruct (feed_unarmed_name before self Hh H1) as [Hq1 Hq2]. fold q in Hq1, Hq2.
    unfold SpellParser.handle_data. rewrite Hq1, (Hd H2). simpl. by split.
Qed.

Lemma last_text_call_wins_witness :
  SpellParser.name
    (SpellParser.feed
       ([SpellParser.Data "A"; SpellParser.StartTag "b" [];
         SpellParser.Data "B"; SpellParser.EndTag "b"]
        ++ SpellParser.Data "C " :: [])
       (SpellParser.feed
          [SpellParser.StartTag "h1" [("class", Some "herotext")]]
          SpellParser.init))
  = "C".
Proof.
  refine (proj1 (proj1 (last_text_call_wins
    (SpellParser.feed [SpellParser.StartTag "h1" [("class", Some "herotext")]]
                      SpellParser.init)
    [SpellParser.Data "A"; SpellParser.StartTag "b" [];
     SpellParser.Data "B"; SpellParser.EndTag "b"]
    [] "C " _ _) _)).
  - repeat constructor.
  - constructor.
  - reflexivity.
Defined.

(** A page on which no start tag has the class [herotext] yields the empty
    name, and one on which none has the class [codex-page-description] the
    empty description, whatever else it holds. *)
Theorem unmarked_page_yields_nothing (text : list SpellParser.event) :
  (Forall (λ e, has_class "herotext" e = false) text →
   (SpellReader_parse_spell_info text).1 = EmptyString)
  ∧ (Forall (λ e, has_class "codex-page-description" e = false) text →
     (SpellReader_parse_spell_info text).2 = EmptyString).
Proof.
  unfold SpellReader_parse_spell_info. cbv zeta. simpl. split; intros H.
  - by destruct (feed_unarmed_name text SpellParser.init H eq_refl) as [_ ->].
  - by destruct (feed_unarmed_desc text SpellParser.init H eq_refl) as [_ ->].
Qed.

(** The call that reports the end of a [div] or of an [h1], a nested one
    included, ends the capture: the name and the description that the parser
    holds when that call comes are those that [parse_spell_info] returns,
    whatever calls follow, unless one of them is a start tag of one of the
    two classes. *)
Theorem end_tag_ends_capture (calls rest : list SpellParser.event)
    (tag : string)
    (Htag : SpellParser.tracked tag = true)
    (Hrest : Forall (λ e, has_class "herotext" e = false
                          ∧ has_class "codex-page-description" e = false) rest) :
  let held := SpellParser.feed calls SpellParser.init in
  SpellReader_parse_spell_info (calls ++ SpellParser.EndTag tag :: rest)
  = (SpellParser.name held, SpellParser.description held).
Proof.
  unfold SpellReader_parse_spell_info, SpellParser.feed.
  rewrite foldl_app. simpl. unfold SpellParser.handle_endtag. rewrite Htag. simpl.
  set (p := foldl SpellParser.handle SpellParser.init calls).
  set (p' := SpellParser.mk _ _ false false).
  destruct (feed_unarmed_name rest p') as [_ Hn]; [|done|].
  { eapply Forall_impl; [exact Hrest|]. by intros e [? _]. }
  destruct (feed_unarmed_desc rest p') as [_ Hd]; [|done|].
  { eapply Forall_impl; [exact Hrest|]. by intros e [_ ?]. }
  unfold SpellParser.feed in Hn, Hd. by rewrite Hn, Hd.
Qed.

Lemma end_tag_ends_capture_witness :
  SpellReader_parse_spell_info
    ([SpellParser.StartTag "div" [("class", Some "codex-page-description")];
      SpellParser.Data " Burns the target. ";
      SpellParser.StartTag "div" [("class", Some "icon")]]
     ++ SpellParser.EndTag "div"
        :: [SpellParser.Data "Costs 10 mana."; SpellParser.EndTag "div"])
  = ("", "Burns the target.").
Proof.
  apply (end_tag_ends_capture
           [SpellParser.StartTag "div" [("class", Some "codex-page-description")];
            SpellParser.Data " Burns the target. ";
            SpellParser.StartTag "div" [("class", Some "icon")]]
           [SpellParser.Data "Costs 10 mana."; SpellParser.EndTag "div"] "div").
  - vm_compute. reflexivity.
  - repeat constructor.
Defined.

(** ** [main]: the order on [str] and [spell_urls] *)

Lemma compare_not_gt_trans a : ∀ b c,
  String.compare a b ≠ Gt → String.compare b c ≠ Gt → String.compare a c ≠ Gt.
Proof.
  induction a as [|x a IH]; intros [|y b] [|z c]; simpl; try done.
  unfold Ascii.compare.
  destruct (N.compare_spec (N_of_ascii x) (N_of_ascii y)) as [Exy|Hxy|Hxy];
    destruct (N.compare_spec (N_of_ascii y) (N_of_ascii z)) as [Eyz|Hyz|Hyz];
    try done; intros H1 H2.
  - rewrite Exy, Eyz, N.compare_refl. by apply (IH b c).
  - rewrite Exy. by rewrite (proj2 (N.compare_lt_iff _ _) Hyz).
  - rewrite <- Eyz. by rewrite (proj2 (N.compare_lt_iff _ _) Hxy).
  - by rewrite (proj2 (N.compare_lt_iff _ _) (N.lt_trans _ _ _ Hxy Hyz)).
Qed.

Lemma str_le_total : Total Str.le.
Proof. intros a b. apply String.leb_total. Qed.

Lemma str_le_trans : Transitive Str.le.
Proof.
  intros a b c. unfold Str.le, String.leb. intros H1 H2.
  pose proof (compare_not_gt_trans a b c) as H.
  destruct (String.compare a b), (String.compare b c), (String.compare a c);
    try done; exfalso; by apply H.
Qed.

Lemma str_le_antisym : AntiSymm (=) Str.le.
Proof. intros a b. apply String.leb_antisym. Qed.

#[local] Existing Instances str_le_total str_le_trans str_le_antisym.

Lemma sorted_Sorted l : Sorted Str.le (sorted l).
Proof. apply Sorted_merge_sort, _. Qed.

Lemma sorted_Permutation l : sorted l ≡ₚ l.
Proof. apply merge_sort_Permutation. Qed.

(** Sorting depends on the elements only, not on the order they come in. *)
Lemma sorted_perm l1 l2 : l1 ≡ₚ l2 → sorted l1 = sorted l2.
Proof.
  intros H. apply (Sorted_unique Str.le); try apply sorted_Sorted.
  by rewrite !sorted_Permutation.
Qed.

(** A sorted list is left as it is. *)
Lemma sorted_id l : Sorted Str.le l → sorted l = l.
Proof.
  intros H. apply (Sorted_unique Str.le); [apply sorted_Sorted|done|].
  apply sorted_Permutation.
Qed.

Lemma StronglySorted_filter (P : string → Prop) `{∀ x, Decision (P x)} l :
  StronglySorted Str.le l → StronglySorted Str.le (filter P l).
Proof.
  induction 1 as [|x l Hl IH Hx]; [constructor|].
  destruct (decide (P x)).
  - rewrite filter_cons_True by done. constructor; [done|].
    apply Forall_forall. intros y [_ Hy]%list_elem_of_filter.
    rewrite Forall_forall in Hx. auto.
  - by rewrite filter_cons_False.
Qed.

Lemma iterate_perm order order' (X : gset string) :
  iterate order X ≡ₚ iterate order' X.
Proof.
  apply NoDup_Permutation; try apply NoDup_iterate.
  intros x. by rewrite !elem_of_iterate.
Qed.

(** [spell_urls] in [main]: the addresses of the seen set that contain
    ["spells"] and not ["lang"], each once, in ascending order of their code
    points, whatever the order in which the set is iterated; the second sort
    finds the list sorted and changes nothing. *)
Theorem spell_urls_is_the_sorted_selection (order : list string)
    (seen : gset string) :
  let spell_urls := main_spell_urls order seen in
  StronglySorted Str.le spell_urls
  ∧ NoDup spell_urls
  ∧ (∀ x, x ∈ spell_urls
          ↔ x ∈ seen ∧ Str.contains "spells" x = true
            ∧ Str.contains "lang" x = false)
  ∧ (∀ order', main_spell_urls order' seen = spell_urls)
  ∧ spell_urls
    = filter (λ s, Str.contains "spells" s = true ∧ Str.contains "lang" s = false)
             (sorted (iterate order seen)).
Proof.
  cbv zeta. unfold main_spell_urls.
  set (P := λ s : string,
              Str.contains "spells" s = true ∧ Str.contains "lang" s = false).
  assert (∀ o, sorted (filter P (sorted (iterate o seen)))
               = filter P (sorted (iterate o seen))) as Hid.
  { intros o. apply sorted_id, StronglySorted_Sorted, StronglySorted_filter.
    apply Sorted_StronglySorted; [apply _|apply sorted_Sorted]. }
  rewrite Hid. split; [|split; [|split; [|split]]].
  - apply StronglySorted_filter, Sorted_StronglySorted; [apply _|apply sorted_Sorted].
  - apply NoDup_filter. rewrite sorted_Permutation. apply NoDup_iterate.
  - intros x. rewrite list_elem_of_filter, sorted_Permutation, elem_of_iterate.
    unfold P. tauto.
  - intros order'. rewrite Hid. f_equal. apply sorted_perm, iterate_perm.
  - done.
Qed.

(** ** [save_spell_urls] *)

Lemma save_spell_urls_app acc l :
  foldl (λ fp url, fp +:+ url +:+ Str.newline) acc l
  = acc +:+ save_spell_urls l.
Proof.
  unfold save_spell_urls. revert acc.
  induction l as [|u l IH]; intros acc; simpl.
  - by rewrite app_nil_r_s.
  - rewrite IH, (IH (u +:+ Str.newline)). by rewrite !app_assoc_s.
Qed.

Lemma save_spell_urls_cons u l :
  save_spell_urls (u :: l) = u +:+ Str.newline +:+ save_spell_urls l.
Proof.
  unfold save_spell_urls at 1. simpl. rewrite save_spell_urls_app.
  by rewrite app_assoc_s.
Qed.

Lemma split_app_sep c a b :
  clean c a → Str.split c (a +:+ String c b) = a :: Str.split c b.
Proof.
  induction a as [|d a IH]; simpl.
  - intros _. by rewrite Ascii.eqb_refl.
  - intros [Hd Ha]%orb_false_elim. rewrite Hd, IH by done. done.
Qed.

(** [save_spell_urls] writes one line for each address, in order: read
    back and split at the line feeds, the file gives the addresses again,
    followed by the empty string that the last line feed leaves. *)
Theorem save_spell_urls_round_trip (spells : list string)
    (Hlines : Forall (λ url, Str.has_char "010" url = false) spells) :
  Str.split "010" (save_spell_urls spells) = spells ++ [EmptyString].
Proof.
  induction Hlines as [|u l Hu Hl IH]; [done|].
  rewrite save_spell_urls_cons. unfold Str.newline. simpl String.append.
  rewrite split_app_sep by done. by rewrite IH.
Qed.

Lemma save_spell_urls_round_trip_witness :
  Str.split "010"
    (save_spell_urls ["https://playorna.com/codex/spells/fire/";
                      "https://playorna.com/codex/spells/ice/"])
  = ["https://playorna.com/codex/spells/fire/";
     "https://playorna.com/codex/spells/ice/"] ++ [EmptyString].
Proof.
  apply save_spell_urls_round_trip. repeat constructor.
Defined.
